(** * zestack/env: a process-wide configuration accessor

    A shallow embedding of the Go package [env] (files [environ.go],
    [inner.go], [signer.go] and [env.go]) and the properties of its
    key/value store, typed accessors, scoped views and layered loading.

    Conventions of the embedding:
    - a Go [string] is a [string] (a sequence of bytes);
    - a Go [map[string]string] is a [gmap string string]; the order in which
      a [range] statement visits it is unspecified, so a loop over a map is
      modelled on an arbitrary permutation of [map_to_list];
    - a slice is a [list]; the nil slice is [[]];
    - [int] is the 64-bit integer of the usual platforms, [int32] a [Z] with
      its wrap-around written out;
    - the reader/writer mutex of the store is left out of the sequential part
      and modelled explicitly in the interleaving semantics of [Race]. *)

From stdpp Require Import gmap strings list.
From Stdlib Require Import ZArith Ascii.
From Stdlib Require Import Floats.SpecFloat.

Local Open Scope Z_scope.

(** How a call ends: it returns, it panics (an index out of range), or the
    fuel of a modelled loop ran out before the loop ended. *)
Inductive run (A : Type) : Type :=
| Returns (a : A)
| Panics
| OutOfFuel.
Arguments Returns {A} a.
Arguments Panics {A}.
Arguments OutOfFuel {A}.

(** ** Pieces of the Go standard library used by the package *)

(** [strings.HasPrefix(s, prefix)]. *)
Definition strings_HasPrefix (s prefix : string) : bool := String.prefix prefix s.

Fixpoint string_drop (n : nat) (s : string) : string :=
  match n, s with
  | O, _ => s
  | S n', String _ s' => string_drop n' s'
  | S _, EmptyString => EmptyString
  end.

(** [strings.TrimPrefix(s, prefix)]: [s] without the leading [prefix], or [s]
    itself when it does not start with [prefix]. *)
Definition strings_TrimPrefix (s prefix : string) : string :=
  if strings_HasPrefix s prefix then string_drop (String.length prefix) s else s.

(** The first element of a variadic [fallback ...T], as selected by
    [for _, value := range fallback { return value }], else the zero value. *)
Definition first_or {A : Type} (zero : A) (fallback : list A) : A :=
  match fallback with
  | value :: _ => value
  | [] => zero
  end.

Definition digit_of (c : ascii) : option Z :=
  let n := Z.of_nat (nat_of_ascii c) in
  if (48 <=? n) && (n <=? 57) then Some (n - 48) else None.

Fixpoint parse_digits (s : string) (acc : Z) : option Z :=
  match s with
  | EmptyString => Some acc
  | String c s' =>
      match digit_of c with
      | Some d => parse_digits s' (acc * 10 + d)
      | None => None
      end
  end.

Definition is_minus (c : ascii) : bool := Ascii.eqb c "-"%char.
Definition is_plus (c : ascii) : bool := Ascii.eqb c "+"%char.

(** [strconv.Atoi] on a 64-bit platform: an optional sign followed by one or
    more decimal digits, the value within the range of [int]; [None] stands
    for a non-nil [err]. *)
Definition strconv_Atoi (s : string) : option Z :=
  match s with
  | EmptyString => None
  | String c rest =>
      let neg := is_minus c in
      let body := if is_minus c || is_plus c then rest else s in
      match body with
      | EmptyString => None
      | _ =>
          match parse_digits body 0 with
          | Some n =>
              let n := if neg then - n else n in
              if (- 2 ^ 63 <=? n) && (n <=? 2 ^ 63 - 1) then Some n else None
          | None => None
          end
      end
  end.

(** *** [time.ParseDuration]

    The function of package [time], with [uint64] and [int64] as [Z] with
    their wrap-around and [float64] as the IEEE 754 binary64 numbers of
    [SpecFloat]; [None] stands for a non-nil [err]. *)

Definition wrap_uint64 (z : Z) : Z := z mod 2 ^ 64.

Definition wrap_int64 (z : Z) : Z := (z + 2 ^ 63) mod 2 ^ 64 - 2 ^ 63.

Definition float64_mul : spec_float → spec_float → spec_float := SFmul 53 1024.
Definition float64_div : spec_float → spec_float → spec_float := SFdiv 53 1024.

(** [float64(n)] for an unsigned integer [n]: rounded to nearest, ties to even. *)
Definition float64_of_uint64 (n : Z) : spec_float := binary_normalize 53 1024 n 0 false.

(** [uint64(x)] for a finite non-negative [x]: truncation. *)
Definition uint64_of_float64 (x : spec_float) : Z :=
  match x with
  | S754_finite false m e =>
      wrap_uint64 (if 0 <=? e then Z.pos m * 2 ^ e else Z.pos m / 2 ^ (- e))
  | _ => 0
  end.

(** [leadingInt(s)]: the leading decimal digits of [s] as a number, and the
    rest of [s]; [None] for an overflow beyond [1<<63].  [x] accumulates. *)
Fixpoint leadingInt (s : string) (x : Z) : option (Z * string) :=
  match s with
  | EmptyString => Some (x, s)
  | String c s' =>
      match digit_of c with
      | None => Some (x, s)
      | Some d =>
          if x >? 2 ^ 63 / 10 then None
          else
            let x := wrap_uint64 (x * 10 + d) in
            if x >? 2 ^ 63 then None else leadingInt s' x
      end
  end.

(** [leadingFraction(s)]: the leading digits of [s] as [x / scale]; digits
    past an overflow are consumed and dropped. *)
Fixpoint leadingFraction (s : string) (x : Z) (scale : spec_float) (overflow : bool)
  : Z * spec_float * string :=
  match s with
  | EmptyString => (x, scale, s)
  | String c s' =>
      match digit_of c with
      | None => (x, scale, s)
      | Some d =>
          if overflow then leadingFraction s' x scale true
          else if x >? (2 ^ 63 - 1) / 10 then leadingFraction s' x scale true
          else
            let y := wrap_uint64 (x * 10 + d) in
            if y >? 2 ^ 63 then leadingFraction s' x scale true
            else leadingFraction s' y (float64_mul scale (float64_of_uint64 10)) false
      end
  end.

Definition is_digit_or_dot (c : ascii) : bool :=
  Ascii.eqb c "."%char || match digit_of c with Some _ => true | None => false end.

(** The unit of a duration term: the bytes of [s] up to the next digit or
    dot, and the rest. *)
Fixpoint split_unit (s : string) : string * string :=
  match s with
  | EmptyString => (EmptyString, EmptyString)
  | String c s' =>
      if is_digit_or_dot c then (EmptyString, s)
      else let '(u, rest) := split_unit s' in (String c u, rest)
  end.

Definition Nanosecond : Z := 1.
Definition Microsecond : Z := 1000 * Nanosecond.
Definition Millisecond : Z := 1000 * Microsecond.
Definition Second : Z := 1000 * Millisecond.
Definition Minute : Z := 60 * Second.
Definition Hour : Z := 60 * Minute.

(** [unitMap]; the two spellings of the micro sign are U+00B5 and U+03BC in
    UTF-8. *)
Definition unitMap (u : string) : option Z :=
  if String.eqb u "ns" then Some Nanosecond
  else if String.eqb u "us" then Some Microsecond
  else if String.eqb u (String "194"%char (String "181"%char "s")) then Some Microsecond
  else if String.eqb u (String "206"%char (String "188"%char "s")) then Some Microsecond
  else if String.eqb u "ms" then Some Millisecond
  else if String.eqb u "s" then Some Second
  else if String.eqb u "m" then Some Minute
  else if String.eqb u "h" then Some Hour
  else None.

(** One turn of the loop of [ParseDuration] over the non-empty [s]: one
    term (digits, an optional dot and digits, a unit) is taken off [s] and
    added to [d]. *)
Definition parse_term (s : string) (d : Z) : option (Z * string) :=
  match s with
  | EmptyString => None
  | String c _ =>
      if negb (is_digit_or_dot c) then None
      else
        match leadingInt s 0 with
        | None => None
        | Some (v, s1) =>
            let pre := negb (String.length s =? String.length s1)%nat in
            let '(f, scale, s2, post) :=
              match s1 with
              | String "."%char s1' =>
                  let '(f, scale, s2) :=
                    leadingFraction s1' 0 (float64_of_uint64 1) false in
                  (f, scale, s2, negb (String.length s1' =? String.length s2)%nat)
              | _ => (0, float64_of_uint64 1, s1, false)
              end in
            if negb pre && negb post then None
            else
              let '(u, s3) := split_unit s2 in
              if String.eqb u EmptyString then None
              else
                match unitMap u with
                | None => None
                | Some unit =>
                    if v >? 2 ^ 63 / unit then None
                    else
                      let v := wrap_uint64 (v * unit) in
                      let v_overflow :=
                        if f >? 0 then
                          let v' := wrap_uint64 (v + uint64_of_float64
                            (float64_mul (float64_of_uint64 f)
                               (float64_div (float64_of_uint64 unit) scale))) in
                          (v', v' >? 2 ^ 63)
                        else (v, false) in
                      if v_overflow.2 then None
                      else
                        let d := wrap_uint64 (d + v_overflow.1) in
                        if d >? 2 ^ 63 then None else Some (d, s3)
                end
      end
  end.

(** The loop over the terms; every turn takes at least one byte off [s], so
    the length of [s] is enough fuel ([parse_terms_fuel]). *)
Fixpoint parse_terms (fuel : nat) (s : string) (d : Z) : run (option Z) :=
  match s with
  | EmptyString => Returns (Some d)
  | _ =>
      match fuel with
      | O => OutOfFuel
      | S fuel' =>
          match parse_term s d with
          | None => Returns None
          | Some (d', s') => parse_terms fuel' s' d'
          end
      end
  end.

Definition time_ParseDuration (s : string) : option Z :=
  let neg := match s with String c _ => is_minus c | _ => false end in
  let s := match s with
           | String c s' => if is_minus c || is_plus c then s' else s
           | _ => s
           end in
  if String.eqb s "0" then Some 0
  else if String.eqb s EmptyString then None
  else
    match parse_terms (String.length s) s 0 with
    | Returns (Some d) =>
        if neg then Some (wrap_int64 (- wrap_int64 d))
        else if d >? 2 ^ 63 - 1 then None
        else Some d
    | _ => None
    end.

(** [l[i]] for a Go [int] index: [None] is the out-of-range panic. *)
Definition slice_at {A : Type} (l : list A) (i : Z) : option A :=
  if i <? 0 then None else l !! Z.to_nat i.

(** [int32] arithmetic wraps around. *)
Definition wrap32 (z : Z) : Z := (z + 2 ^ 31) mod 2 ^ 32 - 2 ^ 31.

(** What one call of an iteration cursor returns: [(key, value, ok)]. *)
Definition item : Type := string * string * bool.

Definition no_item : item := (EmptyString, EmptyString, false).

(** [strconv.ParseBool]: the twelve accepted spellings; [None] stands for a
    non-nil [err]. *)
Definition strconv_ParseBool (str : string) : option bool :=
  if String.eqb str "1" || String.eqb str "t" || String.eqb str "T" ||
     String.eqb str "TRUE" || String.eqb str "true" || String.eqb str "True"
  then Some true
  else if String.eqb str "0" || String.eqb str "f" || String.eqb str "F" ||
          String.eqb str "FALSE" || String.eqb str "false" ||
          String.eqb str "False"
  then Some false
  else None.

(** [strings.Split(s, ",")]: the pieces of [s] between its commas; a string
    without a comma, the empty one included, is its own single piece. *)
Fixpoint strings_Split_comma (s : string) : list string :=
  match s with
  | EmptyString => [EmptyString]
  | String c s' =>
      if Ascii.eqb c ","%char then EmptyString :: strings_Split_comma s'
      else
        match strings_Split_comma s' with
        | piece :: pieces => String c piece :: pieces
        | [] => [String c EmptyString]
        end
  end.

(** ** inner.go: the typed accessors over a lookup capability *)

Module Inner.

(** [type inner struct { lookup; exists; iter }]: the capabilities a store
    or a scoped view plugs into the typed accessors.  The [iter] capability
    is a closure with hidden state; it is modelled where it is defined
    ([Env.iter], [Signer.iter]) as a step function on that state. *)
Record inner := {
  lookup : string → string * bool;
  exists_ : string → bool;
}.

Definition Lookup (i : inner) (key : string) : string * bool := lookup i key.

Definition Exists (i : inner) (key : string) : bool := exists_ i key.

Definition String (i : inner) (key : string) (fallback : list string) : string :=
  let '(value, found) := Lookup i key in
  if found then value else first_or EmptyString fallback.

Definition Int (i : inner) (key : string) (fallback : list Z) : Z :=
  let '(val, found) := Lookup i key in
  match (if found then strconv_Atoi val else None) with
  | Some n => n
  | None => first_or 0 fallback
  end.

(** [time.Duration(n)] of an [int] is the same 64-bit number. *)
Definition Duration (i : inner) (key : string) (fallback : list Z) : Z :=
  let '(val, ok) := Lookup i key in
  let parsed :=
    if ok then
      match strconv_Atoi val with
      | Some n => Some n
      | None => time_ParseDuration val
      end
    else None in
  match parsed with
  | Some d => d
  | None => first_or 0 fallback
  end.

Definition Bool (i : inner) (key : string) (fallback : list bool) : bool :=
  let '(val, ok) := Lookup i key in
  match (if ok then strconv_ParseBool val else None) with
  | Some bl => bl
  | None => first_or false fallback
  end.

(** [List]: the value cut at its commas, each part trimmed by
    [strings.TrimSpace], which is taken from outside as in [Global.World]. *)
Definition List (strings_TrimSpace : string → string)
    (i : inner) (key : string) (fallback : list (list string)) : list string :=
  let '(value, ok) := Lookup i key in
  if ok then strings_TrimSpace <$> strings_Split_comma value
  else first_or [] fallback.

(** *** [Map] and [Where]: the loops over a cursor

    The closure that [i.iter()] returns is a state [c : C] with the step
    function [next] that one call of the closure performs on it. *)
Section iteration.
Context {C : Type}.
Variable next : C → C * run item.

(** The loop of [Where], with the map [result] built so far. *)
Fixpoint Where_loop (fuel : nat) (filter : string → string → bool)
    (c : C) (result : gmap string string) : run (gmap string string) :=
  match fuel with
  | O => OutOfFuel
  | S fuel' =>
      match next c with
      | (c', Returns (key, value, ok)) =>
          if negb ok then Returns result
          else
            Where_loop fuel' filter c'
              (if filter key value then <[key := value]> result else result)
      | (_, Panics) => Panics
      | (_, OutOfFuel) => OutOfFuel
      end
  end.

(** The loop of [Map]. *)
Fixpoint Map_loop (strings_TrimSpace : string → string) (fuel : nat)
    (prefix : string) (c : C) (result : gmap string string)
  : run (gmap string string) :=
  match fuel with
  | O => OutOfFuel
  | S fuel' =>
      match next c with
      | (c', Returns (key, value, ok)) =>
          if negb ok then Returns result
          else
            Map_loop strings_TrimSpace fuel' prefix c'
              (if strings_HasPrefix key prefix then
                 <[strings_TrimPrefix key prefix := strings_TrimSpace value]> result
               else result)
      | (_, Panics) => Panics
      | (_, OutOfFuel) => OutOfFuel
      end
  end.

(** The cursor in state [c] yields the pairs [l], in this order, and then
    reports [ok = false]. *)
Fixpoint yields (c : C) (l : list (string * string)) : Prop :=
  match l with
  | [] => ∃ c' k v, next c = (c', Returns (k, v, false))
  | (k, v) :: l' => ∃ c', next c = (c', Returns (k, v, true)) ∧ yields c' l'
  end.

End iteration.

(** *** [Fill]: filling a struct through reflection

    The values [reflect] walks are modelled as trees: a struct is the list
    of its fields in declaration order, a pointer is nil or owns the value
    it points to (two pointers to one struct, or a struct reachable from
    itself, are outside this model).  The type descriptors [rtype] handed to
    [cast.FromType], the values [scalar] that are neither structs nor
    pointers, the errors of package [cast] and [cast.FromType] itself come
    from outside the package.  The value [cast.FromType] returns is taken
    to be assignable to the field, as [reflect.Value.Set] requires. *)
Section fill.
Context {rtype scalar cast_error : Type}.

#[local] Set Warnings "-register-all".
Inductive value : Type :=
| VStruct (fields : list field)
| VPtr (elem : option value)
| VOther (x : scalar)
with field : Type :=
| Field (name : string) (tag : option string) (ty : rtype) (val : value).

(** [fmt.Errorf("env: cannot set `%v` field; err: %v", name, err)] and
    [errors.New("env: invalid structure")]. *)
Inductive fill_error : Type :=
| CannotSet (name : string) (err : cast_error)
| InvalidStructure.

Variable cast_FromType : string → rtype → value + cast_error.
Variable i : inner.

(** One turn of the loop of [fillStruct], on one field: the field as it
    is afterwards, and the error with which the loop returns, if any.  The
    local [fillStruct] is the function of that name below, on the fields
    of a nested struct ([fillStruct_nested]). *)
Fixpoint fill_field (f : field) : field * option fill_error :=
  let fix fillStruct (s : list field) : list field * option fill_error :=
    match s with
    | [] => ([], None)
    | g :: s' =>
        let '(g', err) := fill_field g in
        match err with
        | Some e => (g' :: s', Some e)
        | None => let '(s'', err') := fillStruct s' in (g' :: s'', err')
        end
    end in
  match f with
  | Field name (Some t) ty val =>
      let osv := String i t [] in
      if negb (String.eqb osv EmptyString) then
        match cast_FromType osv ty with
        | inr err => (f, Some (CannotSet name err))
        | inl v => (Field name (Some t) ty v, None)
        end
      else (f, None)
  | Field name None ty (VStruct fields) =>
      let '(s', err) := fillStruct fields in
      (Field name None ty (VStruct s'), err)
  | Field name None ty (VPtr (Some (VStruct fields))) =>
      let '(s', err) := fillStruct fields in
      (Field name None ty (VPtr (Some (VStruct s'))), err)
  | Field name None ty _ => (f, None)
  end.

(** [fillStruct(s)]: the loop over the fields of the struct [s], in
    declaration order; it leaves at the first error. *)
Fixpoint fillStruct (s : list field) : list field * option fill_error :=
  match s with
  | [] => ([], None)
  | f :: s' =>
      let '(f', err) := fill_field f in
      match err with
      | Some e => (f' :: s', Some e)
      | None => let '(s'', err') := fillStruct s' in (f' :: s'', err')
      end
  end.

(** What [Fill] is given as [structure any]: a pointer to a struct (nil
    or not), or anything else (the nil interface included). *)
Inductive any : Type :=
| PtrToStruct (target : option (list field))
| NotPtrToStruct.

(** [Fill(structure)].  On a nil pointer of a pointer-to-struct type,
    [reflect.ValueOf(structure).Elem()] is the zero [Value] and
    [NumField] panics. *)
Definition Fill (structure : any) : run (any * option fill_error) :=
  match structure with
  | PtrToStruct (Some s) =>
      let '(s', err) := fillStruct s in Returns (PtrToStruct (Some s'), err)
  | PtrToStruct None => Panics
  | NotPtrToStruct => Returns (NotPtrToStruct, Some InvalidStructure)
  end.

(** **** The description of [Fill] that the properties are stated against

    The following definitions are not taken from the loop of
    [fillStruct]; they say what is expected of it, in terms of
    [cast.FromType] and of the store alone. *)

(** The tagged fields of a field in the order of their declaration: the
    field itself when it has a tag; for an untagged struct, and for an
    untagged non-nil pointer to a struct, the tagged fields of that struct
    where it stands; none otherwise. *)
Fixpoint tagged_in (f : field) : list field :=
  match f with
  | Field _ (Some _) _ _ => [f]
  | Field _ None _ (VStruct fields) => flat_map tagged_in fields
  | Field _ None _ (VPtr (Some (VStruct fields))) => flat_map tagged_in fields
  | Field _ None _ _ => []
  end.

Definition tagged_fields (s : list field) : list field := flat_map tagged_in s.

(** A struct with the value of each of these tagged fields blanked: what
    is left is everything an assignment to a tagged field cannot change. *)
Fixpoint frame_of (f : field) : field :=
  match f with
  | Field name (Some t) ty _ => Field name (Some t) ty (VPtr None)
  | Field name None ty (VStruct fields) =>
      Field name None ty (VStruct (map frame_of fields))
  | Field name None ty (VPtr (Some (VStruct fields))) =>
      Field name None ty (VPtr (Some (VStruct (map frame_of fields))))
  | Field _ None _ _ => f
  end.

Definition frame (s : list field) : list field := map frame_of s.

(** A tagged field before and after it is processed without error: it is
    kept when the value of its key is empty, and holds the value converted
    by [cast.FromType] otherwise. *)
Inductive assigned : field → field → Prop :=
| assigned_kept (name t : string) (ty : rtype) (val : value) :
    String i t [] = EmptyString →
    assigned (Field name (Some t) ty val) (Field name (Some t) ty val)
| assigned_set (name t : string) (ty : rtype) (val v : value) :
    String i t [] ≠ EmptyString →
    cast_FromType (String i t []) ty = inl v →
    assigned (Field name (Some t) ty val) (Field name (Some t) ty v).

(** What is expected of one turn of the loop, on a field [g]: processed
    without error when none of its tagged fields fails, and left at the
    first of its tagged fields that fails. *)
Definition fills_as_expected (g : field) : Prop :=
  (∀ l', Forall2 assigned (tagged_in g) l' →
     ∃ g', fill_field g = (g', None) ∧ tagged_in g' = l' ∧
           frame_of g' = frame_of g) ∧
  (∀ before before' after name t ty val e,
     tagged_in g = before ++ Field name (Some t) ty val :: after →
     Forall2 assigned before before' →
     String i t [] ≠ EmptyString →
     cast_FromType (String i t []) ty = inr e →
     ∃ g', fill_field g = (g', Some (CannotSet name e)) ∧
           tagged_in g' = before' ++ Field name (Some t) ty val :: after ∧
           frame_of g' = frame_of g).

End fill.

End Inner.

(** ** environ.go: the key/value store *)

Module Env.

(** [type environ struct { inner; keys []string; values []string; mu }]. *)
Record environ := {
  keys : list string;
  values : list string;
}.

(** [New()]: both slices nil. *)
Definition New : environ := {| keys := []; values := [] |}.

Fixpoint index_from (ks : list string) (key : string) (i : Z) : Z :=
  match ks with
  | [] => -1
  | s :: ks' => if String.eqb s key then i else index_from ks' key (i + 1)
  end.

(** [index]: position of the first key equal to [key], [-1] when absent. *)
Definition index (e : environ) (key : string) : Z := index_from (keys e) key 0.

(** The body of the loop of [Save] for one [(key, value)] of the map.
    [e.values[i] = value] would panic for [i] out of range of [values];
    [index_in_range] shows that [i] is in range whenever both slices have
    the same length, which [Save] and [Clean] maintain. *)
Definition Save_entry (e : environ) (kv : string * string) : environ :=
  let i := index e kv.1 in
  if i >? -1 then
    {| keys := keys e; values := <[Z.to_nat i := kv.2]> (values e) |}
  else
    {| keys := keys e ++ [kv.1]; values := values e ++ [kv.2] |}.

(** The loop of [Save] run over the pairs in the order [range] visits them. *)
Definition Save_range (e : environ) (l : list (string * string)) : environ :=
  foldl Save_entry e l.

(** [Save(data)]: the store [e'] is a possible result of saving the map
    [data] into [e], for some order of iteration over [data]. *)
Definition Save (e : environ) (data : gmap string string) (e' : environ) : Prop :=
  ∃ l, l ≡ₚ map_to_list data ∧ e' = Save_range e l.

(** [lookup]: the value, and whether the key is present with a non-empty
    value.  ([e.values[i]] is read as the empty string out of range; see
    [Save_entry].) *)
Definition lookup (e : environ) (key : string) : string * bool :=
  let i := index e key in
  if i >? -1 then
    let v := default EmptyString (values e !! Z.to_nat i) in
    (v, (0 <? Z.of_nat (String.length v)))
  else (EmptyString, false).

Definition exists_ (e : environ) (key : string) : bool := index e key >? -1.

(** [Clean()]: both slices nil again. *)
Definition Clean (e : environ) : environ := {| keys := []; values := [] |}.

(** [iter()]: a fresh cursor; its state is the captured [pos int32 = -1]. *)
Definition iter : Z := -1.

(** One call of the closure returned by [iter], on the store as it is at
    the time of the call: the new [pos], and what the call returns.  The
    bound is checked against [len(e.keys)] only, and only from above. *)
Definition iter_next (e : environ) (pos : Z) : Z * run item :=
  let pos := wrap32 (pos + 1) in
  let index := pos in
  if index >=? Z.of_nat (length (keys e)) then (pos, Returns no_item)
  else
    match slice_at (keys e) index, slice_at (values e) index with
    | Some k, Some v => (pos, Returns (k, v, true))
    | _, _ => (pos, Panics)
    end.

(** Successive calls of one cursor, each on the store as it is at the time
    of that call: the final [pos] and what the calls returned. *)
Fixpoint iter_calls (es : list environ) (pos : Z) : Z * list (run item) :=
  match es with
  | [] => (pos, [])
  | e :: es' =>
      let '(pos', r) := iter_next e pos in
      let '(pos'', rs) := iter_calls es' pos' in
      (pos'', r :: rs)
  end.

(** The embedded [inner] of a store, as wired by [New]. *)
Definition inner_of (e : environ) : Inner.inner :=
  {| Inner.lookup := lookup e; Inner.exists_ := exists_ e |}.

(** Well-formed stores: the two slices run in parallel. *)
Definition wf (e : environ) : Prop := length (keys e) = length (values e).

(** The store seen as a map (first occurrence of a key wins, as in [index]). *)
Definition to_map (e : environ) : gmap string string :=
  list_to_map (zip (keys e) (values e)).

(** The stores that the exported operations can build. *)
Inductive reachable : environ → Prop :=
| reachable_New : reachable New
| reachable_Save e data e' : reachable e → Save e data e' → reachable e'
| reachable_Clean e : reachable e → reachable (Clean e).

(** [Where(filter)], [Map(prefix)] and [All()] of a store: the loops of
    [inner] over a fresh cursor of the store.  The cursor reports the end
    after at most one call per entry and one more, which is the fuel given. *)
Definition Where (e : environ) (filter : string → string → bool)
  : run (gmap string string) :=
  Inner.Where_loop (iter_next e) (S (length (keys e))) filter iter ∅.

Definition Map (strings_TrimSpace : string → string) (e : environ)
    (prefix : string) : run (gmap string string) :=
  Inner.Map_loop (iter_next e) strings_TrimSpace (S (length (keys e)))
    prefix iter ∅.

Definition All (e : environ) : run (gmap string string) :=
  Where e (λ name value, true).

End Env.


(** ** signer.go: the scoped view *)

Module Signer.

(** [type signer struct { inner; prefix; category string; environ *environ }].
    The view only points to the store; the store it reads is passed to each
    operation as it is at the time of the call. *)
Record signer := {
  prefix : string;
  category : string;
}.

Definition nonempty (s : string) : bool := negb (String.eqb s EmptyString).

(** The key rewriting shared by [lookup2] and [exists2_]. *)
Definition scoped_key (s : signer) (category key : string) : string :=
  let key := if nonempty category then category +:+ "_" +:+ key else key in
  if nonempty (prefix s) then prefix s +:+ "_" +:+ key else key.

Definition lookup2 (s : signer) (e : Env.environ) (category key : string)
  : string * bool :=
  Inner.Lookup (Env.inner_of e) (scoped_key s category key).

Definition lookup (s : signer) (e : Env.environ) (key : string) : string * bool :=
  let '(value, found) := lookup2 s e (category s) key in
  if found || negb (nonempty (category s)) then (value, found)
  else lookup2 s e EmptyString key.

Definition exists2_ (s : signer) (e : Env.environ) (category key : string) : bool :=
  Inner.Exists (Env.inner_of e) (scoped_key s category key).

Definition exists_ (s : signer) (e : Env.environ) (key : string) : bool :=
  let found := exists2_ s e (category s) key in
  if found || negb (nonempty (category s)) then found
  else exists2_ s e EmptyString key.

(** The embedded [inner] of a view, as wired by [newSigner]. *)
Definition inner_of (s : signer) (e : Env.environ) : Inner.inner :=
  {| Inner.lookup := lookup s e; Inner.exists_ := exists_ s e |}.

(** The variables captured by the closure that [iter] returns: the cursor
    [next] of the store ([None] for a nil [next]), the scoped [prefix], and
    the side lists [keys], [values] with their [index]. *)
Record cursor := {
  next : option Z;
  full_prefix : string;
  ckeys : list string;
  cvalues : list string;
  cindex : Z;
}.

Definition iter (s : signer) : cursor :=
  let p := prefix s in
  let p := if nonempty p then p +:+ "_" else p in
  let p := if nonempty (category s) then p +:+ (category s +:+ "_") else p in
  {| next := Some Env.iter; full_prefix := p;
     ckeys := []; cvalues := []; cindex := 0 |}.

(** The [for] loop of the closure; [pos] is the state of the store's cursor.
    In the bare-prefix branch the appended value is the named result
    [value], still the empty string there. *)
Fixpoint next_loop (fuel : nat) (s : signer) (e : Env.environ)
    (pos : Z) (c : cursor) : cursor * run item :=
  match fuel with
  | O => (c, OutOfFuel)
  | S fuel' =>
      let '(pos', r) := Env.iter_next e pos in
      let c := {| next := Some pos'; full_prefix := full_prefix c;
                  ckeys := ckeys c; cvalues := cvalues c; cindex := cindex c |} in
      match r with
      | Returns (k, v, b) =>
          if negb b then (c, Returns no_item)
          else if strings_HasPrefix k (full_prefix c) then
            (c, Returns (strings_TrimPrefix k (full_prefix c), v, true))
          else if nonempty (prefix s) && strings_HasPrefix k (prefix s) then
            next_loop fuel' s e pos'
              {| next := Some pos'; full_prefix := full_prefix c;
                 ckeys := ckeys c ++ [strings_TrimPrefix k (prefix s)];
                 cvalues := cvalues c ++ [EmptyString];
                 cindex := cindex c |}
          else next_loop fuel' s e pos' c
      | Panics => (c, Panics)
      | OutOfFuel => (c, OutOfFuel)
      end
  end.

(** One call of the closure returned by [iter].  Each turn of the loop
    advances the store's cursor, so one turn more than the store has
    entries is enough fuel ([cursor_next_fuel]). *)
Definition cursor_next (s : signer) (e : Env.environ) (c : cursor)
  : cursor * run item :=
  match next c with
  | None =>
      if cindex c >=? Z.of_nat (length (ckeys c)) then (c, Returns no_item)
      else
        let c' := {| next := next c; full_prefix := full_prefix c;
                     ckeys := ckeys c; cvalues := cvalues c;
                     cindex := cindex c + 1 |} in
        match slice_at (ckeys c) (cindex c), slice_at (cvalues c) (cindex c) with
        | Some k, Some v => (c', Returns (k, v, true))
        | _, _ => (c', Panics)
        end
  | Some pos => next_loop (S (length (Env.keys e))) s e pos c
  end.

(** Calling the cursor until it reports [ok = false], as the loops of
    [Map] and [Where] do, collecting what it yields. *)
Fixpoint drain (fuel : nat) (s : signer) (e : Env.environ) (c : cursor)
  : run (list (string * string)) :=
  match fuel with
  | O => OutOfFuel
  | S fuel' =>
      let '(c', r) := cursor_next s e c in
      match r with
      | Returns (k, v, true) =>
          match drain fuel' s e c' with
          | Returns l => Returns ((k, v) :: l)
          | Panics => Panics
          | OutOfFuel => OutOfFuel
          end
      | Returns (_, _, false) => Returns []
      | Panics => Panics
      | OutOfFuel => OutOfFuel
      end
  end.

(** [Where(filter)] and [Map(prefix)] of a view: the loops of [inner] over
    a fresh cursor of the view. *)
Definition Where (s : signer) (e : Env.environ) (filter : string → string → bool)
  : run (gmap string string) :=
  Inner.Where_loop (cursor_next s e) (S (length (Env.keys e))) filter (iter s) ∅.

Definition Map (strings_TrimSpace : string → string) (s : signer)
    (e : Env.environ) (prefix : string) : run (gmap string string) :=
  Inner.Map_loop (cursor_next s e) strings_TrimSpace (S (length (Env.keys e)))
    prefix (iter s) ∅.

End Signer.

(** ** env.go: the process-wide singleton and its initialisation *)

Module Global.

(** An [error] value; [NotExist] are the errors for which
    [errors.Is(err, os.ErrNotExist)] holds. *)
Inductive error : Type :=
| NotExist (path : string)
| OtherError (msg : string).

Definition is_not_exist (err : error) : bool :=
  match err with
  | NotExist _ => true
  | OtherError _ => false
  end.

(** What the package takes from outside: the process environment, the file
    system as seen through [godotenv.Read], and the path and string
    functions of the standard library whose result depends on the platform
    or on Unicode tables.  A call returning [(x, error)] is a pair whose
    second component is [None] for a nil error. *)
Record World := {
  os_Environ : list string;
  godotenv_Read : list string → gmap string string * option error;
  filepath_Abs : string → string * option error;
  filepath_Join : list string → string;
  strings_TrimSpace : string → string;
  strings_ToLower : string → string;
}.

(** [var ( env = New().( *environ ); root string )]. *)
Record globals := {
  env : Env.environ;
  root : string;
}.

(** [strings.SplitN(s, "=", 2)]: [s] cut at its first ["="], or [s] alone. *)
Fixpoint cut_eq (s : string) : option (string * string) :=
  match s with
  | EmptyString => None
  | String c s' =>
      if Ascii.eqb c "="%char then Some (EmptyString, s')
      else match cut_eq s' with
           | Some (before, after) => Some (String c before, after)
           | None => None
           end
  end.

Definition strings_SplitN_eq_2 (s : string) : list string :=
  match cut_eq s with
  | Some (before, after) => [before; after]
  | None => [s]
  end.

(** The loop of [InitWithDir] over [os.Environ()], filling [result];
    [None] is the panic of [parts[1]] on a string without ["="]. *)
Fixpoint environ_map (w : World) (l : list string) (result : gmap string string)
  : option (gmap string string) :=
  match l with
  | [] => Some result
  | value :: l' =>
      let parts := strings_SplitN_eq_2 value in
      match parts !! 0%nat, parts !! 1%nat with
      | Some p0, Some p1 =>
          let key := strings_TrimSpace w p0 in
          let val := strings_TrimSpace w p1 in
          environ_map w l' (<[key := val]> result)
      | _, _ => None
      end
  end.

(** [(e *environ) Load(filenames...)]: from the store [e], a possible store
    afterwards and the error returned. *)
Definition Load (w : World) (filenames : list string)
    (e e' : Env.environ) (err : option error) : Prop :=
  match godotenv_Read w filenames with
  | (data, None) => Env.Save e data e' ∧ err = None
  | (_, Some er) => e' = e ∧ err = Some er
  end.

(** The test after each [Load] of [loadEnv]: a nil error and a "does not
    exist" error let the loading go on. *)
Definition goes_on (err : option error) : bool :=
  match err with
  | None => true
  | Some er => is_not_exist er
  end.

Definition loadEnv (w : World) (dir env : string)
    (e e' : Env.environ) (err : option error) : Prop :=
  let filename := filepath_Join w [dir; ".env" +:+ env] in
  ∃ e1 err1, Load w [filename] e e1 err1 ∧
    if goes_on err1 then
      ∃ err2, Load w [filename +:+ ".local"] e1 e' err2 ∧
        err = (if goes_on err2 then None else err2)
    else e' = e1 ∧ err = err1.

(** The deferred function of [InitWithDir], run with the value [err] has
    when the function leaves. *)
Definition deferred (dir : string) (err : option error) (g : globals) : globals :=
  match err with
  | Some _ => {| env := Env.Clean (env g); root := EmptyString |}
  | None => {| env := env g; root := dir |}
  end.

(** [InitWithDir(dir)]: from the globals [g], possible globals afterwards
    and how the call ends.  When [filepath.Abs] fails the function returns
    before the deferred function is registered and before anything is
    reset.  A panic in the loop over the process environment leaves with
    [err] still nil. *)
Definition InitWithDir (w : World) (dir : string)
    (g g' : globals) (r : run (option error)) : Prop :=
  match filepath_Abs w dir with
  | (_, Some err) => g' = g ∧ r = Returns (Some err)
  | (dir, None) =>
      let g0 := {| env := Env.Clean (env g); root := EmptyString |} in
      match environ_map w (os_Environ w) ∅ with
      | None => g' = deferred dir None g0 ∧ r = Panics
      | Some result =>
          ∃ e1, Env.Save (env g0) result e1 ∧
          ∃ e2 err, loadEnv w dir EmptyString e1 e2 err ∧
            match err with
            | Some _ =>
                g' = deferred dir err {| env := e2; root := EmptyString |} ∧
                r = Returns err
            | None =>
                let appEnv := Inner.String (Env.inner_of e2) "APP_ENV" ["prod"] in
                if 0 <? Z.of_nat (String.length appEnv) then
                  ∃ e3 err', loadEnv w dir ("." +:+ strings_ToLower w appEnv) e2 e3 err' ∧
                    g' = deferred dir err' {| env := e3; root := EmptyString |} ∧
                    r = Returns err'
                else
                  g' = deferred dir None {| env := e2; root := EmptyString |} ∧
                  r = Returns None
            end
      end
  end.

(** [Path(path...)]. *)
Definition Path (w : World) (g : globals) (path : list string) : string :=
  match path with
  | [] => root g
  | [p0] => filepath_Join w [root g; p0]
  | _ => filepath_Join w [root g; filepath_Join w path]
  end.

(** [Lookup(name)] on the singleton. *)
Definition Lookup (g : globals) (name : string) : string * bool :=
  Inner.Lookup (Env.inner_of (env g)) name.

(** [Exists(name)] on the singleton. *)
Definition Exists (g : globals) (name : string) : bool :=
  Inner.Exists (Env.inner_of (env g)) name.

(** [IsEnv(env)]: [String("APP_ENV") == env]. *)
Definition IsEnv (g : globals) (name : string) : bool :=
  String.eqb (Inner.String (Env.inner_of (env g)) "APP_ENV" []) name.

(** [All()] on the singleton. *)
Definition All (g : globals) : run (gmap string string) := Env.All (env g).

(** The value that the sources, in loading order, give to [key]: the one of
    the last source that defines it. *)
Definition later_wins (sources : list (gmap string string)) (key : string)
  : option string :=
  foldl (λ acc m, match m !! key with Some v => Some v | None => acc end)
        None sources.

(** The content of a dotenv file as [Load] takes it: nothing when the read
    fails. *)
Definition file_map (w : World) (filename : string) : gmap string string :=
  match godotenv_Read w [filename] with
  | (data, None) => data
  | (_, Some _) => ∅
  end.

End Global.

(** ** One call of a cursor running against one call of [Clean]

    The two calls are cut at their accesses to shared state (the counter
    [pos], the slices, the mutex) and interleaved by a schedule. *)

Module Race.

(** [sync.RWMutex]: held by a writer, or by some readers. *)
Record rwmutex := {
  writer : bool;
  readers : nat;
}.

(** Where the call of the cursor stands. *)
Inductive iter_pc : Type :=
| IterStart                   (* before [atomic.AddInt32(&pos, 1)] *)
| IterCheck (index : Z)       (* before [index >= len(e.keys)] *)
| IterRLock (index : Z)       (* before [e.mu.RLock()] *)
| IterRead (index : Z)        (* before [e.keys[index], e.values[index]] *)
| IterRUnlock (r : run item)  (* before the deferred [e.mu.RUnlock()] *)
| IterDone (r : run item).

(** Where the call of [Clean] stands. *)
Inductive clean_pc : Type :=
| CleanLock      (* before [e.mu.Lock()] *)
| CleanKeys      (* before [e.keys = nil] *)
| CleanValues    (* before [e.values = nil] *)
| CleanUnlock    (* before the deferred [e.mu.Unlock()] *)
| CleanDone.

Record config := {
  store : Env.environ;
  mu : rwmutex;
  pos : Z;
  iter_at : iter_pc;
  clean_at : clean_pc;
}.

Definition start (e : Env.environ) (pos : Z) : config :=
  {| store := e; mu := {| writer := false; readers := 0 |}; pos := pos;
     iter_at := IterStart; clean_at := CleanLock |}.

(** One step of the cursor; [None] when it is blocked or has finished. *)
Definition step_iter (c : config) : option config :=
  match iter_at c with
  | IterStart =>
      let p := wrap32 (pos c + 1) in
      Some {| store := store c; mu := mu c; pos := p;
              iter_at := IterCheck p; clean_at := clean_at c |}
  | IterCheck index =>
      let at' := if index >=? Z.of_nat (length (Env.keys (store c)))
                 then IterDone (Returns no_item) else IterRLock index in
      Some {| store := store c; mu := mu c; pos := pos c;
              iter_at := at'; clean_at := clean_at c |}
  | IterRLock index =>
      if writer (mu c) then None
      else Some {| store := store c;
                   mu := {| writer := false; readers := S (readers (mu c)) |};
                   pos := pos c; iter_at := IterRead index;
                   clean_at := clean_at c |}
  | IterRead index =>
      let r := match slice_at (Env.keys (store c)) index,
                     slice_at (Env.values (store c)) index with
               | Some k, Some v => Returns (k, v, true)
               | _, _ => Panics
               end in
      Some {| store := store c; mu := mu c; pos := pos c;
              iter_at := IterRUnlock r; clean_at := clean_at c |}
  | IterRUnlock r =>
      Some {| store := store c;
              mu := {| writer := writer (mu c); readers := pred (readers (mu c)) |};
              pos := pos c; iter_at := IterDone r; clean_at := clean_at c |}
  | IterDone _ => None
  end.

(** One step of [Clean]; [None] when it is blocked or has finished. *)
Definition step_clean (c : config) : option config :=
  match clean_at c with
  | CleanLock =>
      if writer (mu c) || (0 <? readers (mu c))%nat then None
      else Some {| store := store c;
                   mu := {| writer := true; readers := readers (mu c) |};
                   pos := pos c; iter_at := iter_at c; clean_at := CleanKeys |}
  | CleanKeys =>
      Some {| store := {| Env.keys := []; Env.values := Env.values (store c) |};
              mu := mu c; pos := pos c; iter_at := iter_at c;
              clean_at := CleanValues |}
  | CleanValues =>
      Some {| store := {| Env.keys := Env.keys (store c); Env.values := [] |};
              mu := mu c; pos := pos c; iter_at := iter_at c;
              clean_at := CleanUnlock |}
  | CleanUnlock =>
      Some {| store := store c;
              mu := {| writer := false; readers := readers (mu c) |};
              pos := pos c; iter_at := iter_at c; clean_at := CleanDone |}
  | CleanDone => None
  end.

Inductive thread : Type := Cursor | Cleaner.

Definition step (t : thread) (c : config) : option config :=
  match t with
  | Cursor => step_iter c
  | Cleaner => step_clean c
  end.

(** The configuration after the steps of a schedule; [None] when the
    schedule asks a blocked or finished thread to move. *)
Fixpoint run_schedule (sched : list thread) (c : config) : option config :=
  match sched with
  | [] => Some c
  | t :: sched' =>
      match step t c with
      | Some c' => run_schedule sched' c'
      | None => None
      end
  end.

End Race.

(** ** Concrete inputs used in the examples *)

Module Examples.

(** A process with the environment [A=1] and no dotenv file at all, whose
    working directory cannot be determined: [filepath.Abs] succeeds on
    absolute paths only. *)
Definition world_without_cwd : Global.World := {|
  Global.os_Environ := ["A=1"];
  Global.godotenv_Read := λ filenames,
    (∅, Some (Global.NotExist (default EmptyString (head filenames))));
  Global.filepath_Abs := λ dir,
    if String.prefix "/" dir then (dir, None)
    else (EmptyString, Some (Global.OtherError "getwd: no such file or directory"));
  Global.filepath_Join := String.concat "/";
  Global.strings_TrimSpace := λ s, s;
  Global.strings_ToLower := λ s, s;
|}.

Definition fresh_globals : Global.globals :=
  {| Global.env := Env.New; Global.root := EmptyString |}.

(** A process started with [FOO=os] and [APP_ENV=Dev] in a directory that
    holds [.env], [.env.local] and [.env.dev], and no [.env.dev.local]. *)
Definition layered_files (filename : string) : option (gmap string string) :=
  if String.eqb filename "/app/.env" then
    Some {[ "FOO" := "base"; "BAR" := "base" ]}
  else if String.eqb filename "/app/.env.local" then
    Some {[ "FOO" := "local" ]}
  else if String.eqb filename "/app/.env.dev" then
    Some {[ "BAR" := "dev"; "BAZ" := "dev" ]}
  else None.

Definition ascii_lower (c : ascii) : ascii :=
  let n := nat_of_ascii c in
  if (65 <=? n)%nat && (n <=? 90)%nat then ascii_of_nat (n + 32) else c.

Fixpoint string_lower (s : string) : string :=
  match s with
  | EmptyString => EmptyString
  | String c s' => String (ascii_lower c) (string_lower s')
  end.

Definition read_one (files : string → option (gmap string string))
    (filenames : list string) : gmap string string * option Global.error :=
  match filenames with
  | [filename] =>
      match files filename with
      | Some data => (data, None)
      | None => (∅, Some (Global.NotExist filename))
      end
  | _ => (∅, Some (Global.OtherError "not modelled"))
  end.

Definition world_layered : Global.World := {|
  Global.os_Environ := ["FOO=os"; "APP_ENV=Dev"];
  Global.godotenv_Read := read_one layered_files;
  Global.filepath_Abs := λ dir, (dir, None);
  Global.filepath_Join := String.concat "/";
  Global.strings_TrimSpace := λ s, s;
  Global.strings_ToLower := string_lower;
|}.

(** The globals after one run of [InitWithDir] on that directory. *)
Definition globals_layered : Global.globals :=
  {| Global.env :=
       {| Env.keys := ["APP_ENV"; "FOO"; "BAR"; "BAZ"];
          Env.values := ["Dev"; "local"; "dev"; "dev"] |};
     Global.root := "/app" |}.

(** The same process in a directory whose [.env] cannot be parsed. *)
Definition world_malformed : Global.World := {|
  Global.os_Environ := ["FOO=os"; "APP_ENV=Dev"];
  Global.godotenv_Read := λ filenames,
    (∅, Some (Global.OtherError "unexpected character in variable name"));
  Global.filepath_Abs := λ dir, (dir, None);
  Global.filepath_Join := String.concat "/";
  Global.strings_TrimSpace := λ s, s;
  Global.strings_ToLower := string_lower;
|}.

(** The stores of the examples. *)
Definition store_A_empty : Env.environ := Env.Save_range Env.New [("A", "")].

Definition store_cache : Env.environ :=
  {| Env.keys := ["CACHE_DRIVER"; "CACHE_BOOK_DATABASE"; "CACHE_SCOPE";
                  "CACHE_BOOK_SCOPE"; "CACHED"; "PATH"];
     Env.values := ["redis"; "10"; "app:"; "app:books:"; "yes"; "/bin"] |}.

Definition cache_book : Signer.signer :=
  {| Signer.prefix := "CACHE"; Signer.category := "BOOK" |}.

Definition store_timeouts : Env.environ :=
  {| Env.keys := ["T"; "U"; "HOST"; "PORT"];
     Env.values := ["5s"; "5"; "localhost"; "eighty"] |}.

(** A configuration struct
    [struct { Host string `env:"HOST"`; Port int `env:"PORT"`;
              Name string `env:"NAME"` }]
    and a conversion for its two field types. *)
Inductive field_type : Type := TString | TInt.

Inductive scalar : Type := SString (s : string) | SInt (n : Z).

Definition cast_FromType (osv : string) (ty : field_type)
  : @Inner.value field_type scalar + string :=
  match ty with
  | TString => inl (Inner.VOther (SString osv))
  | TInt =>
      match strconv_Atoi osv with
      | Some n => inl (Inner.VOther (SInt n))
      | None => inr "invalid syntax"
      end
  end.

Definition Host : @Inner.field field_type scalar :=
  Inner.Field "Host" (Some "HOST") TString (Inner.VOther (SString EmptyString)).
Definition Port : @Inner.field field_type scalar :=
  Inner.Field "Port" (Some "PORT") TInt (Inner.VOther (SInt 0)).
Definition Name : @Inner.field field_type scalar :=
  Inner.Field "Name" (Some "NAME") TString (Inner.VOther (SString "old")).

(** A configuration with a nested struct and a pointer to a struct
    [struct { Host string `env:"HOST"`
              Limits struct { U int `env:"U"` }
              Server *struct { T string `env:"T"`; Port int `env:"PORT"`
                               Name string `env:"NAME"` }
              Alias string `env:"HOST"` }],
    its type descriptors and their conversion. *)
Inductive config_type : Type := CString | CInt | CStruct | CPtr.

Definition cast_config (osv : string) (ty : config_type)
  : @Inner.value config_type scalar + string :=
  match ty with
  | CString => inl (Inner.VOther (SString osv))
  | CInt =>
      match strconv_Atoi osv with
      | Some n => inl (Inner.VOther (SInt n))
      | None => inr "invalid syntax"
      end
  | CStruct | CPtr => inr "unsupported type"
  end.

Definition config_field (name t : string) (ty : config_type) (x : scalar)
  : @Inner.field config_type scalar :=
  Inner.Field name (Some t) ty (Inner.VOther x).

Definition config : list (@Inner.field config_type scalar) :=
  [config_field "Host" "HOST" CString (SString EmptyString);
   Inner.Field "Limits" None CStruct
     (Inner.VStruct [config_field "U" "U" CInt (SInt 0)]);
   Inner.Field "Server" None CPtr
     (Inner.VPtr (Some (Inner.VStruct
        [config_field "T" "T" CString (SString EmptyString);
         config_field "Port" "PORT" CInt (SInt 0);
         config_field "Name" "NAME" CString (SString "old")])));
   config_field "Alias" "HOST" CString (SString EmptyString)].

(** A process whose environment holds a string without ["="]. *)
Definition world_broken_environ : Global.World := {|
  Global.os_Environ := ["FOO=os"; "BROKEN"];
  Global.godotenv_Read := read_one (λ _, None);
  Global.filepath_Abs := λ dir, (dir, None);
  Global.filepath_Join := String.concat "/";
  Global.strings_TrimSpace := λ s, s;
  Global.strings_ToLower := string_lower;
|}.

(** The globals after [InitWithDir("/app")] in [world_without_cwd]. *)
Definition globals_A : Global.globals :=
  {| Global.env := {| Env.keys := ["A"]; Env.values := ["1"] |};
     Global.root := "/app" |}.

(** The view with neither prefix nor category. *)
Definition plain_view : Signer.signer :=
  {| Signer.prefix := EmptyString; Signer.category := EmptyString |}.

(** Trimming of blanks only, for the examples of [List] and [Map]. *)
Fixpoint trim_left (s : string) : string :=
  match s with
  | String " " s' => trim_left s'
  | _ => s
  end.

Definition trim_blanks (s : string) : string :=
  String.rev (trim_left (String.rev (trim_left s))).

(** A process whose environment has blanks around names and values, a name
    twice, a value holding ["="] and a blank value; no dotenv file. *)
Definition world_blanks : Global.World := {|
  Global.os_Environ := [" FOO = a "; "BAR=x=y"; "FOO=b "; "EMPTY= "];
  Global.godotenv_Read := λ filenames,
    (∅, Some (Global.NotExist (default EmptyString (head filenames))));
  Global.filepath_Abs := λ dir, (dir, None);
  Global.filepath_Join := String.concat "/";
  Global.strings_TrimSpace := trim_blanks;
  Global.strings_ToLower := string_lower;
|}.

(** The globals after [InitWithDir("/app")] in [world_blanks]. *)
Definition globals_blanks : Global.globals :=
  {| Global.env := {| Env.keys := ["FOO"; "BAR"; "EMPTY"];
                      Env.values := ["b"; "x=y"; EmptyString] |};
     Global.root := "/app" |}.

Definition store_list : Env.environ :=
  {| Env.keys := ["X"; "CACHE_TTL"]; Env.values := ["a, b ,c,"; " 5s "] |}.

End Examples.
(** * Properties *)

(** ** The store: [index], [lookup], [exists], [Save], [Clean] *)

Section store_facts.
Import Env.

Lemma index_from_spec (ks vs : list string) (key : string) (i : Z) :
  length ks = length vs →
  (index_from ks key i = -1 ∧ (key ∉ ks) ∧
     (list_to_map (zip ks vs) : gmap string string) !! key = None) ∨
  (∃ n : nat, index_from ks key i = i + Z.of_nat n ∧ ks !! n = Some key ∧
     (key ∉ take n ks) ∧
     (list_to_map (zip ks vs) : gmap string string) !! key = vs !! n).
Proof.
  revert vs i. induction ks as [|s ks IH]; intros [|v vs] i Hlen; simplify_eq/=.
  - left. split_and!; [done|apply not_elem_of_nil|done].
  - destruct (String.eqb_spec s key) as [->|Hne].
    + right. exists 0%nat. split_and!; [lia|done|apply not_elem_of_nil|].
      by rewrite lookup_insert_eq.
    + destruct (IH vs (i + 1) Hlen) as [(Hi & Hnin & Hm)|(n & Hi & Hk & Hnin & Hm)].
      * left. split_and!; [done| |by rewrite lookup_insert_ne].
        rewrite not_elem_of_cons. split; [congruence|done].
      * right. exists (S n). split_and!; [lia|done| |by rewrite lookup_insert_ne].
        simpl. rewrite not_elem_of_cons. split; [congruence|done].
Qed.

(** The index found by [index] is within both slices of a well-formed store:
    the reads and writes at that index never go out of range. *)
Lemma index_in_range (e : environ) (key : string) :
  wf e → index e key > -1 →
  (Z.to_nat (index e key) < length (keys e))%nat ∧
  (Z.to_nat (index e key) < length (values e))%nat.
Proof.
  intros Hwf Hi. unfold index in *.
  destruct (index_from_spec (keys e) (values e) key 0 Hwf)
    as [(Hm & _)|(n & Hn & Hk & _)]; [lia|].
  apply lookup_lt_Some in Hk. rewrite Hn, <- Hwf. lia.
Qed.

Lemma lookup_to_map (e : environ) (key : string) :
  wf e →
  lookup e key =
    match to_map e !! key with
    | Some v => (v, 0 <? Z.of_nat (String.length v))
    | None => (EmptyString, false)
    end.
Proof.
  intros Hwf. unfold lookup, to_map, index.
  destruct (index_from_spec (keys e) (values e) key 0 Hwf)
    as [(Hi & _ & Hm)|(n & Hi & Hk & _ & Hm)]; rewrite Hi, Hm.
  - done.
  - replace (0 + Z.of_nat n >? -1) with true by (symmetry; apply Z.gtb_lt; lia).
    replace (Z.to_nat (0 + Z.of_nat n)) with n by lia.
    apply lookup_lt_Some in Hk. rewrite Hwf in Hk.
    destruct (lookup_lt_is_Some_2 (values e) n Hk) as [v Hv]. by rewrite Hv.
Qed.

Lemma exists_to_map (e : environ) (key : string) :
  wf e → exists_ e key = bool_decide (is_Some (to_map e !! key)).
Proof.
  intros Hwf. unfold exists_, to_map, index.
  destruct (index_from_spec (keys e) (values e) key 0 Hwf)
    as [(Hi & _ & Hm)|(n & Hi & Hk & _ & Hm)]; rewrite Hi, Hm.
  - rewrite bool_decide_eq_false_2; [done|]. by intros [? ?].
  - apply lookup_lt_Some in Hk. rewrite Hwf in Hk.
    rewrite bool_decide_eq_true_2 by by apply lookup_lt_is_Some_2.
    apply Z.gtb_lt. lia.
Qed.

Lemma exists_elem_of (e : environ) (key : string) :
  exists_ e key = true ↔ key ∈ keys e.
Proof.
  unfold exists_, index.
  destruct (index_from_spec (keys e) (keys e) key 0 eq_refl)
    as [(Hi & Hnin & _)|(n & Hi & Hk & _)]; rewrite Hi.
  - split; [done|]. intros Hin. by destruct Hnin.
  - split; [intros _; by eapply list_elem_of_lookup_2|].
    intros _. apply Z.gtb_lt. lia.
Qed.

Lemma to_map_update (ks vs : list string) (n : nat) (key v : string) :
  length ks = length vs → ks !! n = Some key → key ∉ take n ks →
  (list_to_map (zip ks (<[n := v]> vs)) : gmap string string) =
    <[key := v]> (list_to_map (zip ks vs)).
Proof.
  revert vs n. induction ks as [|s ks IH]; intros [|w vs] [|n] Hlen Hk Hnin;
    simplify_eq/=.
  - by rewrite insert_insert_eq.
  - apply not_elem_of_cons in Hnin as [Hne Hnin].
    rewrite (IH vs n) by done. by rewrite insert_insert_ne.
Qed.

Lemma to_map_append (ks vs : list string) (key v : string) :
  length ks = length vs → key ∉ ks →
  (list_to_map (zip (ks ++ [key]) (vs ++ [v])) : gmap string string) =
    <[key := v]> (list_to_map (zip ks vs)).
Proof.
  revert vs. induction ks as [|s ks IH]; intros [|w vs] Hlen Hnin; simplify_eq/=.
  - done.
  - apply not_elem_of_cons in Hnin as [Hne Hnin].
    rewrite (IH vs) by done. by rewrite insert_insert_ne.
Qed.

Lemma Save_entry_wf (e : environ) (kv : string * string) :
  wf e → wf (Save_entry e kv).
Proof.
  unfold wf, Save_entry. intros Hwf.
  destruct (index e kv.1 >? -1); simpl.
  - by rewrite length_insert.
  - rewrite !length_app. simpl. lia.
Qed.

Lemma Save_entry_to_map (e : environ) (kv : string * string) :
  wf e → to_map (Save_entry e kv) = <[kv.1 := kv.2]> (to_map e).
Proof.
  intros Hwf. unfold Save_entry, to_map, index.
  destruct (index_from_spec (keys e) (values e) kv.1 0 Hwf)
    as [(Hi & Hnin & _)|(n & Hi & Hk & Hnin & _)]; rewrite Hi.
  - simpl. by apply to_map_append.
  - replace (0 + Z.of_nat n >? -1) with true by (symmetry; apply Z.gtb_lt; lia).
    replace (Z.to_nat (0 + Z.of_nat n)) with n by lia.
    simpl. by apply to_map_update.
Qed.

Lemma Save_entry_NoDup (e : environ) (kv : string * string) :
  NoDup (keys e) → NoDup (keys (Save_entry e kv)).
Proof.
  intros Hnd. unfold Save_entry.
  destruct (index e kv.1 >? -1) eqn:Hi; simpl; [done|].
  apply NoDup_app. split_and!; [done| |apply NoDup_singleton].
  intros x Hx ->%list_elem_of_singleton.
  apply exists_elem_of in Hx. unfold exists_ in Hx. congruence.
Qed.

Lemma Save_range_wf (e : environ) (l : list (string * string)) :
  wf e → wf (Save_range e l).
Proof.
  unfold Save_range. revert e. induction l as [|kv l IH]; intros e Hwf; simpl;
    [done|]. by apply IH, Save_entry_wf.
Qed.

Lemma Save_range_NoDup (e : environ) (l : list (string * string)) :
  NoDup (keys e) → NoDup (keys (Save_range e l)).
Proof.
  unfold Save_range. revert e. induction l as [|kv l IH]; intros e Hnd; simpl;
    [done|]. by apply IH, Save_entry_NoDup.
Qed.

Lemma Save_range_to_map (e : environ) (l : list (string * string)) :
  wf e → NoDup l.*1 → to_map (Save_range e l) = list_to_map l ∪ to_map e.
Proof.
  unfold Save_range. revert e.
  induction l as [|[k v] l IH]; intros e Hwf Hnd; simpl.
  - by rewrite (left_id_L ∅ (∪)).
  - apply NoDup_cons in Hnd as [Hk Hnd].
    rewrite IH by auto using Save_entry_wf.
    rewrite Save_entry_to_map by done. simpl.
    rewrite <- insert_union_l, <- insert_union_r; [done|].
    by apply not_elem_of_list_to_map_1.
Qed.

Lemma Save_wf (e e' : environ) (data : gmap string string) :
  wf e → Save e data e' → wf e'.
Proof. intros Hwf (l & _ & ->). by apply Save_range_wf. Qed.

Lemma Save_NoDup (e e' : environ) (data : gmap string string) :
  NoDup (keys e) → Save e data e' → NoDup (keys e').
Proof. intros Hnd (l & _ & ->). by apply Save_range_NoDup. Qed.

(** Saving a map is a left-biased union on the map view: the saved pairs
    win, whatever the order of iteration. *)
Lemma Save_to_map (e e' : environ) (data : gmap string string) :
  wf e → Save e data e' → to_map e' = data ∪ to_map e.
Proof.
  intros Hwf (l & Hl & ->).
  rewrite Save_range_to_map; [|done|].
  - f_equal. rewrite <- (list_to_map_to_list data).
    apply list_to_map_proper; [|done].
    rewrite Hl. apply NoDup_fst_map_to_list.
  - rewrite Hl. apply NoDup_fst_map_to_list.
Qed.

(** [Save] always has a result. *)
Lemma Save_total (e : environ) (data : gmap string string) :
  ∃ e', Save e data e'.
Proof. exists (Save_range e (map_to_list data)). by exists (map_to_list data). Qed.

Lemma reachable_wf (e : environ) : reachable e → wf e.
Proof. induction 1; [done|by eapply Save_wf|done]. Qed.

Lemma reachable_NoDup (e : environ) : reachable e → NoDup (keys e).
Proof.
  induction 1; [apply NoDup_nil_2|by eapply Save_NoDup|apply NoDup_nil_2].
Qed.

Lemma Save_entry_prefix (e : environ) (kv : string * string) :
  keys e `prefix_of` keys (Save_entry e kv).
Proof.
  unfold Save_entry. destruct (index e kv.1 >? -1); simpl; [done|].
  by apply prefix_app_r.
Qed.

Lemma Save_range_prefix (e : environ) (l : list (string * string)) :
  keys e `prefix_of` keys (Save_range e l).
Proof.
  unfold Save_range. revert e. induction l as [|kv l IH]; intros e; simpl; [done|].
  etrans; [apply Save_entry_prefix|apply IH].
Qed.

(** In a store without duplicate keys, the value next to a key is the one
    the map view gives. *)
Lemma to_map_lookup_at (e : environ) (n : nat) (key : string) :
  wf e → NoDup (keys e) → keys e !! n = Some key →
  to_map e !! key = values e !! n.
Proof.
  intros Hwf Hnd Hk. unfold to_map.
  destruct (index_from_spec (keys e) (values e) key 0 Hwf)
    as [(_ & Hnin & _)|(n' & _ & Hk' & _ & Hm)].
  - destruct Hnin. by eapply list_elem_of_lookup_2.
  - rewrite Hm. by rewrite (NoDup_lookup _ _ _ _ Hnd Hk Hk').
Qed.

Lemma elem_of_keys_to_map (e : environ) (key : string) :
  wf e → key ∈ keys e ↔ is_Some (to_map e !! key).
Proof.
  intros Hwf. rewrite <- exists_elem_of, exists_to_map by done.
  by rewrite bool_decide_eq_true.
Qed.

End store_facts.

Section store_claims.
Import Env.

(** C1.  In a store built by [New], [Save] and [Clean], [lookup key] returns
    [(value, true)] exactly when [key] is stored with the non-empty [value];
    a key stored with the empty value gives [("", false)] from [lookup] while
    [exists] still answers [true]; [exists] is true exactly for the stored
    keys; and after [Save data] every pair [(key, value)] of [data] is
    looked up as [(value, value is non-empty)] and exists. *)
Theorem lookup_found_iff_nonempty (e : environ) (key : string) :
  reachable e →
  (∀ value, lookup e key = (value, true) ↔
     (key, value) ∈ zip (keys e) (values e) ∧ value ≠ EmptyString) ∧
  ((key, EmptyString) ∈ zip (keys e) (values e) →
     lookup e key = (EmptyString, false) ∧ exists_ e key = true) ∧
  (exists_ e key = true ↔ key ∈ keys e) ∧
  (∀ data e' value, Save e data e' → data !! key = Some value →
     lookup e' key = (value, 0 <? Z.of_nat (String.length value)) ∧
     exists_ e' key = true).
Proof.
  intros Hr. pose proof (reachable_wf e Hr) as Hwf.
  pose proof (reachable_NoDup e Hr) as Hnd.
  assert (Hin : ∀ v, (key, v) ∈ zip (keys e) (values e) ↔ to_map e !! key = Some v).
  { intros v. unfold to_map. apply elem_of_list_to_map.
    by rewrite fst_zip by (unfold wf in Hwf; lia). }
  split_and!.
  - intros value. rewrite Hin, lookup_to_map by done.
    destruct (to_map e !! key) as [v|]; [|by split; [|intros [? _]]].
    split.
    + intros [= -> Hlen]. split; [done|]. intros ->. done.
    + intros [[= ->] Hne]. f_equal. destruct value; [done|]. done.
  - intros Hk%Hin. rewrite lookup_to_map, exists_to_map, Hk by done.
    split; [done|]. by apply bool_decide_eq_true_2.
  - apply exists_elem_of.
  - intros data e' value HS Hd.
    pose proof (Save_wf _ _ _ Hwf HS) as Hwf'.
    rewrite lookup_to_map, exists_to_map by done.
    rewrite (Save_to_map e e' data) by done.
    rewrite (lookup_union_Some_l _ _ _ _ Hd).
    split; [done|]. by apply bool_decide_eq_true_2.
Qed.

(** C4.  No two entries of a reachable store share a key, and [Clean] and
    [Save] keep it so.  [Save data] keeps every key that was present at its
    position, gives it the value of [data] when [data] has the key and
    leaves its value alone otherwise, and the keys afterwards are the old
    ones and those of [data].  Saving [{"A":"1"}] and then [{"A":"2"}] into
    a new store leaves the single entry [("A", "2")]. *)
Theorem key_uniqueness_invariant (e : environ) :
  reachable e →
  NoDup (keys e) ∧
  NoDup (keys (Clean e)) ∧
  (∀ data e', Save e data e' →
     NoDup (keys e') ∧
     length (keys e') = length (values e') ∧
     keys e `prefix_of` keys e' ∧
     (∀ n k, keys e' !! n = Some k →
        values e' !! n =
          match data !! k with Some v => Some v | None => values e !! n end) ∧
     (∀ k, k ∈ keys e' ↔ k ∈ keys e ∨ is_Some (data !! k))) ∧
  (∀ e1 e2, Save New {["A" := "1"]} e1 → Save e1 {["A" := "2"]} e2 →
     keys e2 = ["A"] ∧ values e2 = ["2"]).
Proof.
  intros Hr. pose proof (reachable_wf e Hr) as Hwf.
  pose proof (reachable_NoDup e Hr) as Hnd.
  split_and!; [done|apply NoDup_nil_2| |].
  - intros data e' HS.
    pose proof (Save_wf _ _ _ Hwf HS) as Hwf'.
    pose proof (Save_NoDup _ _ _ Hnd HS) as Hnd'.
    pose proof (Save_to_map _ _ _ Hwf HS) as Hm.
    assert (Hpre : keys e `prefix_of` keys e').
    { destruct HS as (l & _ & ->). apply Save_range_prefix. }
    split_and!; [done|done|done| |].
    + intros n k Hk'.
      rewrite <- (to_map_lookup_at e' n k), Hm by done.
      rewrite lookup_union.
      assert (Hold : to_map e !! k = values e !! n).
      { destruct (decide (n < length (keys e))%nat) as [Hlt|Hge].
        - apply to_map_lookup_at; [done|done|].
          destruct Hpre as [new Hnew]. by rewrite Hnew, lookup_app_l in Hk'.
        - rewrite (lookup_ge_None_2 (values e)) by (unfold wf in Hwf; lia).
          apply eq_None_not_Some. rewrite <- elem_of_keys_to_map by done.
          intros [m Hm']%list_elem_of_lookup.
          assert (keys e' !! m = Some k) as Hm''.
          { destruct Hpre as [new ->]. by apply lookup_app_l_Some. }
          pose proof (NoDup_lookup _ _ _ _ Hnd' Hk' Hm'') as ->.
          apply lookup_lt_Some in Hm'. lia. }
      rewrite Hold. destruct (data !! k), (values e !! n); done.
    + intros k. rewrite !elem_of_keys_to_map, Hm by done.
      rewrite lookup_union_is_Some. tauto.
  - intros e1 e2 (l1 & Hl1 & ->) (l2 & Hl2 & ->).
    rewrite map_to_list_singleton in Hl1, Hl2.
    apply Permutation_singleton_r in Hl1 as ->.
    apply Permutation_singleton_r in Hl2 as ->. done.
Qed.

End store_claims.

(** ** The scoped view: key rewriting and category fallback *)

Section scoped_lookup.
Import Signer.

Lemma string_app_assoc (a b c : string) : (a +:+ b) +:+ c = a +:+ (b +:+ c).
Proof.
  induction a as [|x a IH]; [done|].
  change (String x ((a +:+ b) +:+ c) = String x (a +:+ b +:+ c)).
  by rewrite IH.
Qed.

Lemma nonempty_true (s : string) : nonempty s = true ↔ s ≠ EmptyString.
Proof. unfold nonempty. destruct (String.eqb_spec s EmptyString); naive_solver. Qed.

Lemma nonempty_false (s : string) : nonempty s = false ↔ s = EmptyString.
Proof. unfold nonempty. destruct (String.eqb_spec s EmptyString); naive_solver. Qed.

(** C5.  A view rewrites [key] to [{prefix}_{category}_{key}], an empty
    prefix or category being left out together with its underscore.  With a
    non-empty category, [lookup] and [exists] first resolve the key under
    prefix and category and, when that is not found, resolve it under the
    prefix alone; with an empty category only the latter is tried.  On a
    store holding [CACHE_BOOK_DATABASE=10] and [CACHE_SCOPE=app:], the view
    [Signed("CACHE", "BOOK")] gives 10 for [Int("DATABASE")] and ["app:"]
    for [String("SCOPE")]. *)
Theorem scoped_lookup_category_fallback
    (s : signer) (e : Env.environ) (key : string) :
  (∀ c, scoped_key s c key =
     (if nonempty (prefix s) then prefix s +:+ "_" else EmptyString) +:+
     ((if nonempty c then c +:+ "_" else EmptyString) +:+ key)) ∧
  (category s ≠ EmptyString →
     lookup s e key =
       (if (Env.lookup e (scoped_key s (category s) key)).2
        then Env.lookup e (scoped_key s (category s) key)
        else Env.lookup e (scoped_key s EmptyString key)) ∧
     exists_ s e key =
       (if Env.exists_ e (scoped_key s (category s) key) then true
        else Env.exists_ e (scoped_key s EmptyString key))) ∧
  (category s = EmptyString →
     lookup s e key = Env.lookup e (scoped_key s EmptyString key) ∧
     exists_ s e key = Env.exists_ e (scoped_key s EmptyString key)) ∧
  (Env.wf e → prefix s = "CACHE" → category s = "BOOK" →
     Env.to_map e = {[ "CACHE_BOOK_DATABASE" := "10"; "CACHE_SCOPE" := "app:" ]} →
     Inner.Int (inner_of s e) "DATABASE" [] = 10 ∧
     Inner.String (inner_of s e) "SCOPE" [] = "app:").
Proof.
  split_and!.
  - intros c. unfold scoped_key.
    destruct (nonempty (prefix s)), (nonempty c); simpl;
      by rewrite ?string_app_assoc.
  - intros Hc%nonempty_true. unfold lookup, exists_, lookup2, exists2_. simpl.
    unfold Inner.Lookup, Inner.Exists. simpl. rewrite Hc. simpl.
    split.
    + destruct (Env.lookup e (scoped_key s (category s) key)) as [v []]; done.
    + destruct (Env.exists_ e (scoped_key s (category s) key)); done.
  - intros Hc. unfold lookup, exists_, lookup2, exists2_. simpl.
    unfold Inner.Lookup, Inner.Exists. simpl. rewrite Hc. simpl.
    split; [|by rewrite orb_true_r].
    destruct (Env.lookup e (scoped_key s EmptyString key)) as [v b].
    by rewrite orb_true_r.
  - intros Hwf Hp Hc Hm.
    unfold Inner.Int, Inner.String, Inner.Lookup, inner_of, lookup, lookup2.
    unfold Inner.Lookup, scoped_key. simpl. rewrite Hp, Hc. simpl.
    rewrite !lookup_to_map by done. rewrite Hm. done.
Qed.

End scoped_lookup.

(** ** Cursors: the store's [iter] and the scoped view's [iter] *)

Section cursor_facts.
Import Env.

Lemma geb_true (a b : Z) : b ≤ a → (a >=? b) = true.
Proof. intros H. rewrite Z.geb_leb. by apply Z.leb_le. Qed.

Lemma geb_false (a b : Z) : a < b → (a >=? b) = false.
Proof. intros H. rewrite Z.geb_leb. by apply Z.leb_gt. Qed.

Lemma wrap32_id (z : Z) : - 2 ^ 31 ≤ z < 2 ^ 31 → wrap32 z = z.
Proof.
  intros Hz. unfold wrap32.
  rewrite Z.mod_small by lia. lia.
Qed.

Lemma slice_at_nat {A : Type} (l : list A) (i : nat) :
  slice_at l (Z.of_nat i) = l !! i.
Proof.
  unfold slice_at. replace (Z.of_nat i <? 0) with false
    by (symmetry; apply Z.ltb_ge; lia).
  by rewrite Nat2Z.id.
Qed.

(** A cursor positioned before entry [i] yields that entry. *)
Lemma iter_next_yield (e : environ) (i : nat) (k v : string) :
  Z.of_nat (length (keys e)) < 2 ^ 31 →
  keys e !! i = Some k → values e !! i = Some v →
  iter_next e (Z.of_nat i - 1) = (Z.of_nat i, Returns (k, v, true)).
Proof.
  intros Hlen Hk Hv. unfold iter_next.
  pose proof (lookup_lt_Some _ _ _ Hk) as Hi.
  replace (Z.of_nat i - 1 + 1) with (Z.of_nat i) by lia.
  rewrite wrap32_id by lia.
  rewrite geb_false by lia.
  by rewrite !slice_at_nat, Hk, Hv.
Qed.

(** A cursor positioned at or past the end of the store reports [ok = false],
    and still moves on. *)
Lemma iter_next_exhausted (e : environ) (pos : Z) :
  Z.of_nat (length (keys e)) ≤ pos + 1 < 2 ^ 31 →
  iter_next e pos = (pos + 1, Returns no_item).
Proof.
  intros Hpos. unfold iter_next. rewrite wrap32_id by lia.
  by rewrite geb_true by lia.
Qed.

End cursor_facts.

Section cursor_fuel.
Import Signer.

Lemma wrap32_range (z : Z) : - 2 ^ 31 ≤ wrap32 z < 2 ^ 31.
Proof.
  unfold wrap32. pose proof (Z.mod_pos_bound (z + 2 ^ 31) (2 ^ 32)). lia.
Qed.

Lemma slice_at_Some {A : Type} (l : list A) (i : Z) (x : A) :
  slice_at l i = Some x → 0 ≤ i < Z.of_nat (length l).
Proof.
  unfold slice_at. destruct (i <? 0) eqn:Hi; [done|].
  intros Hx%lookup_lt_Some. apply Z.ltb_ge in Hi. lia.
Qed.

(** The turns the loop of the view's cursor can take from position [pos]. *)
Let turns (e : Env.environ) (pos : Z) : nat :=
  let index := wrap32 (pos + 1) in
  if (0 <=? index) && (index <? Z.of_nat (length (Env.keys e)))
  then S (Z.to_nat (Z.of_nat (length (Env.keys e)) - index))
  else 1%nat.

Lemma next_loop_fuel (s : signer) (e : Env.environ) (fuel : nat) :
  ∀ (pos : Z) (c : cursor),
    (turns e pos ≤ fuel)%nat → (next_loop fuel s e pos c).2 ≠ OutOfFuel.
Proof.
  induction fuel as [|fuel IH]; intros pos c Hfuel.
  { unfold turns in Hfuel. by destruct (_ && _); lia. }
  cbn [next_loop]. unfold Env.iter_next.
  pose proof (wrap32_range (pos + 1)) as Hrange.
  set (index := wrap32 (pos + 1)) in *.
  destruct (index >=? Z.of_nat (length (Env.keys e))) eqn:Hge; [done|].
  rewrite Z.geb_leb in Hge. apply Z.leb_gt in Hge.
  destruct (slice_at (Env.keys e) index) as [k|] eqn:Hk; [|done].
  destruct (slice_at (Env.values e) index) as [v|] eqn:Hv; [|done].
  apply slice_at_Some in Hk. cbn [negb].
  destruct (strings_HasPrefix k _); [done|].
  assert (Hnext : (turns e index ≤ fuel)%nat).
  { unfold turns in Hfuel. fold index in Hfuel.
    replace (0 <=? index) with true in Hfuel by (symmetry; apply Z.leb_le; lia).
    replace (index <? Z.of_nat (length (Env.keys e))) with true in Hfuel
      by (symmetry; apply Z.ltb_lt; lia).
    cbn [andb] in Hfuel. unfold turns.
    pose proof (wrap32_range (index + 1)) as Hrange'.
    destruct (decide (index + 1 < 2 ^ 31)) as [Hsmall|Hwrap].
    - rewrite wrap32_id by lia. destruct (_ && _); lia.
    - replace (index + 1) with (2 ^ 31) by lia.
      change (wrap32 (2 ^ 31)) with (- 2 ^ 31). cbn [Z.leb andb]. simpl. lia. }
  destruct (nonempty (prefix s) && strings_HasPrefix k (prefix s)); by apply IH.
Qed.

(** A call of the view's cursor never runs out of the fuel it is given. *)
Lemma cursor_next_fuel (s : signer) (e : Env.environ) (c : cursor) :
  (cursor_next s e c).2 ≠ OutOfFuel.
Proof.
  unfold cursor_next. destruct (next c) as [pos|].
  - apply next_loop_fuel. unfold turns. destruct (_ && _) eqn:Hin; [|lia].
    apply andb_true_iff in Hin as [Hlo%Z.leb_le Hhi%Z.ltb_lt]. lia.
  - by repeat case_match.
Qed.

End cursor_fuel.

Section scoped_iteration.
Import Signer.
Variable s : signer.
Variable e : Env.environ.
Hypothesis Hwf : Env.wf e.
Hypothesis Hsize : Z.of_nat (length (Env.keys e)) < 2 ^ 31.

Let entries : list (string * string) := zip (Env.keys e) (Env.values e).
Let p : string := full_prefix (iter s).
Let has (kv : string * string) : Prop := strings_HasPrefix kv.1 p = true.
Let strip (kv : string * string) : string * string :=
  (strings_TrimPrefix kv.1 p, kv.2).

Lemma entries_lookup (i : nat) (k v : string) :
  entries !! i = Some (k, v) ↔ Env.keys e !! i = Some k ∧ Env.values e !! i = Some v.
Proof. unfold entries. rewrite lookup_zip_Some. done. Qed.

Lemma entries_length : length entries = length (Env.keys e).
Proof. unfold entries. rewrite length_zip. unfold Env.wf in Hwf. lia. Qed.

(** One run of the loop from position [i]: it stops at the first remaining
    entry under the full prefix, or at the end of the store. *)
Lemma next_loop_spec (rest : list (string * string)) :
  ∀ (i : nat) (c : cursor) (fuel : nat),
    drop i entries = rest → (i ≤ length entries)%nat →
    (length rest < fuel)%nat → full_prefix c = p →
    ∃ c' r, next_loop fuel s e (Z.of_nat i - 1) c = (c', r) ∧
      full_prefix c' = p ∧
      ((∃ j kv, rest !! j = Some kv ∧ has kv ∧ Forall (λ x, ¬ has x) (take j rest) ∧
          r = Returns (strip kv, true) ∧ next c' = Some (Z.of_nat (i + j))) ∨
       (Forall (λ x, ¬ has x) rest ∧ r = Returns no_item ∧
          next c' = Some (Z.of_nat (length entries)))).
Proof.
  induction rest as [|[k v] rest IH]; intros i c fuel Hdrop Hi Hfuel Hc.
  - destruct fuel as [|fuel]; [simpl in Hfuel; lia|]. simpl.
    assert (i = length entries) as ->.
    { apply (f_equal length) in Hdrop. rewrite length_drop in Hdrop.
      simpl in Hdrop. lia. }
    rewrite iter_next_exhausted by (rewrite entries_length in *; lia).
    simpl. eexists _, _. split; [done|]. split; [done|]. right.
    split_and!; [done|done|]. simpl. f_equal. lia.
  - destruct fuel as [|fuel]; [simpl in Hfuel; lia|]. simpl in Hfuel.
    assert (Hkv : entries !! i = Some (k, v)).
    { pose proof (lookup_drop entries i 0) as Hl.
      rewrite Hdrop in Hl. rewrite Nat.add_0_r in Hl. done. }
    pose proof Hkv as [Hk Hv]%entries_lookup.
    cbn [next_loop]. rewrite (iter_next_yield e i k v) by done.
    cbn [negb full_prefix]. rewrite Hc.
    destruct (strings_HasPrefix k p) eqn:Hhas.
    + eexists _, _. split; [done|]. split; [done|]. left.
      exists 0%nat, (k, v). split_and!; [done|done|by constructor|done|].
      simpl. f_equal. lia.
    + assert (Hdrop' : drop (S i) entries = rest).
      { replace (S i) with (i + 1)%nat by lia. by rewrite <- drop_drop, Hdrop. }
      assert (Hi' : (S i ≤ length entries)%nat).
      { apply lookup_lt_Some in Hkv. lia. }
      assert (Hfuel' : (length rest < fuel)%nat) by lia.
      assert (Hstep : ∀ c0, full_prefix c0 = p →
        ∃ c' r, next_loop fuel s e (Z.of_nat i) c0 = (c', r) ∧ full_prefix c' = p ∧
          ((∃ j kv, ((k, v) :: rest) !! j = Some kv ∧ has kv ∧
              Forall (λ x, ¬ has x) (take j ((k, v) :: rest)) ∧
              r = Returns (strip kv, true) ∧ next c' = Some (Z.of_nat (i + j))) ∨
           (Forall (λ x, ¬ has x) ((k, v) :: rest) ∧ r = Returns no_item ∧
              next c' = Some (Z.of_nat (length entries))))).
      { intros c0 Hc0.
        destruct (IH (S i) c0 fuel Hdrop' Hi' Hfuel' Hc0)
          as (c' & r & Hrun & Hp' & Hres).
        replace (Z.of_nat (S i) - 1) with (Z.of_nat i) in Hrun by lia.
        exists c', r. split; [done|]. split; [done|].
        assert (Hnot : ¬ has (k, v)) by (unfold has; simpl; congruence).
        destruct Hres as [(j & kv & Hj & Hkvh & Hpre & -> & Hn)|(Hall & -> & Hn)].
        - left. exists (S j), kv. split_and!; [done|done| |done|].
          + simpl. by constructor.
          + rewrite Hn. f_equal. lia.
        - right. split_and!; [by constructor|done|done]. }
      destruct (nonempty (prefix s) && strings_HasPrefix k (prefix s));
        by apply Hstep.
Qed.

Lemma filter_no_match (rest : list (string * string)) :
  Forall (λ x, ¬ has x) rest → filter has rest = [].
Proof.
  induction 1 as [|x rest Hx _ IH]; [done|].
  by rewrite filter_cons_False.
Qed.

Lemma filter_first_match (rest : list (string * string)) (j : nat)
    (kv : string * string) :
  rest !! j = Some kv → has kv → Forall (λ x, ¬ has x) (take j rest) →
  filter has rest = kv :: filter has (drop (S j) rest).
Proof.
  intros Hj Hkv Hpre.
  rewrite <- (take_drop_middle rest j kv Hj) at 1.
  rewrite filter_app, filter_cons_True by done.
  by rewrite (filter_no_match _ Hpre).
Qed.

(** Draining a cursor positioned before entry [i] yields the remaining
    entries under the full prefix, stripped, in store order. *)
Lemma drain_spec (n : nat) :
  ∀ (rest : list (string * string)) (i : nat) (c : cursor) (fuel : nat),
    (length rest ≤ n)%nat →
    drop i entries = rest → (i ≤ length entries)%nat →
    (length rest < fuel)%nat →
    next c = Some (Z.of_nat i - 1) → full_prefix c = p →
    drain fuel s e c = Returns (strip <$> filter has rest).
Proof.
  induction n as [|n IH]; intros rest i c fuel Hn Hdrop Hi Hfuel Hnext Hc.
  all: destruct fuel as [|fuel]; [lia|].
  all: cbn [drain]; unfold cursor_next; rewrite Hnext.
  all: destruct (next_loop_spec rest i c (S (length (Env.keys e))) Hdrop Hi)
         as (c' & r & -> & Hp' & Hres);
         [pose proof entries_length; apply (f_equal length) in Hdrop;
          rewrite length_drop in Hdrop; lia|done|].
  all: destruct Hres as [(j & kv & Hj & Hkvh & Hpre & -> & Hn')|(Hall & -> & Hn')].
  - apply lookup_lt_Some in Hj. lia.
  - simpl. by rewrite (filter_no_match _ Hall).
  - pose proof (lookup_lt_Some _ _ _ Hj) as Hjlt.
    rewrite (filter_first_match rest j kv) by done.
    unfold strip at 1. cbn [fmap list_fmap].
    rewrite (IH (drop (S j) rest) (i + S j)%nat c' fuel).
    + done.
    + rewrite length_drop. lia.
    + by rewrite <- Hdrop, drop_drop.
    + apply (f_equal length) in Hdrop. rewrite length_drop in Hdrop. lia.
    + rewrite length_drop. lia.
    + rewrite Hn'. f_equal. lia.
    + done.
  - simpl. by rewrite (filter_no_match _ Hall).
Qed.

End scoped_iteration.

Section scoped_iteration_claim.
Import Signer.

Lemma string_app_nil_r (a : string) : a +:+ EmptyString = a.
Proof.
  induction a as [|x a IH]; [done|].
  change (String x (a +:+ EmptyString) = String x a). by rewrite IH.
Qed.

Lemma HasPrefix_split (k p : string) :
  strings_HasPrefix k p = true → k = p +:+ strings_TrimPrefix k p.
Proof.
  unfold strings_TrimPrefix. intros Hp. rewrite Hp.
  unfold strings_HasPrefix in Hp. revert k Hp.
  induction p as [|x p IH]; intros k Hp; [done|].
  destruct k as [|y k]; [done|]. simpl in Hp.
  destruct (ascii_dec x y) as [->|]; [|done].
  change (String y k = String y (p +:+ string_drop (String.length p) k)).
  f_equal. by apply IH.
Qed.

Lemma HasPrefix_app (p rest : string) :
  strings_HasPrefix (p +:+ rest) p = true ∧ strings_TrimPrefix (p +:+ rest) p = rest.
Proof.
  unfold strings_TrimPrefix, strings_HasPrefix.
  assert (String.prefix p (p +:+ rest) = true) as ->.
  { induction p as [|x p IH]; [by destruct rest|].
    change (String.prefix (String x p) (String x (p +:+ rest)) = true).
    simpl. by destruct (ascii_dec x x). }
  split; [done|]. induction p as [|x p IH]; [done|]. exact IH.
Qed.

Lemma next_loop_keeps_next (s : signer) (e : Env.environ) (fuel : nat) :
  ∀ (pos : Z) (c : cursor),
    is_Some (next c) → is_Some (next (next_loop fuel s e pos c).1).
Proof.
  induction fuel as [|fuel IH]; intros pos c Hc; [done|].
  cbn [next_loop]. destruct (Env.iter_next e pos) as [pos' [[[k v] b]| |]];
    [|by eexists..].
  destruct b; cbn [negb]; [|by eexists].
  destruct (strings_HasPrefix k _); [by eexists|].
  destruct (nonempty (prefix s) && strings_HasPrefix k (prefix s));
    apply IH; by eexists.
Qed.

(** C6.  Calling the cursor of a scoped view until it reports [ok = false]
    yields exactly the entries of the store whose key starts with the full
    scoped prefix [{prefix}_{category}_] (an empty segment left out with its
    underscore), in store order, each with that prefix stripped from the key
    and the stored value unchanged.  The cursor of the store is never nil,
    so the side list of bare-prefix matches is never read: an entry that
    matches only the bare prefix is never yielded. *)
Theorem scoped_iteration_exact (s : signer) (e : Env.environ) :
  Env.wf e → Z.of_nat (length (Env.keys e)) < 2 ^ 31 →
  let p := full_prefix (iter s) in
  p = (if nonempty (prefix s) then prefix s +:+ "_" else EmptyString) +:+
      (if nonempty (category s) then category s +:+ "_" else EmptyString) ∧
  drain (S (length (Env.keys e))) s e (iter s) =
    Returns ((λ kv, (strings_TrimPrefix kv.1 p, kv.2)) <$>
             filter (λ kv, strings_HasPrefix kv.1 p = true)
                    (zip (Env.keys e) (Env.values e))) ∧
  (∀ rest, strings_HasPrefix (p +:+ rest) p = true ∧
           strings_TrimPrefix (p +:+ rest) p = rest) ∧
  (∀ k, strings_HasPrefix k p = true → k = p +:+ strings_TrimPrefix k p) ∧
  is_Some (next (iter s)) ∧
  (∀ c, is_Some (next c) → is_Some (next (cursor_next s e c).1)).
Proof.
  intros Hwf Hsize p. split_and!.
  - unfold p, iter. cbn [full_prefix].
    destruct (nonempty (prefix s)) eqn:Hp, (nonempty (category s)); try done.
    + by rewrite string_app_nil_r.
    + apply nonempty_false in Hp. by rewrite Hp.
    + apply nonempty_false in Hp. by rewrite Hp.
  - apply (drain_spec s e Hwf Hsize (length (zip (Env.keys e) (Env.values e)))
             _ 0%nat); try done.
    + rewrite length_zip. lia.
    + rewrite length_zip. lia.
  - intros rest. apply HasPrefix_app.
  - intros k. apply HasPrefix_split.
  - by eexists.
  - intros c [pos Hc]. unfold cursor_next. rewrite Hc.
    apply next_loop_keeps_next. by eexists.
Qed.

End scoped_iteration_claim.

Section store_cursor_claim.
Import Env.

Lemma iter_calls_yield (e : environ) (rest : list (string * string)) :
  Z.of_nat (length (keys e)) < 2 ^ 31 →
  ∀ i : nat, drop i (zip (keys e) (values e)) = rest →
    iter_calls (replicate (length rest) e) (Z.of_nat i - 1) =
      (Z.of_nat (i + length rest) - 1,
       (λ kv, Returns (kv.1, kv.2, true)) <$> rest).
Proof.
  intros Hsize. induction rest as [|[k v] rest IH]; intros i Hdrop.
  - simpl. do 2 f_equal. lia.
  - assert (Hkv : zip (keys e) (values e) !! i = Some (k, v)).
    { pose proof (lookup_drop (zip (keys e) (values e)) i 0) as Hl.
      rewrite Hdrop in Hl. rewrite Nat.add_0_r in Hl. done. }
    apply lookup_zip_Some in Hkv as [Hk Hv].
    cbn [length replicate iter_calls].
    rewrite (iter_next_yield e i k v) by done.
    replace (Z.of_nat i) with (Z.of_nat (S i) - 1) at 1 by lia.
    rewrite IH.
    + simpl. do 2 f_equal. lia.
    + replace (S i) with (i + 1)%nat by lia. by rewrite <- drop_drop, Hdrop.
Qed.

Lemma iter_next_false_inv (e : environ) (pos pos' : Z) (it : item) :
  iter_next e pos = (pos', Returns it) → it.2 = false →
  Z.of_nat (length (keys e)) ≤ pos' ∧ it = no_item.
Proof.
  unfold iter_next. intros Hnext Hit.
  destruct (wrap32 (pos + 1) >=? Z.of_nat (length (keys e))) eqn:Hge.
  - simplify_eq. split; [|done]. rewrite Z.geb_leb in Hge. by apply Z.leb_le.
  - repeat case_match; by simplify_eq.
Qed.

Lemma iter_calls_exhausted (es : list environ) :
  ∀ pos : Z, 0 ≤ pos → pos + Z.of_nat (length es) < 2 ^ 31 →
    (∀ (j : nat) e2, es !! j = Some e2 →
       Z.of_nat (length (keys e2)) ≤ pos + 1 + Z.of_nat j) →
    iter_calls es pos =
      (pos + Z.of_nat (length es), replicate (length es) (Returns no_item)).
Proof.
  induction es as [|e2 es IH]; intros pos Hpos Hmax Hlen.
  - simpl. f_equal. lia.
  - cbn [iter_calls length replicate].
    rewrite iter_next_exhausted.
    + rewrite IH.
      * f_equal. lia.
      * lia.
      * simpl in Hmax. lia.
      * intros j e3 Hj. specialize (Hlen (S j) e3 Hj). lia.
    + specialize (Hlen 0%nat e2 eq_refl). simpl in Hmax. lia.
Qed.

(** C8 (as the code has it).  Stepping a fresh cursor over an unchanged
    store yields its [(key, value)] pairs by ascending index and then
    reports [ok = false].  Every call advances the position, also the
    exhausted ones.  After a call that reported exhaustion, the later calls
    keep reporting [ok = false] as long as, at each of them, the store has
    no more entries than the cursor has been called before (so in
    particular while the store does not grow), for fewer than [2^31] calls
    in all; and a call finding an entry at its position yields it. *)
Theorem cursor_single_pass (e : environ) :
  wf e → Z.of_nat (length (keys e)) < 2 ^ 31 →
  iter_calls (replicate (length (keys e)) e ++ [e]) iter =
    (Z.of_nat (length (keys e)),
     ((λ kv, Returns (kv.1, kv.2, true)) <$> zip (keys e) (values e)) ++
     [Returns no_item]) ∧
  (∀ pos pos' it, iter_next e pos = (pos', Returns it) → it.2 = false →
     (∀ es,
        pos' + Z.of_nat (length es) < 2 ^ 31 →
        (∀ (j : nat) e2, es !! j = Some e2 →
           Z.of_nat (length (keys e2)) ≤ pos' + 1 + Z.of_nat j) →
        iter_calls es pos' =
          (pos' + Z.of_nat (length es), replicate (length es) (Returns no_item))) ∧
     (∀ es,
        pos' + Z.of_nat (length es) < 2 ^ 31 →
        Forall (λ e2, (length (keys e2) ≤ length (keys e))%nat) es →
        iter_calls es pos' =
          (pos' + Z.of_nat (length es), replicate (length es) (Returns no_item))) ∧
     (∀ e2 k v,
        pos' + 1 < 2 ^ 31 →
        keys e2 !! Z.to_nat (pos' + 1) = Some k →
        values e2 !! Z.to_nat (pos' + 1) = Some v →
        iter_next e2 pos' = (pos' + 1, Returns (k, v, true)))).
Proof.
  intros Hwf Hsize. split.
  - assert (Hlen : length (zip (keys e) (values e)) = length (keys e)).
    { rewrite length_zip. unfold wf in Hwf. lia. }
    pose proof (iter_calls_yield e (zip (keys e) (values e)) Hsize 0%nat eq_refl)
      as Hrun.
    rewrite Hlen in Hrun.
    assert (Happ : ∀ es1 es2 p0 p1 rs1,
      iter_calls es1 p0 = (p1, rs1) →
      iter_calls (es1 ++ es2) p0 =
        ((iter_calls es2 p1).1, rs1 ++ (iter_calls es2 p1).2)).
    { induction es1 as [|e1 es1 IH]; intros es2 p0 p1 rs1 H1; simpl in *.
      - simplify_eq. simpl. by destruct (iter_calls es2 p1).
      - destruct (iter_next e1 p0) as [p0' r].
        destruct (iter_calls es1 p0') as [p0'' rs] eqn:H2. simplify_eq.
        rewrite (IH es2 p0' p1 rs H2). done. }
    change iter with (Z.of_nat 0 - 1).
    rewrite (Happ _ [e] _ _ _ Hrun). cbn [iter_calls].
    rewrite iter_next_exhausted by lia. cbn [fst snd]. f_equal. lia.
  - intros pos pos' it Hnext Hfalse.
    destruct (iter_next_false_inv e pos pos' it Hnext Hfalse) as [Hge ->].
    split_and!.
    + intros es Hmax Hlen. apply iter_calls_exhausted; [lia|done|done].
    + intros es Hmax Hall. apply iter_calls_exhausted; [lia|done|].
      intros j e2 Hj. rewrite Forall_lookup in Hall.
      specialize (Hall j e2 Hj). simpl in Hall. lia.
    + intros e2 k v Hmax Hk Hv.
      pose proof (iter_next_yield e2 (Z.to_nat (pos' + 1)) k v) as Hy.
      rewrite Z2Nat.id in Hy by lia.
      replace (pos' + 1 - 1) with pos' in Hy by lia.
      unfold iter_next in *. rewrite wrap32_id by lia.
      pose proof (lookup_lt_Some _ _ _ Hk) as Hlt.
      rewrite geb_false by lia.
      unfold slice_at. replace (pos' + 1 <? 0) with false
        by (symmetry; apply Z.ltb_ge; lia).
      by rewrite Hk, Hv.
Qed.

(** C8 does not hold as stated: a cursor that reported exhaustion yields
    again once [Save] has grown the store past its position.  On the store
    [A=1] the second call reports [ok = false]; after saving [B=2] and then
    [C=3] the third call yields [("C", "3")], having skipped [B]. *)
Lemma exhausted_cursor_resumes_after_Save :
  ∃ e1 e2 e3,
    Save New {[ "A" := "1" ]} e1 ∧ Save e1 {[ "B" := "2" ]} e2 ∧
    Save e2 {[ "C" := "3" ]} e3 ∧
    iter_calls [e1; e1; e3] iter =
      (2, [Returns ("A", "1", true); Returns no_item; Returns ("C", "3", true)]).
Proof.
  exists (Save_range New [("A", "1")]).
  exists (Save_range (Save_range New [("A", "1")]) [("B", "2")]).
  exists (Save_range (Save_range (Save_range New [("A", "1")]) [("B", "2")])
            [("C", "3")]).
  split_and!.
  - eexists. split; [|done]. by rewrite map_to_list_singleton.
  - eexists. split; [|done]. by rewrite map_to_list_singleton.
  - eexists. split; [|done]. by rewrite map_to_list_singleton.
  - vm_compute. done.
Qed.

End store_cursor_claim.

(** ** Initialisation of the singleton: layered loading and rollback *)

Section init_facts.
Import Global.
Variable w : World.

Lemma later_wins_union (sources : list (gmap string string)) (key : string) :
  later_wins sources key = foldl (λ acc m, m ∪ acc) ∅ sources !! key.
Proof.
  unfold later_wins.
  assert (Hgen : ∀ (acc : option string) (M : gmap string string),
    acc = M !! key →
    foldl (λ acc m, match m !! key with Some v => Some v | None => acc end)
          acc sources =
    foldl (λ acc m, m ∪ acc) M sources !! key).
  { induction sources as [|m sources IH]; intros acc M Hacc; simpl; [done|].
    apply IH. rewrite lookup_union, Hacc.
    by destruct (m !! key), (M !! key). }
  by apply Hgen.
Qed.

Lemma Load_spec (filename : string) (e e' : Env.environ) (err : option error) :
  Env.wf e → Load w [filename] e e' err →
  Env.wf e' ∧
  err = (godotenv_Read w [filename]).2 ∧
  Env.to_map e' = file_map w filename ∪ Env.to_map e ∧
  (err ≠ None → e' = e).
Proof.
  unfold Load, file_map. intros Hwf HL.
  destruct (godotenv_Read w [filename]) as [data [er|]]; simpl.
  - destruct HL as [-> ->]. split_and!; [done|done| |done].
    by rewrite (left_id_L ∅ (∪)).
  - destruct HL as [HS ->]. split_and!; [by eapply Save_wf|done| |done].
    by apply Save_to_map.
Qed.

Lemma loadEnv_spec (dir suffix : string) (e e' : Env.environ)
    (err : option error) :
  Env.wf e → loadEnv w dir suffix e e' err →
  Env.wf e' ∧
  (err = None →
     Env.to_map e' =
       file_map w (filepath_Join w [dir; ".env" +:+ suffix] +:+ ".local") ∪
       (file_map w (filepath_Join w [dir; ".env" +:+ suffix]) ∪ Env.to_map e)).
Proof.
  unfold loadEnv. intros Hwf (e1 & err1 & HL1 & Hrest).
  destruct (Load_spec _ _ _ _ Hwf HL1) as (Hwf1 & _ & Hm1 & _).
  destruct (goes_on err1) eqn:Hgo1.
  - destruct Hrest as (err2 & HL2 & ->).
    destruct (Load_spec _ _ _ _ Hwf1 HL2) as (Hwf2 & _ & Hm2 & _).
    split; [done|]. intros _. by rewrite Hm2, Hm1.
  - destruct Hrest as [-> ->]. split; [done|].
    intros ->. done.
Qed.

Lemma Load_total (filenames : list string) (e : Env.environ) :
  ∃ e' err, Load w filenames e e' err.
Proof.
  unfold Load. destruct (godotenv_Read w filenames) as [data [er|]].
  - by exists e, (Some er).
  - destruct (Save_total e data) as [e' HS]. by exists e', None.
Qed.

Lemma loadEnv_total (dir suffix : string) (e : Env.environ) :
  ∃ e' err, loadEnv w dir suffix e e' err.
Proof.
  unfold loadEnv.
  destruct (Load_total [filepath_Join w [dir; ".env" +:+ suffix]] e)
    as (e1 & err1 & HL1).
  destruct (goes_on err1) eqn:Hgo.
  - destruct (Load_total
                [filepath_Join w [dir; ".env" +:+ suffix] +:+ ".local"] e1)
      as (e2 & err2 & HL2).
    exists e2, (if goes_on err2 then None else err2), e1, err1.
    split; [done|]. rewrite Hgo. by exists err2.
  - exists e1, err1, e1, err1. split; [done|]. by rewrite Hgo.
Qed.

(** [InitWithDir] always ends: it returns or panics. *)
Lemma InitWithDir_total (dir : string) (g : globals) :
  ∃ g' r, InitWithDir w dir g g' r.
Proof.
  unfold InitWithDir. destruct (filepath_Abs w dir) as [d [er|]].
  - by eexists _, _.
  - destruct (environ_map w (os_Environ w) ∅) as [result|]; [|by eexists _, _].
    destruct (Save_total (Env.Clean (env g)) result) as [e1 HS].
    destruct (loadEnv_total d EmptyString e1) as (e2 & err & HL).
    destruct err as [er|].
    + eexists _, _, e1. split; [done|]. exists e2, (Some er). done.
    + destruct (0 <? Z.of_nat (String.length
                 (Inner.String (Env.inner_of e2) "APP_ENV" ["prod"]))) eqn:Hlen.
      * destruct (loadEnv_total d
            ("." +:+ strings_ToLower w
               (Inner.String (Env.inner_of e2) "APP_ENV" ["prod"])) e2)
          as (e3 & err' & HL').
        eexists _, _, e1. split; [done|]. exists e2, None. split; [done|].
        simpl. rewrite Hlen. by exists e3, err'.
      * eexists _, _, e1. split; [done|]. exists e2, None. split; [done|].
        simpl. by rewrite Hlen.
Qed.

(** The value of [String("APP_ENV", "prod")] is never empty. *)
Lemma appEnv_nonempty (e : Env.environ) :
  (0 <? Z.of_nat (String.length
           (Inner.String (Env.inner_of e) "APP_ENV" ["prod"]))) = true.
Proof.
  unfold Inner.String, Inner.Lookup. simpl. unfold Env.lookup.
  destruct (Env.index e "APP_ENV" >? -1); [|done].
  set (v := default EmptyString _).
  by destruct (0 <? Z.of_nat (String.length v)) eqn:Hlen.
Qed.

End init_facts.

Section init_claims.
Import Global.

(** C2.  When [InitWithDir] succeeds, the store holds, for every key, the
    value given by the last of the sources that defines it, the sources
    being in loading order the process environment, [.env], [.env.local],
    [.env.{APP_ENV}] and [.env.{APP_ENV}.local] (a file that does not exist
    defines nothing): each later load overwrites the keys already present.
    [APP_ENV] is read from the store after the first three sources, with
    ["prod"] when it is unset or empty, and lower-cased in the file name. *)
Theorem layered_loading_later_wins
    (w : World) (dir : string) (g g' : globals) :
  InitWithDir w dir g g' (Returns None) →
  ∃ result, environ_map w (os_Environ w) ∅ = Some result ∧
    let d := (filepath_Abs w dir).1 in
    let dotenv := filepath_Join w [d; ".env"] in
    let base := [result; file_map w dotenv; file_map w (dotenv +:+ ".local")] in
    let appEnv :=
      match later_wins base "APP_ENV" with
      | Some v => if 0 <? Z.of_nat (String.length v) then v else "prod"
      | None => "prod"
      end in
    let dotenv_app :=
      filepath_Join w [d; ".env" +:+ ("." +:+ strings_ToLower w appEnv)] in
    let sources :=
      base ++ [file_map w dotenv_app; file_map w (dotenv_app +:+ ".local")] in
    ∀ key,
      Env.to_map (env g') !! key = later_wins sources key ∧
      Lookup g' key =
        match later_wins sources key with
        | Some v => (v, 0 <? Z.of_nat (String.length v))
        | None => (EmptyString, false)
        end.
Proof.
  unfold InitWithDir. destruct (filepath_Abs w dir) as [d [er|]]; [by intros [_ ?]|].
  destruct (environ_map w (os_Environ w) ∅) as [result|]; [|by intros [_ ?]].
  intros (e1 & HS & e2 & err & HL & Hrest).
  exists result. split; [done|]. cbn [fst].
  assert (Hwf0 : Env.wf (Env.Clean (env g))) by done.
  pose proof (Save_wf _ _ _ Hwf0 HS) as Hwf1.
  pose proof (Save_to_map _ _ _ Hwf0 HS) as Hm1.
  change (Env.to_map (Env.Clean (env g))) with (∅ : gmap string string) in Hm1.
  rewrite (right_id_L ∅ (∪)) in Hm1.
  destruct (loadEnv_spec w _ _ _ _ _ Hwf1 HL) as [Hwf2 Hm2].
  destruct err as [er|]; [by destruct Hrest as [_ ?]|].
  specialize (Hm2 eq_refl). rewrite Hm1 in Hm2.
  change (".env" +:+ EmptyString) with ".env" in Hm2.
  cbv zeta in Hrest. rewrite appEnv_nonempty in Hrest.
  destruct Hrest as (e3 & err' & HL' & -> & Herr). injection Herr as <-.
  destruct (loadEnv_spec w _ _ _ _ _ Hwf2 HL') as [Hwf3 Hm3].
  specialize (Hm3 eq_refl).
  assert (Happ : Inner.String (Env.inner_of e2) "APP_ENV" ["prod"] =
    match later_wins [result; file_map w (filepath_Join w [d; ".env"]);
                      file_map w (filepath_Join w [d; ".env"] +:+ ".local")]
            "APP_ENV" with
    | Some v => if 0 <? Z.of_nat (String.length v) then v else "prod"
    | None => "prod"
    end).
  { rewrite later_wins_union. cbn [foldl]. rewrite (right_id_L ∅ (∪)), <- Hm2.
    unfold Inner.String, Inner.Lookup. cbn [Inner.lookup Env.inner_of].
    rewrite lookup_to_map by done.
    by destruct (Env.to_map e2 !! "APP_ENV"). }
  rewrite <- Happ. intros key.
  assert (Hkey : Env.to_map e3 !! key =
    later_wins
      ([result; file_map w (filepath_Join w [d; ".env"]);
        file_map w (filepath_Join w [d; ".env"] +:+ ".local")] ++
       [file_map w (filepath_Join w [d; ".env" +:+ "." +:+
          strings_ToLower w (Inner.String (Env.inner_of e2) "APP_ENV" ["prod"])]);
        file_map w (filepath_Join w [d; ".env" +:+ "." +:+
          strings_ToLower w (Inner.String (Env.inner_of e2) "APP_ENV" ["prod"])]
          +:+ ".local")]) key).
  { rewrite later_wins_union. cbn [foldl app].
    by rewrite (right_id_L ∅ (∪)), Hm3, Hm2. }
  cbn [deferred env]. split; [done|].
  unfold Lookup, Inner.Lookup. cbn [Inner.lookup Env.inner_of env].
  by rewrite lookup_to_map, Hkey by done.
Qed.

(** C3 (as the code has it).  Once [dir] is resolved to an absolute path,
    [InitWithDir] is all or nothing: when it then returns an error, the
    root is empty and the store is cleared, so [Path()] is empty and every
    lookup is not found; when it returns success, the root is the resolved
    absolute path.  When resolving [dir] fails, the error is returned at
    once and the root and the store stay as they were. *)
Theorem init_rollback_after_resolution
    (w : World) (dir : string) (g g' : globals) (r : run (option error)) :
  InitWithDir w dir g g' r →
  (∀ err, r = Returns (Some err) → (filepath_Abs w dir).2 = None →
     root g' = EmptyString ∧ env g' = Env.New ∧ Path w g' [] = EmptyString ∧
     ∀ name, Lookup g' name = (EmptyString, false)) ∧
  (r = Returns None →
     (filepath_Abs w dir).2 = None ∧
     root g' = (filepath_Abs w dir).1 ∧ Path w g' [] = (filepath_Abs w dir).1) ∧
  (∀ err, (filepath_Abs w dir).2 = Some err →
     r = Returns (Some err) ∧ g' = g).
Proof.
  unfold InitWithDir. destruct (filepath_Abs w dir) as [d [er|]]; cbn [fst snd].
  { intros [-> ->]. split_and!; [done|done|]. by intros ? [= ->]. }
  assert (Hrb : ∀ e er,
    let g1 := deferred d (Some er) {| env := e; root := EmptyString |} in
    root g1 = EmptyString ∧ env g1 = Env.New ∧ Path w g1 [] = EmptyString ∧
    ∀ name, Lookup g1 name = (EmptyString, false)) by done.
  assert (Hok : ∀ e,
    let g1 := deferred d None {| env := e; root := EmptyString |} in
    (None : option error) = None ∧ root g1 = d ∧ Path w g1 [] = d) by done.
  destruct (environ_map w (os_Environ w) ∅) as [result|].
  2: { intros [-> ->]. split_and!; [done|done|done]. }
  intros (e1 & HS & e2 & err & HL & Hrest).
  destruct err as [er|].
  { destruct Hrest as [-> ->]. split_and!; [|done|done].
    intros err [= <-] _. apply Hrb. }
  cbv zeta in Hrest. rewrite appEnv_nonempty in Hrest.
  destruct Hrest as (e3 & err' & HL' & -> & ->).
  split_and!; [|intros [= ->]; apply Hok|done].
  intros err [= ->] _. apply Hrb.
Qed.

(** C3 does not hold as stated: after a successful initialisation on
    ["/app"], a call on a relative directory whose resolution fails returns
    an error and leaves the root ["/app"] and the loaded variable in place. *)
Lemma init_error_without_rollback :
  ∃ g1 g2 err,
    InitWithDir Examples.world_without_cwd "/app" Examples.fresh_globals
      g1 (Returns None) ∧
    InitWithDir Examples.world_without_cwd "conf" g1 g2 (Returns (Some err)) ∧
    Path Examples.world_without_cwd g2 [] = "/app" ∧
    Lookup g2 "A" = ("1", true).
Proof.
  exists {| env := {| Env.keys := ["A"]; Env.values := ["1"] |}; root := "/app" |}.
  eexists _, _. split_and!.
  - unfold InitWithDir. cbn [Examples.world_without_cwd filepath_Abs].
    change (String.prefix "/" "/app") with true. cbv iota.
    change (environ_map _ _ ∅) with (Some ({[ "A" := "1" ]} : gmap string string)).
    cbv iota zeta.
    exists {| Env.keys := ["A"]; Env.values := ["1"] |}. split.
    { exists [("A", "1")]. split; [by rewrite map_to_list_singleton|done]. }
    exists {| Env.keys := ["A"]; Env.values := ["1"] |}, None. split.
    { eexists _, _. split; [by split|]. cbn [goes_on is_not_exist].
      eexists. split; [by split|done]. }
    cbv iota. rewrite appEnv_nonempty.
    exists {| Env.keys := ["A"]; Env.values := ["1"] |}, None. split; [|done].
    eexists _, _. split; [by split|]. cbn [goes_on is_not_exist].
    eexists. split; [by split|done].
  - unfold InitWithDir. cbn [Examples.world_without_cwd filepath_Abs].
    change (String.prefix "/" "conf") with false. cbv iota. done.
  - done.
  - done.
Qed.

End init_claims.

(** ** The duration accessor *)

Section duration.

Lemma leadingInt_length (s : string) :
  ∀ x v s1, leadingInt s x = Some (v, s1) →
    (String.length s1 ≤ String.length s)%nat.
Proof.
  induction s as [|c s IH]; intros x v s1 H; simpl in H.
  - by simplify_eq.
  - destruct (digit_of c); [|by simplify_eq].
    destruct (x >? 2 ^ 63 / 10); [done|].
    destruct (wrap_uint64 (x * 10 + z) >? 2 ^ 63); [done|].
    apply IH in H. simpl. lia.
Qed.

Lemma leadingFraction_length (s : string) :
  ∀ x scale o, (String.length (leadingFraction s x scale o).2 ≤ String.length s)%nat.
Proof.
  induction s as [|c s IH]; intros x scale o; simpl; [done|].
  destruct (digit_of c); [|done].
  repeat case_match; simpl; etrans; try apply IH; lia.
Qed.

Lemma split_unit_length (s : string) :
  String.length s =
    (String.length (split_unit s).1 + String.length (split_unit s).2)%nat.
Proof.
  induction s as [|c s IH]; simpl; [done|].
  destruct (is_digit_or_dot c); [done|].
  destruct (split_unit s) as [u rest]. simpl in *. lia.
Qed.

(** A term of a duration string takes at least one byte. *)
Lemma parse_term_shrinks (s : string) (d d' : Z) (s' : string) :
  parse_term s d = Some (d', s') → (String.length s' < String.length s)%nat.
Proof.
  unfold parse_term. destruct s as [|c s0]; [done|].
  set (s := String c s0). destruct (negb (is_digit_or_dot c)); [done|].
  destruct (leadingInt s 0) as [[v s1]|] eqn:Hint; [|done].
  apply leadingInt_length in Hint.
  set (frac := match s1 with String "."%char s1' => _ | _ => _ end).
  assert (Hfrac : (String.length frac.1.2 ≤ String.length s1)%nat).
  { unfold frac. destruct s1 as [|c1 s1']; [done|].
    destruct (Ascii.eqb_spec c1 "."%char) as [->|Hne].
    - pose proof (leadingFraction_length s1' 0 (float64_of_uint64 1) false) as Hl.
      destruct (leadingFraction s1' 0 (float64_of_uint64 1) false) as [[f sc] s2].
      simpl in *. lia.
    - destruct c1 as [[] [] [] [] [] [] [] []]; done. }
  destruct frac as [[[f scale] s2] post]. simpl in Hfrac.
  destruct (negb _ && negb post); [done|].
  pose proof (split_unit_length s2) as Hu.
  destruct (split_unit s2) as [u s3]. simpl in Hu.
  destruct (String.eqb_spec u EmptyString) as [->|Hne]; [done|].
  intros H. repeat case_match; simplify_eq.
  all: destruct u; [done|]; simpl in Hu; lia.
Qed.

(** The length of the string is enough fuel for the loop over its terms. *)
Lemma parse_terms_fuel (fuel : nat) :
  ∀ s d, (String.length s ≤ fuel)%nat →
    parse_terms fuel s d ≠ OutOfFuel ∧
    parse_terms fuel s d = parse_terms (String.length s) s d.
Proof.
  induction fuel as [fuel IH] using lt_wf_ind.
  intros s d Hlen. destruct s as [|c s0]; [by destruct fuel|].
  set (s := String c s0) in *. destruct fuel as [|fuel]; [simpl in Hlen; lia|].
  change (parse_terms (String.length s) s d)
    with (match parse_term s d with
          | None => Returns None
          | Some (d', s') => parse_terms (String.length s0) s' d'
          end).
  change (parse_terms (S fuel) s d)
    with (match parse_term s d with
          | None => Returns None
          | Some (d', s') => parse_terms fuel s' d'
          end).
  destruct (parse_term s d) as [[d' s']|] eqn:Hterm; [|done].
  apply parse_term_shrinks in Hterm. simpl in Hterm, Hlen.
  destruct (IH fuel (Nat.lt_succ_diag_r _) s' d') as [Hne Heq]; [lia|].
  split; [done|]. rewrite Heq.
  destruct (decide (String.length s0 = fuel)) as [->|Hlt]; [done|].
  destruct (IH (String.length s0)) with (s := s') (d := d') as [_ Heq'];
    [lia|lia|]. by rewrite Heq'.
Qed.

(** C7.  [Duration] first parses the stored value as a base-10 integer and
    takes the number as nanoseconds; only when that fails does it parse the
    value as a duration string; when both fail, or the key is not found,
    it returns the first fallback argument, else zero.  A stored ["5s"] is
    five seconds and a stored ["5"] five nanoseconds. *)
Theorem duration_two_parse_paths
    (i : Inner.inner) (key : string) (fallback : list Z) :
  (∀ val n, Inner.Lookup i key = (val, true) → strconv_Atoi val = Some n →
     Inner.Duration i key fallback = n * Nanosecond) ∧
  (∀ val d, Inner.Lookup i key = (val, true) → strconv_Atoi val = None →
     time_ParseDuration val = Some d → Inner.Duration i key fallback = d) ∧
  (∀ val, Inner.Lookup i key = (val, true) → strconv_Atoi val = None →
     time_ParseDuration val = None →
     Inner.Duration i key fallback = first_or 0 fallback) ∧
  (∀ val, Inner.Lookup i key = (val, false) →
     Inner.Duration i key fallback = first_or 0 fallback) ∧
  (Inner.Lookup i key = ("5s", true) →
     Inner.Duration i key fallback = 5 * Second) ∧
  (Inner.Lookup i key = ("5", true) →
     Inner.Duration i key fallback = 5 * Nanosecond) ∧
  first_or 0 [] = 0 ∧ (∀ d rest, first_or 0 (d :: rest) = d).
Proof.
  unfold Inner.Duration. split_and!.
  - intros val n -> ->. unfold Nanosecond. lia.
  - by intros val d -> -> ->.
  - by intros val -> -> ->.
  - by intros val ->.
  - by intros ->.
  - by intros ->.
  - done.
  - done.
Qed.

End duration.

(** ** [Fill]: order of processing and absence of rollback *)

Section fill_facts.
Import Inner.
Context {rtype scalar cast_error : Type}.
Variable cast_FromType :
  string → rtype → @value rtype scalar + cast_error.
Variable i : inner.

Local Abbreviation fill_field := (fill_field cast_FromType i).
Local Abbreviation fillStruct := (fillStruct cast_FromType i).
Local Abbreviation Fill := (Fill cast_FromType i).

(** The loop inside [fill_field] is [fillStruct]. *)
Lemma fillStruct_nested (name : string) (ty : rtype) (fields : list field) :
  fill_field (Field name None ty (VStruct fields)) =
    (Field name None ty (VStruct (fillStruct fields).1), (fillStruct fields).2) ∧
  fill_field (Field name None ty (VPtr (Some (VStruct fields)))) =
    (Field name None ty (VPtr (Some (VStruct (fillStruct fields).1))),
     (fillStruct fields).2).
Proof.
  cbn [Inner.fill_field].
  match goal with
  | |- context [let '(s', err) := ?loop fields in _] =>
      assert (Hloop : ∀ s, loop s = fillStruct s)
  end.
  { induction s as [|g s IH]; [done|].
    cbn [Inner.fillStruct]. rewrite <- IH. done. }
  rewrite Hloop. by destruct (fillStruct fields).
Qed.

(** Induction on a field through the structs it holds. *)
Lemma field_nested_ind (P : @field rtype scalar → Prop) :
  (∀ name t ty val, P (Field name (Some t) ty val)) →
  (∀ name ty fields, Forall P fields → P (Field name None ty (VStruct fields))) →
  (∀ name ty fields, Forall P fields →
     P (Field name None ty (VPtr (Some (VStruct fields))))) →
  (∀ name ty val,
     (∀ fields, val ≠ VStruct fields) →
     (∀ fields, val ≠ VPtr (Some (VStruct fields))) →
     P (Field name None ty val)) →
  ∀ f, P f.
Proof.
  intros Htag Hstruct Hptr Hother. fix F 1. intros [name [t|] ty val].
  { apply Htag. }
  destruct val as [fields|[[fields|elem|x]|]|x].
  - apply Hstruct. revert fields. fix G 1. intros [|g fields].
    + constructor.
    + constructor; [apply F|apply G].
  - apply Hptr. revert fields. fix G 1. intros [|g fields].
    + constructor.
    + constructor; [apply F|apply G].
  - apply Hother; intros fields; discriminate.
  - apply Hother; intros fields; discriminate.
  - apply Hother; intros fields; discriminate.
  - apply Hother; intros fields; discriminate.
Qed.

Local Abbreviation tagged_in := (@tagged_in rtype scalar).
Local Abbreviation tagged_fields := (@tagged_fields rtype scalar).
Local Abbreviation frame_of := (@frame_of rtype scalar).
Local Abbreviation frame := (@frame rtype scalar).
Local Abbreviation assigned := (assigned cast_FromType i).

Local Abbreviation fills_as_expected := (fills_as_expected cast_FromType i).

Lemma tagged_fields_cons (g : field) (s : list field) :
  tagged_fields (g :: s) = tagged_in g ++ tagged_fields s.
Proof. done. Qed.

Lemma frame_cons (g : field) (s : list field) :
  frame (g :: s) = frame_of g :: frame s.
Proof. done. Qed.

Lemma fillStruct_no_failure (s l' : list field) :
  Forall fills_as_expected s →
  Forall2 assigned (tagged_fields s) l' →
  ∃ s', fillStruct s = (s', None) ∧ tagged_fields s' = l' ∧ frame s' = frame s.
Proof.
  intros Hs. revert l'. induction Hs as [|g s Hg _ IH]; intros l' Hl.
  - apply Forall2_nil_inv_l in Hl as ->. by exists [].
  - rewrite tagged_fields_cons in Hl.
    apply Forall2_app_inv_l in Hl as (l1 & l2 & H1 & H2 & ->).
    destruct (proj1 Hg l1 H1) as (g' & Hfg & Htg & Hframe).
    destruct (IH l2 H2) as (s' & Hfs & Hts & Hframes).
    exists (g' :: s'). cbn [Inner.fillStruct]. rewrite Hfg, Hfs.
    split_and!; [done| |].
    + change (tagged_in g' ++ tagged_fields s' = l1 ++ l2). by rewrite Htg, Hts.
    + rewrite !frame_cons. by rewrite Hframe, Hframes.
Qed.

Lemma fillStruct_first_failure (s before before' after : list field)
    (name t : string) (ty : rtype) (val : value) (e : cast_error) :
  Forall fills_as_expected s →
  tagged_fields s = before ++ Field name (Some t) ty val :: after →
  Forall2 assigned before before' →
  String i t [] ≠ EmptyString →
  cast_FromType (String i t []) ty = inr e →
  ∃ s', fillStruct s = (s', Some (CannotSet name e)) ∧
        tagged_fields s' = before' ++ Field name (Some t) ty val :: after ∧
        frame s' = frame s.
Proof.
  intros Hs. revert before before'.
  induction Hs as [|g s Hg _ IH]; intros before before' Hsplit Hbefore Hosv Hcast.
  { by destruct before. }
  rewrite tagged_fields_cons in Hsplit.
  apply app_eq_inv in Hsplit as [(k & Hg1 & Hk)|(k & Hb & Hrest)].
  - destruct k as [|x k].
    + (* the failing field is the first tagged field after [g] *)
      rewrite app_nil_r in Hg1. cbn [app] in Hk.
      rewrite <- Hg1 in Hbefore.
      destruct (proj1 Hg before' Hbefore) as (g' & Hfg & Htg & Hframe).
      destruct (IH [] [] (eq_sym Hk) ltac:(constructor) Hosv Hcast)
        as (s' & Hfs & Hts & Hframes).
      exists (g' :: s'). cbn [Inner.fillStruct]. rewrite Hfg, Hfs.
      split_and!; [done| |].
      * rewrite tagged_fields_cons. cbn [app] in *.
        by rewrite Htg, Hts.
      * rewrite !frame_cons. by rewrite Hframe, Hframes.
    + (* the failing field is inside [g] *)
      cbn [app] in Hk. injection Hk as <- ->.
      destruct (proj2 Hg before before' k name t ty val e Hg1 Hbefore Hosv Hcast)
        as (g' & Hfg & Htg & Hframe).
      exists (g' :: s). cbn [Inner.fillStruct]. rewrite Hfg.
      split_and!; [done| |].
      * rewrite tagged_fields_cons. cbn [app] in *.
        by rewrite Htg, <- app_assoc.
      * rewrite !frame_cons. by rewrite Hframe.
  - (* the failing field comes after [g] *)
    subst before.
    apply Forall2_app_inv_l in Hbefore as (l1 & l2 & H1 & H2 & ->).
    destruct (proj1 Hg l1 H1) as (g' & Hfg & Htg & Hframe).
    destruct (IH k l2 Hrest H2 Hosv Hcast) as (s' & Hfs & Hts & Hframes).
    exists (g' :: s'). cbn [Inner.fillStruct]. rewrite Hfg, Hfs.
    split_and!; [done| |].
    + rewrite tagged_fields_cons. cbn [app] in *.
        by rewrite Htg, Hts, <- app_assoc.
    + rewrite !frame_cons. by rewrite Hframe, Hframes.
Qed.

Lemma fill_field_as_expected (g : field) : fills_as_expected g.
Proof.
  induction g as [name t ty val|name ty fields IH|name ty fields IH
                 |name ty val Hns Hnp] using field_nested_ind.
  - split.
    + intros l' Hl. cbn [Inner.tagged_in] in Hl.
      apply Forall2_cons_inv_l in Hl as (g' & l'' & Hg & Hnil & ->).
      apply Forall2_nil_inv_l in Hnil as ->.
      exists g'. cbn [Inner.fill_field].
      inversion Hg as [? ? ? ? Hosv|? ? ? ? v Hosv Hcast]; subst.
      * rewrite Hosv. by cbn.
      * destruct (String.eqb_spec (String i t []) EmptyString) as [|_]; [done|].
        cbn [negb]. by rewrite Hcast.
    + intros before before' after name' t' ty' val' e Hsplit Hbefore Hosv Hcast.
      cbn [Inner.tagged_in] in Hsplit.
      destruct before as [|x before]; cbn [app] in Hsplit;
        [|by destruct before; injection Hsplit].
      injection Hsplit as -> -> -> -> <-.
      apply Forall2_nil_inv_l in Hbefore as ->.
      exists (Field name' (Some t') ty' val'). cbn [Inner.fill_field].
      destruct (String.eqb_spec (String i t' []) EmptyString) as [|_]; [done|].
      cbn [negb]. by rewrite Hcast.
  - split.
    + intros l' Hl.
      destruct (fillStruct_no_failure fields l' IH Hl) as (s' & Hfs & Hts & Hframes).
      exists (Field name None ty (VStruct s')).
      rewrite (proj1 (fillStruct_nested name ty fields)), Hfs.
      split_and!; [done|done|].
      change (Field name None ty (VStruct (frame s')) =
              Field name None ty (VStruct (frame fields))). by rewrite Hframes.
    + intros before before' after name' t' ty' val' e Hsplit Hbefore Hosv Hcast.
      destruct (fillStruct_first_failure fields before before' after name' t' ty'
                  val' e IH Hsplit Hbefore Hosv Hcast) as (s' & Hfs & Hts & Hframes).
      exists (Field name None ty (VStruct s')).
      rewrite (proj1 (fillStruct_nested name ty fields)), Hfs.
      split_and!; [done|done|].
      change (Field name None ty (VStruct (frame s')) =
              Field name None ty (VStruct (frame fields))). by rewrite Hframes.
  - split.
    + intros l' Hl.
      destruct (fillStruct_no_failure fields l' IH Hl) as (s' & Hfs & Hts & Hframes).
      exists (Field name None ty (VPtr (Some (VStruct s')))).
      rewrite (proj2 (fillStruct_nested name ty fields)), Hfs.
      split_and!; [done|done|].
      change (Field name None ty (VPtr (Some (VStruct (frame s')))) =
              Field name None ty (VPtr (Some (VStruct (frame fields))))).
      by rewrite Hframes.
    + intros before before' after name' t' ty' val' e Hsplit Hbefore Hosv Hcast.
      destruct (fillStruct_first_failure fields before before' after name' t' ty'
                  val' e IH Hsplit Hbefore Hosv Hcast) as (s' & Hfs & Hts & Hframes).
      exists (Field name None ty (VPtr (Some (VStruct s')))).
      rewrite (proj2 (fillStruct_nested name ty fields)), Hfs.
      split_and!; [done|done|].
      change (Field name None ty (VPtr (Some (VStruct (frame s')))) =
              Field name None ty (VPtr (Some (VStruct (frame fields))))).
      by rewrite Hframes.
  - assert (tagged_in (Field name None ty val) = [] ∧
            fill_field (Field name None ty val) = (Field name None ty val, None))
      as [Hnone Hrun].
    { destruct val as [fields|[[fields|elem|x]|]|x]; try done.
      - by destruct (Hns fields).
      - by destruct (Hnp fields). }
    split.
    + intros l' Hl. rewrite Hnone in Hl. apply Forall2_nil_inv_l in Hl as ->.
      by exists (Field name None ty val).
    + intros before before' after name' t' ty' val' e Hsplit.
      rewrite Hnone in Hsplit. by destruct before.
Qed.

(** C10.  [Fill] is not atomic on error.  Take the tagged fields of the
    struct in declaration order, those of untagged nested structs and of
    the structs behind untagged non-nil pointers included where they stand.
    When the conversion by [cast.FromType] fails with [e] for one of them
    (its key having a non-empty value) and every tagged field before it is
    processed without error, [Fill] returns the error naming that field,
    and in the struct it leaves: every tagged field before the failing one
    holds what was assigned to it (the converted value, or its own value
    when the value of its key is empty), wherever it is nested; the failing
    field and every tagged field after it are as they were; and nothing but
    the values of tagged fields has changed. *)
Theorem Fill_keeps_assignments_on_error
    (s before before' after : list field)
    (name t : string) (ty : rtype) (val : value) (e : cast_error) :
  tagged_fields s = before ++ Field name (Some t) ty val :: after →
  Forall2 assigned before before' →
  String i t [] ≠ EmptyString →
  cast_FromType (String i t []) ty = inr e →
  ∃ s', Fill (PtrToStruct (Some s)) =
          Returns (PtrToStruct (Some s'), Some (CannotSet name e)) ∧
        tagged_fields s' = before' ++ Field name (Some t) ty val :: after ∧
        frame s' = frame s.
Proof.
  intros Hsplit Hbefore Hosv Hcast.
  assert (Forall fills_as_expected s) as Hs.
  { apply Forall_forall. intros g _. apply fill_field_as_expected. }
  destruct (fillStruct_first_failure s before before' after name t ty val e
              Hs Hsplit Hbefore Hosv Hcast) as (s' & Hrun & Htagged & Hframe).
  exists s'. unfold Inner.Fill. by rewrite Hrun.
Qed.

End fill_facts.

(** ** The cursor against a concurrent [Clean] *)

Section race.
Import Race.

(** Run alone, the steps of the cursor are the call [Env.iter_next]. *)
Lemma cursor_alone (e : Env.environ) (p : Z) :
  ∃ sched c,
    Forall (λ t, t = Cursor) sched ∧
    run_schedule sched (start e p) = Some c ∧
    (pos c, iter_at c) = ((Env.iter_next e p).1, IterDone (Env.iter_next e p).2) ∧
    store c = e ∧ mu c = mu (start e p).
Proof.
  unfold Env.iter_next.
  destruct (wrap32 (p + 1) >=? Z.of_nat (length (Env.keys e))) eqn:Hge.
  - exists [Cursor; Cursor]. eexists. split; [by repeat constructor|].
    cbn [run_schedule step step_iter start iter_at pos store]. rewrite Hge.
    split; [done|]. done.
  - exists [Cursor; Cursor; Cursor; Cursor; Cursor]. eexists.
    split; [by repeat constructor|].
    cbn [run_schedule step step_iter start iter_at pos store mu writer].
    rewrite Hge.
    cbn [run_schedule step step_iter start iter_at pos store mu writer].
    split; [done|]. cbn [pos iter_at store mu readers writer pred fst snd].
    split; [|done].
    by repeat case_match.
Qed.

(** Run alone on a well-formed store, a cursor that has been called fewer
    than [2^31] times does not read out of range. *)
Lemma cursor_alone_in_range (e : Env.environ) (p : Z) :
  Env.wf e → -1 ≤ p → p + 1 < 2 ^ 31 → (Env.iter_next e p).2 ≠ Panics.
Proof.
  intros Hwf Hlo Hhi. unfold Env.iter_next. rewrite wrap32_id by lia.
  destruct (p + 1 >=? Z.of_nat (length (Env.keys e))) eqn:Hge; [done|].
  rewrite Z.geb_leb in Hge. apply Z.leb_gt in Hge.
  unfold slice_at. replace (p + 1 <? 0) with false
    by (symmetry; apply Z.ltb_ge; lia).
  destruct (lookup_lt_is_Some_2 (Env.keys e) (Z.to_nat (p + 1))) as [k ->]; [lia|].
  destruct (lookup_lt_is_Some_2 (Env.values e) (Z.to_nat (p + 1))) as [v ->];
    [unfold Env.wf in Hwf; lia|].
  done.
Qed.

(** C9 fails on the code: the bound is checked before the read lock is
    taken and not again under it.  On the store [A=1] a fresh cursor
    computes index 0 and passes the check; [Clean] then runs from lock to
    unlock; the cursor takes the read lock and reads [e.keys[0]] of the nil
    slice, which is out of range. *)
Theorem iter_reads_out_of_range_after_Clean :
  ∃ c,
    run_schedule
      [Cursor; Cursor; Cleaner; Cleaner; Cleaner; Cleaner; Cursor; Cursor; Cursor]
      (start {| Env.keys := ["A"]; Env.values := ["1"] |} Env.iter) = Some c ∧
    iter_at c = IterDone Panics ∧ clean_at c = CleanDone ∧
    store c = Env.New.
Proof. eexists. split; [vm_compute; reflexivity|]. done. Qed.

End race.

(** ** The theorems at concrete inputs *)

Section witnesses.
Import Examples.

(** Two-element orders of iteration over a concrete map. *)
Local Ltac range_order := vm_compute; first [reflexivity | apply perm_swap].

Lemma store_A_empty_reachable : Env.reachable store_A_empty.
Proof.
  apply (Env.reachable_Save Env.New {[ "A" := EmptyString ]}); [constructor|].
  exists [("A", EmptyString)]. split; [by rewrite map_to_list_singleton|done].
Defined.

(** Saving [{"A": ""}] and looking ["A"] up: not found, yet it exists. *)
Lemma lookup_found_iff_nonempty_witness :
  Env.reachable store_A_empty ∧
  Env.lookup store_A_empty "A" = (EmptyString, false) ∧
  Env.exists_ store_A_empty "A" = true.
Proof.
  split; [exact store_A_empty_reachable|].
  destruct (lookup_found_iff_nonempty store_A_empty "A" store_A_empty_reachable)
    as (_ & Hempty & _ & _).
  apply Hempty. vm_compute. apply list_elem_of_here.
Defined.

(** Saving [{"A":"1"}] then [{"A":"2"}]: one entry, with value ["2"]. *)
Lemma key_uniqueness_invariant_witness :
  Env.reachable store_A_empty ∧
  NoDup (Env.keys store_A_empty) ∧
  ∀ e1 e2, Env.Save Env.New {[ "A" := "1" ]} e1 →
           Env.Save e1 {[ "A" := "2" ]} e2 →
           Env.keys e2 = ["A"] ∧ Env.values e2 = ["2"].
Proof.
  split; [exact store_A_empty_reachable|].
  destruct (key_uniqueness_invariant store_A_empty store_A_empty_reachable)
    as (Hnd & _ & _ & Hex).
  split; [exact Hnd|exact Hex].
Defined.

(** The view [Signed("CACHE", "BOOK")] on the store of the package
    documentation. *)
Lemma scoped_lookup_category_fallback_witness :
  Signer.lookup cache_book store_cache "DATABASE" = ("10", true) ∧
  Signer.lookup cache_book store_cache "DRIVER" = ("redis", true) ∧
  Signer.exists_ cache_book store_cache "DRIVER" = true.
Proof.
  destruct (scoped_lookup_category_fallback cache_book store_cache "DATABASE")
    as (_ & Hcat & _ & _).
  destruct (scoped_lookup_category_fallback cache_book store_cache "DRIVER")
    as (_ & Hcat' & _ & _).
  destruct (Hcat ltac:(done)) as [-> _].
  destruct (Hcat' ltac:(done)) as [-> ->].
  by vm_compute.
Defined.

Lemma scoped_iteration_exact_witness :
  Signer.drain 7 cache_book store_cache (Signer.iter cache_book) =
    Returns [("DATABASE", "10"); ("SCOPE", "app:books:")].
Proof.
  destruct (scoped_iteration_exact cache_book store_cache) as (_ & Hdrain & _).
  - done.
  - done.
  - etrans; [exact Hdrain|]. by vm_compute.
Defined.

Lemma duration_two_parse_paths_witness :
  Inner.Duration (Env.inner_of store_timeouts) "T" [] = 5000000000 ∧
  Inner.Duration (Env.inner_of store_timeouts) "U" [] = 5 ∧
  Inner.Duration (Env.inner_of store_timeouts) "PORT" [7] = 7.
Proof.
  destruct (duration_two_parse_paths (Env.inner_of store_timeouts) "T" [])
    as (_ & _ & _ & _ & Hs & _).
  destruct (duration_two_parse_paths (Env.inner_of store_timeouts) "U" [])
    as (_ & _ & _ & _ & _ & Hn & _).
  destruct (duration_two_parse_paths (Env.inner_of store_timeouts) "PORT" [7])
    as (_ & _ & Hfail & _).
  split_and!.
  - rewrite Hs; done.
  - rewrite Hn; done.
  - rewrite (Hfail "eighty"); done.
Defined.

Lemma cursor_single_pass_witness :
  Env.iter_calls [store_timeouts; store_timeouts; store_timeouts;
                  store_timeouts; store_timeouts] Env.iter =
    (4, [Returns ("T", "5s", true); Returns ("U", "5", true);
         Returns ("HOST", "localhost", true); Returns ("PORT", "eighty", true);
         Returns no_item]).
Proof.
  destruct (cursor_single_pass store_timeouts) as [Hrun _]; [done|done|].
  exact Hrun.
Defined.

Lemma InitWithDir_layered :
  Global.InitWithDir world_layered "/app" fresh_globals globals_layered
    (Returns None).
Proof.
  unfold Global.InitWithDir.
  cbn [world_layered Global.filepath_Abs Global.os_Environ].
  change (Global.environ_map _ _ ∅)
    with (Some (<["APP_ENV" := "Dev"]> (<["FOO" := "os"]> ∅) : gmap string string)).
  cbv iota zeta.
  exists {| Env.keys := ["APP_ENV"; "FOO"]; Env.values := ["Dev"; "os"] |}. split.
  { exists [("APP_ENV", "Dev"); ("FOO", "os")]. split; [|done].
    range_order. }
  exists {| Env.keys := ["APP_ENV"; "FOO"; "BAR"];
            Env.values := ["Dev"; "local"; "base"] |}, None. split.
  { exists {| Env.keys := ["APP_ENV"; "FOO"; "BAR"];
              Env.values := ["Dev"; "base"; "base"] |}, None. split.
    - split; [|done]. exists [("FOO", "base"); ("BAR", "base")].
      split; [|done]. range_order.
    - exists None. split; [|done]. split; [|done].
      exists [("FOO", "local")]. split; [|done]. range_order. }
  cbv iota. rewrite appEnv_nonempty.
  exists {| Env.keys := ["APP_ENV"; "FOO"; "BAR"; "BAZ"];
            Env.values := ["Dev"; "local"; "dev"; "dev"] |}, None.
  split; [|done].
  exists {| Env.keys := ["APP_ENV"; "FOO"; "BAR"; "BAZ"];
            Env.values := ["Dev"; "local"; "dev"; "dev"] |}, None. split.
  - split; [|done]. exists [("BAR", "dev"); ("BAZ", "dev")].
    split; [|done]. range_order.
  - exists (Some (Global.NotExist "/app/.env.dev.local")). split; [|done].
    done.
Defined.

(** [FOO] is defined by the process environment, [.env] and [.env.local]:
    the last one wins; [BAR] by [.env] and [.env.dev]. *)
Lemma layered_loading_later_wins_witness :
  Global.InitWithDir world_layered "/app" fresh_globals globals_layered
    (Returns None) ∧
  Global.Lookup globals_layered "FOO" = ("local", true) ∧
  Global.Lookup globals_layered "BAR" = ("dev", true).
Proof.
  split; [exact InitWithDir_layered|].
  destruct (layered_loading_later_wins world_layered "/app" fresh_globals
              globals_layered InitWithDir_layered) as (result & Hres & Hkeys).
  injection Hres as <-. cbv zeta in Hkeys.
  split.
  - rewrite (proj2 (Hkeys "FOO")). by vm_compute.
  - rewrite (proj2 (Hkeys "BAR")). by vm_compute.
Defined.

Lemma InitWithDir_malformed :
  Global.InitWithDir world_malformed "/app" globals_layered fresh_globals
    (Returns (Some (Global.OtherError "unexpected character in variable name"))).
Proof.
  unfold Global.InitWithDir.
  cbn [world_malformed Global.filepath_Abs Global.os_Environ].
  change (Global.environ_map _ _ ∅)
    with (Some (<["APP_ENV" := "Dev"]> (<["FOO" := "os"]> ∅) : gmap string string)).
  cbv iota zeta.
  exists {| Env.keys := ["APP_ENV"; "FOO"]; Env.values := ["Dev"; "os"] |}. split.
  { exists [("APP_ENV", "Dev"); ("FOO", "os")]. split; [|done].
    range_order. }
  eexists _, _. split.
  - eexists _, _. split; [by split|]. cbn [Global.goes_on Global.is_not_exist].
    done.
  - done.
Defined.

(** A malformed [.env]: the call fails, [Path()] is empty and nothing is
    found. *)
Lemma init_rollback_after_resolution_witness :
  Global.Path world_malformed fresh_globals [] = EmptyString ∧
  ∀ name, Global.Lookup fresh_globals name = (EmptyString, false).
Proof.
  destruct (init_rollback_after_resolution world_malformed "/app"
              globals_layered fresh_globals _ InitWithDir_malformed)
    as (Hfail & _ & _).
  destruct (Hfail _ eq_refl eq_refl) as (_ & _ & Hpath & Hlookup).
  split; [exact Hpath|exact Hlookup].
Defined.

(** [Host], [Limits.U] and [Server.T] are assigned, the conversion of
    [Server.Port] fails inside the struct behind the pointer; the three
    assignments stay, [Server.Name] and [Alias] are not reached. *)
Lemma Fill_keeps_assignments_on_error_witness :
  ∃ s', Inner.Fill cast_config (Env.inner_of store_timeouts)
          (Inner.PtrToStruct (Some config)) =
        Returns (Inner.PtrToStruct (Some s'),
                 Some (Inner.CannotSet "Port" "invalid syntax")) ∧
        Inner.tagged_fields s' =
          [config_field "Host" "HOST" CString (SString "localhost");
           config_field "U" "U" CInt (SInt 5);
           config_field "T" "T" CString (SString "5s")] ++
          config_field "Port" "PORT" CInt (SInt 0) ::
          [config_field "Name" "NAME" CString (SString "old");
           config_field "Alias" "HOST" CString (SString EmptyString)] ∧
        Inner.frame s' = Inner.frame config.
Proof.
  apply (Fill_keeps_assignments_on_error cast_config
           (Env.inner_of store_timeouts) config
           [config_field "Host" "HOST" CString (SString EmptyString);
            config_field "U" "U" CInt (SInt 0);
            config_field "T" "T" CString (SString EmptyString)]).
  - reflexivity.
  - repeat first [apply Forall2_nil_2 | apply Forall2_cons_2];
      by apply Inner.assigned_set.
  - by vm_compute.
  - reflexivity.
Defined.

End witnesses.

(** * Further properties of the package *)

(** ** [Save] twice *)

Section save_again.
Import Env.

Lemma Save_entry_same (e : environ) (k v : string) :
  wf e → to_map e !! k = Some v → Save_entry e (k, v) = e.
Proof.
  intros Hwf Hkv. unfold Save_entry, to_map, index in *. cbn [fst snd].
  destruct (index_from_spec (keys e) (values e) k 0 Hwf)
    as [(_ & _ & Hm)|(n & Hi & _ & _ & Hm)]; [congruence|].
  rewrite Hi. replace (0 + Z.of_nat n >? -1) with true
    by (symmetry; apply Z.gtb_lt; lia).
  replace (Z.to_nat (0 + Z.of_nat n)) with n by lia.
  rewrite list_insert_id by congruence. by destruct e.
Qed.

Lemma Save_range_same (e : environ) (l : list (string * string)) :
  wf e → (∀ k v, (k, v) ∈ l → to_map e !! k = Some v) → Save_range e l = e.
Proof.
  intros Hwf. unfold Save_range. induction l as [|[k v] l IH]; intros Hl; [done|].
  cbn [foldl]. rewrite Save_entry_same; [|done|apply Hl; left].
  apply IH. intros k' v' Hin. apply Hl. by right.
Qed.

(** X1.  Saving the same map a second time changes nothing: neither the
    keys, nor their order, nor any value, whatever the two orders of
    iteration over the map. *)
Theorem Save_idempotent (e e1 e2 : environ) (data : gmap string string) :
  wf e → Save e data e1 → Save e1 data e2 → e2 = e1.
Proof.
  intros Hwf HS1 (l & Hl & ->).
  pose proof (Save_wf _ _ _ Hwf HS1) as Hwf1.
  pose proof (Save_to_map _ _ _ Hwf HS1) as Hm.
  apply Save_range_same; [done|].
  intros k v Hin. rewrite Hl in Hin. apply elem_of_map_to_list in Hin.
  rewrite Hm. by apply lookup_union_Some_l.
Qed.

(** X19.  [Save(data)] touches the keys of [data] only: every other key is
    looked up, and exists, exactly as before. *)
Theorem Save_leaves_other_keys (e e' : environ) (data : gmap string string)
    (key : string) :
  wf e → Save e data e' → data !! key = None →
  lookup e' key = lookup e key ∧ exists_ e' key = exists_ e key.
Proof.
  intros Hwf HS Hkey. pose proof (Save_wf _ _ _ Hwf HS) as Hwf'.
  rewrite !lookup_to_map, !exists_to_map by done.
  rewrite (Save_to_map e e' data) by done.
  by rewrite lookup_union_r.
Qed.

End save_again.

(** ** [Where], [Map] and [All] *)

Section loops.
Import Inner.
Context {C : Type}.
Variable next : C → C * run item.

Lemma Where_loop_yields (filter : string → string → bool)
    (l : list (string * string)) :
  ∀ (c : C) (fuel : nat) (result : gmap string string),
    yields next c l → (length l < fuel)%nat →
    Where_loop next fuel filter c result =
      Returns (foldl (λ acc kv, if filter kv.1 kv.2
                                then <[kv.1 := kv.2]> acc else acc) result l).
Proof.
  induction l as [|[k v] l IH]; intros c fuel result Hy Hfuel;
    (destruct fuel as [|fuel]; [simpl in Hfuel; lia|]); cbn [Where_loop].
  - destruct Hy as (c' & k & v & ->). done.
  - destruct Hy as (c' & -> & Hy). cbn [negb foldl fst snd].
    apply IH; [done|simpl in Hfuel; lia].
Qed.

Lemma Map_loop_yields (trim : string → string) (p : string)
    (l : list (string * string)) :
  ∀ (c : C) (fuel : nat) (result : gmap string string),
    yields next c l → (length l < fuel)%nat →
    Map_loop next trim fuel p c result =
      Returns (foldl (λ acc kv, if strings_HasPrefix kv.1 p
                                then <[strings_TrimPrefix kv.1 p := trim kv.2]> acc
                                else acc) result l).
Proof.
  induction l as [|[k v] l IH]; intros c fuel result Hy Hfuel;
    (destruct fuel as [|fuel]; [simpl in Hfuel; lia|]); cbn [Map_loop].
  - destruct Hy as (c' & k & v & ->). done.
  - destruct Hy as (c' & -> & Hy). cbn [negb foldl fst snd].
    apply IH; [done|simpl in Hfuel; lia].
Qed.

End loops.

Section fold_facts.

Lemma foldl_where_lookup (filter : string → string → bool)
    (l : list (string * string)) :
  NoDup l.*1 →
  ∀ (acc : gmap string string) (k : string),
    foldl (λ acc kv, if filter kv.1 kv.2 then <[kv.1 := kv.2]> acc else acc)
          acc l !! k =
      match (list_to_map l : gmap string string) !! k with
      | Some v => if filter k v then Some v else acc !! k
      | None => acc !! k
      end.
Proof.
  induction l as [|[k0 v0] l IH]; intros Hnd acc k; [done|].
  apply NoDup_cons in Hnd as [Hk0 Hnd]. cbn [foldl fst snd list_to_map foldr].
  rewrite IH by done. cbn [uncurry fst snd].
  destruct (decide (k = k0)) as [->|Hne].
  - rewrite lookup_insert_eq.
    rewrite (not_elem_of_list_to_map_1 _ _ Hk0).
    destruct (filter k0 v0); [by rewrite lookup_insert_eq|done].
  - rewrite lookup_insert_ne by done.
    assert ((if filter k0 v0 then <[k0 := v0]> acc else acc) !! k = acc !! k)
      as ->; [|done].
    destruct (filter k0 v0); [by rewrite lookup_insert_ne|done].
Qed.

Lemma foldl_map_lookup (trim : string → string) (p : string)
    (l : list (string * string)) :
  NoDup l.*1 →
  ∀ (acc : gmap string string) (name : string),
    foldl (λ (acc : gmap string string) (kv : string * string),
             if strings_HasPrefix kv.1 p
             then <[strings_TrimPrefix kv.1 p := trim kv.2]> acc else acc)
          acc l !! name =
      match (list_to_map l : gmap string string) !! (p +:+ name) with
      | Some v => Some (trim v)
      | None => acc !! name
      end.
Proof.
  induction l as [|[k0 v0] l IH]; intros Hnd acc name; [done|].
  apply NoDup_cons in Hnd as [Hk0 Hnd]. cbn [foldl fst snd list_to_map foldr].
  rewrite IH by done. cbn [uncurry fst snd].
  destruct (decide (p +:+ name = k0)) as [<-|Hne].
  - rewrite lookup_insert_eq.
    rewrite (not_elem_of_list_to_map_1 _ _ Hk0).
    destruct (HasPrefix_app p name) as [-> ->]. by rewrite lookup_insert_eq.
  - rewrite lookup_insert_ne by done.
    destruct (list_to_map l !! (p +:+ name)); [done|].
    destruct (strings_HasPrefix k0 p) eqn:Hp; [|done].
    rewrite lookup_insert_ne; [done|].
    intros <-. apply Hne. symmetry. by apply HasPrefix_split.
Qed.

End fold_facts.

Section store_loops.
Import Env.

Lemma iter_yields (e : environ) (rest : list (string * string)) :
  wf e → Z.of_nat (length (keys e)) < 2 ^ 31 →
  ∀ i : nat, (i ≤ length (keys e))%nat →
    drop i (zip (keys e) (values e)) = rest →
    Inner.yields (iter_next e) (Z.of_nat i - 1) rest.
Proof.
  intros Hwf Hsize. induction rest as [|[k v] rest IH]; intros i Hle Hdrop.
  - assert (length (zip (keys e) (values e)) ≤ i)%nat as Hi.
    { apply (f_equal length) in Hdrop. rewrite length_drop in Hdrop.
      simpl in Hdrop. lia. }
    rewrite length_zip in Hi. unfold wf in Hwf.
    cbn [Inner.yields]. eexists _, _, _.
    apply iter_next_exhausted. lia.
  - assert (Hkv : zip (keys e) (values e) !! i = Some (k, v)).
    { pose proof (lookup_drop (zip (keys e) (values e)) i 0) as Hl.
      rewrite Hdrop in Hl. rewrite Nat.add_0_r in Hl. done. }
    apply lookup_zip_Some in Hkv as [Hk Hv].
    cbn [Inner.yields]. exists (Z.of_nat i). split.
    + by apply iter_next_yield.
    + replace (Z.of_nat i) with (Z.of_nat (S i) - 1) by lia. apply IH.
      * apply lookup_lt_Some in Hk. lia.
      * replace (S i) with (i + 1)%nat by lia. by rewrite <- drop_drop, Hdrop.
Qed.

Lemma Where_fold (e : environ) (f : string → string → bool) :
  wf e → Z.of_nat (length (keys e)) < 2 ^ 31 →
  Where e f =
    Returns (foldl (λ (acc : gmap string string) (kv : string * string),
                      if f kv.1 kv.2 then <[kv.1 := kv.2]> acc else acc)
                   ∅ (zip (keys e) (values e))).
Proof.
  intros Hwf Hsize. unfold Where. apply Where_loop_yields.
  - change iter with (Z.of_nat 0 - 1). apply iter_yields; [done|done|lia|done].
  - rewrite length_zip. lia.
Qed.

Lemma where_fold_spec (e : environ) (f : string → string → bool) (k v : string) :
  wf e → NoDup (keys e) →
  foldl (λ (acc : gmap string string) (kv : string * string),
           if f kv.1 kv.2 then <[kv.1 := kv.2]> acc else acc)
        ∅ (zip (keys e) (values e)) !! k = Some v ↔
  (k, v) ∈ zip (keys e) (values e) ∧ f k v = true.
Proof.
  intros Hwf Hnd.
  assert (Hfst : (zip (keys e) (values e)).*1 = keys e).
  { apply fst_zip. unfold wf in Hwf. lia. }
  rewrite foldl_where_lookup by by rewrite Hfst.
  rewrite (elem_of_list_to_map (M := gmap string)) by by rewrite Hfst.
  rewrite lookup_empty.
  destruct (list_to_map (zip (keys e) (values e)) !! k) as [v'|] eqn:Hk.
  - destruct (f k v') eqn:Hf; split.
    + intros [= ->]. done.
    + intros [[= ->] _]. done.
    + done.
    + intros [[= ->] ?]. congruence.
  - split; [done|]. by intros [? _].
Qed.

Lemma All_to_map (e : environ) :
  wf e → NoDup (keys e) → Z.of_nat (length (keys e)) < 2 ^ 31 →
  All e = Returns (to_map e).
Proof.
  intros Hwf Hnd Hsize. unfold All. rewrite Where_fold by done. f_equal.
  apply map_eq. intros k. apply option_eq. intros v.
  etrans; [apply (where_fold_spec e (λ _ _, true) k v Hwf Hnd)|].
  unfold to_map.
  rewrite (elem_of_list_to_map (M := gmap string)); [tauto|].
  rewrite fst_zip; [done|]. unfold wf in Hwf. lia.
Qed.

(** X2.  On a store built by [New], [Save] and [Clean] (of fewer than
    [2^31] entries), [Where(filter)] returns, without panic, the map of
    exactly the stored pairs that [filter] accepts, with their stored
    values; [All()] returns the whole store. *)
Theorem Where_selects_stored_pairs (e : environ)
    (filter : string → string → bool) :
  reachable e → Z.of_nat (length (keys e)) < 2 ^ 31 →
  (∃ m, Where e filter = Returns m ∧
     ∀ k v, m !! k = Some v ↔
       (k, v) ∈ zip (keys e) (values e) ∧ filter k v = true) ∧
  (∃ m, All e = Returns m ∧
     ∀ k v, m !! k = Some v ↔ (k, v) ∈ zip (keys e) (values e)).
Proof.
  intros Hr Hsize. pose proof (reachable_wf e Hr) as Hwf.
  pose proof (reachable_NoDup e Hr) as Hnd.
  split.
  - eexists. split; [by apply Where_fold|]. intros k v. by apply where_fold_spec.
  - eexists. split; [by apply Where_fold|]. intros k v.
    etrans; [apply (where_fold_spec e (λ _ _, true) k v Hwf Hnd)|]. tauto.
Qed.

(** X3.  [All()] after [Save(data)] is [data] laid over what [All()] gave
    before: the saved pairs, and the earlier pairs whose key [data] does not
    have.  After [Save(data)] on an empty store, [All()] gives [data] back. *)
Theorem All_after_Save (e e' : environ) (data : gmap string string) :
  reachable e → Save e data e' → Z.of_nat (length (keys e')) < 2 ^ 31 →
  ∃ m, All e = Returns m ∧ All e' = Returns (data ∪ m) ∧
       (keys e = [] → All e' = Returns data).
Proof.
  intros Hr HS Hsize. pose proof (reachable_wf e Hr) as Hwf.
  pose proof (reachable_NoDup e Hr) as Hnd.
  pose proof (Save_wf _ _ _ Hwf HS) as Hwf'.
  pose proof (Save_NoDup _ _ _ Hnd HS) as Hnd'.
  assert (Hle : (length (keys e) ≤ length (keys e'))%nat).
  { destruct HS as (l & _ & ->). by apply prefix_length, Save_range_prefix. }
  exists (to_map e). split_and!.
  - apply All_to_map; [done|done|lia].
  - rewrite All_to_map by done. by rewrite (Save_to_map e e' data).
  - intros Hempty. rewrite All_to_map by done.
    rewrite (Save_to_map e e' data) by done. unfold to_map. rewrite Hempty.
    cbn [zip zip_with list_to_map foldr]. by rewrite (right_id_L ∅ (∪)).
Qed.

(** X4.  On a store built by [New], [Save] and [Clean], [Map(prefix)] has
    an entry for [name] exactly when the key [prefix + name] is stored, and
    its value is the stored value trimmed; keys that do not start with
    [prefix] contribute nothing. *)
Theorem Map_strips_prefix (trim : string → string) (e : environ) (p : string) :
  reachable e → Z.of_nat (length (keys e)) < 2 ^ 31 →
  ∃ m, Map trim e p = Returns m ∧
       ∀ name, m !! name = trim <$> to_map e !! (p +:+ name).
Proof.
  intros Hr Hsize. pose proof (reachable_wf e Hr) as Hwf.
  pose proof (reachable_NoDup e Hr) as Hnd.
  eexists. split.
  - unfold Map. apply (Map_loop_yields _ trim p (zip (keys e) (values e))).
    + change iter with (Z.of_nat 0 - 1). apply iter_yields; [done|done|lia|done].
    + rewrite length_zip. lia.
  - intros name. rewrite foldl_map_lookup.
    + unfold to_map. by destruct (list_to_map _ !! _).
    + rewrite fst_zip; [done|]. unfold wf in Hwf. lia.
Qed.

End store_loops.

Section view_loops.
Import Signer.
Variable s : signer.
Variable e : Env.environ.
Hypothesis Hwf : Env.wf e.
Hypothesis Hsize : Z.of_nat (length (Env.keys e)) < 2 ^ 31.

Let entries : list (string * string) := zip (Env.keys e) (Env.values e).
Let p : string := full_prefix (iter s).
Let has (kv : string * string) : Prop := strings_HasPrefix kv.1 p = true.
Let strip (kv : string * string) : string * string :=
  (strings_TrimPrefix kv.1 p, kv.2).

(** The cursor of a view yields the entries under its full prefix, stripped,
    and then reports the end. *)
Lemma cursor_yields (n : nat) :
  ∀ (rest : list (string * string)) (i : nat) (c : cursor),
    (length rest ≤ n)%nat →
    drop i entries = rest → (i ≤ length entries)%nat →
    next c = Some (Z.of_nat i - 1) → full_prefix c = p →
    Inner.yields (cursor_next s e) c (strip <$> filter has rest).
Proof.
  unfold has, strip, p, entries.
  induction n as [|n IH]; intros rest i c Hn Hdrop Hi Hnext Hc.
  all: destruct (next_loop_spec s e Hwf Hsize rest i c (S (length (Env.keys e)))
                   Hdrop Hi) as (c' & r & Hrun & Hp' & Hres);
         [apply (f_equal length) in Hdrop;
          rewrite length_drop, length_zip in Hdrop; lia|done|].
  all: destruct Hres as [(j & kv & Hj & Hkvh & Hpre & -> & Hn')|(Hall & -> & Hn')].
  - apply lookup_lt_Some in Hj. lia.
  - rewrite (filter_no_match s _ Hall). cbn [fmap list_fmap Inner.yields].
    exists c', EmptyString, EmptyString. unfold cursor_next. by rewrite Hnext.
  - pose proof (lookup_lt_Some _ _ _ Hj) as Hjlt.
    rewrite (filter_first_match s rest j kv) by done.
    cbn [fmap list_fmap]. destruct kv as [k v]. cbn [Inner.yields fst snd].
    exists c'. split; [unfold cursor_next; by rewrite Hnext|].
    apply (IH (drop (S j) rest) (i + S j)%nat c').
    + rewrite length_drop. lia.
    + by rewrite <- Hdrop, drop_drop.
    + apply (f_equal length) in Hdrop. rewrite length_drop in Hdrop. lia.
    + rewrite Hn'. f_equal. lia.
    + done.
  - rewrite (filter_no_match s _ Hall). cbn [fmap list_fmap Inner.yields].
    exists c', EmptyString, EmptyString. unfold cursor_next. by rewrite Hnext.
Qed.

Lemma stripped_entries (l : list (string * string)) :
  NoDup l.*1 →
  NoDup (strip <$> filter has l).*1 ∧
  ∀ name, (list_to_map (strip <$> filter has l) : gmap string string) !! name =
          (list_to_map l : gmap string string) !! (p +:+ name).
Proof.
  induction l as [|[k v] l IH]; intros Hnd.
  { split; [constructor|done]. }
  apply NoDup_cons in Hnd as [Hk Hnd]. destruct (IH Hnd) as [IHnd IHm].
  destruct (strings_HasPrefix k p) eqn:Hp.
  - rewrite filter_cons_True by done. cbn [fmap list_fmap strip fst snd].
    pose proof (HasPrefix_split k p Hp) as Hsplit.
    split.
    + cbn [fmap list_fmap fst]. apply NoDup_cons. split; [|done].
      intros Hin%(not_elem_of_list_to_map_2 (M := gmap string)).
      * done.
      * rewrite IHm, <- Hsplit. by apply not_elem_of_list_to_map_1.
    + intros name. cbn [list_to_map foldr uncurry fst snd].
      destruct (decide (strings_TrimPrefix k p = name)) as [<-|Hne].
      * by rewrite <- Hsplit, !lookup_insert_eq.
      * rewrite !lookup_insert_ne; [apply IHm| |done].
        intros ->. apply Hne. by destruct (HasPrefix_app p name) as [_ ->].
  - rewrite filter_cons_False by (unfold has; simpl; congruence).
    split; [done|]. intros name. cbn [list_to_map foldr uncurry fst snd].
    rewrite lookup_insert_ne; [apply IHm|].
    intros ->. destruct (HasPrefix_app p name) as [Hp' _]. congruence.
Qed.

End view_loops.

Section view_claims.
Import Signer.

Lemma scoped_key_full_prefix (s : signer) (name : string) :
  scoped_key s (category s) name = full_prefix (iter s) +:+ name.
Proof.
  unfold scoped_key, iter. cbn [full_prefix].
  destruct (nonempty (prefix s)) eqn:Hp, (nonempty (category s)) eqn:Hc;
    rewrite ?string_app_assoc; try done.
  all: apply nonempty_false in Hp; by rewrite Hp.
Qed.

Lemma view_Where_fold (s : signer) (e : Env.environ)
    (f : string → string → bool) :
  Env.wf e → Z.of_nat (length (Env.keys e)) < 2 ^ 31 →
  Where s e f =
    Returns (foldl (λ (acc : gmap string string) (kv : string * string),
                      if f kv.1 kv.2 then <[kv.1 := kv.2]> acc else acc) ∅
               ((λ kv, (strings_TrimPrefix kv.1 (full_prefix (iter s)), kv.2)) <$>
                filter (λ kv, strings_HasPrefix kv.1 (full_prefix (iter s)) = true)
                       (zip (Env.keys e) (Env.values e)))).
Proof.
  intros Hwf Hsize. unfold Where. apply Where_loop_yields.
  - apply (cursor_yields s e Hwf Hsize
             (length (zip (Env.keys e) (Env.values e)))
             (zip (Env.keys e) (Env.values e)) 0%nat); try done. lia.
  - rewrite length_fmap. apply Nat.lt_succ_r.
    etrans; [apply length_filter|]. rewrite length_zip. lia.
Qed.

(** X5.  On a store built by [New], [Save] and [Clean], [Where(filter)] of
    a view has an entry [name] exactly when the key made of the full scoped
    prefix and [name] is stored and [filter] accepts [name] with the stored
    value: the filter sees the stripped key, and the result is keyed by it. *)
Theorem view_Where_selects_scoped_pairs (s : signer) (e : Env.environ)
    (filter : string → string → bool) :
  Env.reachable e → Z.of_nat (length (Env.keys e)) < 2 ^ 31 →
  ∃ m, Where s e filter = Returns m ∧
       ∀ name v, m !! name = Some v ↔
         (full_prefix (iter s) +:+ name, v) ∈ zip (Env.keys e) (Env.values e) ∧
         filter name v = true.
Proof.
  intros Hr Hsize. pose proof (reachable_wf e Hr) as Hwf.
  pose proof (reachable_NoDup e Hr) as Hnd.
  assert (Hfst : (zip (Env.keys e) (Env.values e)).*1 = Env.keys e).
  { apply fst_zip. unfold Env.wf in Hwf. lia. }
  destruct (stripped_entries s (zip (Env.keys e) (Env.values e)))
    as [HndL HmL]; [by rewrite Hfst|].
  eexists. split; [by apply view_Where_fold|]. intros name v.
  rewrite foldl_where_lookup by done. rewrite HmL, lookup_empty.
  rewrite (elem_of_list_to_map (M := gmap string)) by by rewrite Hfst.
  destruct (list_to_map _ !! _) as [v'|].
  - destruct (filter name v') eqn:Hf; split.
    + intros [= ->]. done.
    + intros [[= ->] _]. done.
    + done.
    + intros [[= ->] ?]. congruence.
  - split; [done|]. by intros [? _].
Qed.

(** X6.  What a view lists, it finds: every [name] in the [Where] of a view
    exists for the view, and is looked up with the listed value when that
    value is not empty.  The converse fails by design of the fallback: with
    a non-empty category, a name whose key under prefix and category is not
    stored is never listed, although [lookup] may find it under the prefix
    alone. *)
Theorem view_listing_agrees_with_lookup (s : signer) (e : Env.environ)
    (m : gmap string string) (name : string) :
  Env.reachable e → Z.of_nat (length (Env.keys e)) < 2 ^ 31 →
  Where s e (λ _ _, true) = Returns m →
  (∀ v, m !! name = Some v →
     exists_ s e name = true ∧
     (v ≠ EmptyString → lookup s e name = (v, true))) ∧
  (Env.exists_ e (scoped_key s (category s) name) = false →
     m !! name = None ∧
     lookup s e name =
       (if nonempty (category s)
        then Env.lookup e (scoped_key s EmptyString name)
        else (EmptyString, false))).
Proof.
  intros Hr Hsize Hrun. pose proof (reachable_wf e Hr) as Hwf.
  pose proof (reachable_NoDup e Hr) as Hnd.
  assert (Hfst : (zip (Env.keys e) (Env.values e)).*1 = Env.keys e).
  { apply fst_zip. unfold Env.wf in Hwf. lia. }
  destruct (stripped_entries s (zip (Env.keys e) (Env.values e)))
    as [HndL HmL]; [by rewrite Hfst|].
  rewrite view_Where_fold in Hrun by done. injection Hrun as <-.
  assert (Hm : ∀ n,
    foldl (λ (acc : gmap string string) (kv : string * string),
             if true then <[kv.1 := kv.2]> acc else acc) ∅
      ((λ kv, (strings_TrimPrefix kv.1 (full_prefix (iter s)), kv.2)) <$>
       filter (λ kv, strings_HasPrefix kv.1 (full_prefix (iter s)) = true)
              (zip (Env.keys e) (Env.values e))) !! n =
    Env.to_map e !! scoped_key s (category s) n).
  { intros n. rewrite (foldl_where_lookup (λ _ _, true)) by done.
    rewrite HmL, lookup_empty, scoped_key_full_prefix. unfold Env.to_map.
    by destruct (list_to_map _ !! _). }
  split.
  - intros v Hv. rewrite Hm in Hv.
    unfold exists_, lookup, exists2_, lookup2, Inner.Exists, Inner.Lookup.
    cbn [Inner.exists_ Inner.lookup Env.inner_of].
    rewrite exists_to_map, lookup_to_map, Hv by done.
    rewrite bool_decide_eq_true_2 by done. split; [done|].
    intros Hne. destruct v; [done|]. done.
  - intros Hex. rewrite exists_to_map in Hex by done.
    apply bool_decide_eq_false in Hex.
    assert (Env.to_map e !! scoped_key s (category s) name = None) as Hnone.
    { by apply eq_None_not_Some. }
    split; [by rewrite Hm|].
    unfold lookup, lookup2, Inner.Lookup. cbn [Inner.lookup Env.inner_of].
    rewrite (lookup_to_map e (scoped_key s (category s) name)), Hnone by done.
    cbn [orb]. by destruct (nonempty (category s)).
Qed.

(** X7.  A view with empty prefix and empty category is the store itself:
    same [lookup], same [exists], and the same [Where]. *)
Theorem empty_view_is_the_store (s : signer) (e : Env.environ) :
  prefix s = EmptyString → category s = EmptyString →
  (∀ key, lookup s e key = Env.lookup e key ∧
          exists_ s e key = Env.exists_ e key) ∧
  (Env.wf e → Z.of_nat (length (Env.keys e)) < 2 ^ 31 →
   ∀ filter, Where s e filter = Env.Where e filter).
Proof.
  intros Hp Hc. split.
  - intros key. unfold lookup, exists_, lookup2, exists2_, scoped_key.
    rewrite Hp, Hc. cbn [nonempty String.eqb negb orb].
    unfold Inner.Lookup, Inner.Exists. cbn [Inner.lookup Inner.exists_ Env.inner_of].
    split; [by destruct (Env.lookup e key) as [v []]|].
    by destruct (Env.exists_ e key).
  - intros Hwf Hsize filter.
    rewrite view_Where_fold, Where_fold by done. do 2 f_equal.
    assert (full_prefix (iter s) = EmptyString) as ->.
    { unfold iter. cbn [full_prefix]. by rewrite Hp, Hc. }
    induction (zip (Env.keys e) (Env.values e)) as [|[k v] l IH]; [done|].
    rewrite filter_cons_True by by destruct k.
    cbn [fmap list_fmap fst snd]. f_equal; [|exact IH].
    unfold strings_TrimPrefix, strings_HasPrefix. by destruct k.
Qed.

(** X17.  What a view finds, exists for it, is not empty, and is the
    value stored under the category key or, failing that, under the prefix
    key. *)
Theorem view_found_implies_exists (s : signer) (e : Env.environ)
    (key v : string) :
  lookup s e key = (v, true) →
  exists_ s e key = true ∧ v ≠ EmptyString ∧
  (Env.lookup e (scoped_key s (category s) key) = (v, true) ∨
   (category s ≠ EmptyString ∧
    (Env.lookup e (scoped_key s (category s) key)).2 = false ∧
    Env.lookup e (scoped_key s EmptyString key) = (v, true))).
Proof.
  assert (Hfound : ∀ k x, Env.lookup e k = (x, true) →
            Env.exists_ e k = true ∧ x ≠ EmptyString).
  { intros k x. unfold Env.lookup, Env.exists_.
    destruct (Env.index e k >? -1); [|done].
    intros [= <- Hlen]. split; [done|]. intros Hx. by rewrite Hx in Hlen. }
  unfold lookup, exists_, lookup2, exists2_, Inner.Lookup, Inner.Exists.
  cbn [Inner.lookup Inner.exists_ Env.inner_of].
  destruct (Env.lookup e (scoped_key s (category s) key)) as [x found] eqn:Hcat.
  destruct found; cbn [orb].
  - intros [= ->]. destruct (Hfound _ _ Hcat) as [-> Hne]. by split_and!; [| |left].
  - destruct (nonempty (category s)) eqn:Hc; cbn [negb]; [|done].
    intros Hfb. destruct (Hfound _ _ Hfb) as [Hex Hne]. rewrite Hex.
    split_and!; [by destruct (Env.exists_ e (scoped_key s (category s) key))|done|].
    right. by rewrite nonempty_true in Hc.
Qed.

(** X18.  On a store built by [New], [Save] and [Clean], [Map(q)] of a view
    has an entry for [name] exactly when the key made of the full scoped
    prefix, [q] and [name] is stored, with the stored value trimmed. *)
Theorem view_Map_strips_both_prefixes (trim : string → string)
    (s : signer) (e : Env.environ) (q : string) :
  Env.reachable e → Z.of_nat (length (Env.keys e)) < 2 ^ 31 →
  ∃ m, Map trim s e q = Returns m ∧
       ∀ name, m !! name =
               trim <$> Env.to_map e !! (full_prefix (iter s) +:+ (q +:+ name)).
Proof.
  intros Hr Hsize. pose proof (reachable_wf e Hr) as Hwf.
  pose proof (reachable_NoDup e Hr) as Hnd.
  assert (Hfst : (zip (Env.keys e) (Env.values e)).*1 = Env.keys e).
  { apply fst_zip. unfold Env.wf in Hwf. lia. }
  destruct (stripped_entries s (zip (Env.keys e) (Env.values e)))
    as [HndL HmL]; [by rewrite Hfst|].
  eexists. split.
  - unfold Map.
    apply (Map_loop_yields _ trim q
             ((λ kv, (strings_TrimPrefix kv.1 (full_prefix (iter s)), kv.2)) <$>
              filter (λ kv, strings_HasPrefix kv.1 (full_prefix (iter s)) = true)
                     (zip (Env.keys e) (Env.values e)))).
    + apply (cursor_yields s e Hwf Hsize
               (length (zip (Env.keys e) (Env.values e)))
               (zip (Env.keys e) (Env.values e)) 0%nat); try done. lia.
    + rewrite length_fmap. apply Nat.lt_succ_r.
      etrans; [apply length_filter|]. rewrite length_zip. lia.
  - intros name. rewrite foldl_map_lookup by done. rewrite HmL.
    unfold Env.to_map. by destruct (list_to_map _ !! _).
Qed.

End view_claims.

(** ** Loading and initialisation: errors and edge cases *)

Section loading.
Import Global.
Variable w : World.

(** X8.  [loadEnv] returns the first error that is not "file does not
    exist".  When the base file fails so, nothing is loaded and the
    [.local] file is not looked at; when only the [.local] file fails so,
    the base file stays loaded in the store; otherwise it returns nil. *)
Theorem loadEnv_first_real_error (dir suffix : string) (e e' : Env.environ)
    (err : option error) :
  Env.wf e → loadEnv w dir suffix e e' err →
  let base := filepath_Join w [dir; ".env" +:+ suffix] in
  let err1 := (godotenv_Read w [base]).2 in
  let err2 := (godotenv_Read w [base +:+ ".local"]).2 in
  (goes_on err1 = false → err = err1 ∧ e' = e) ∧
  (goes_on err1 = true → goes_on err2 = false →
     err = err2 ∧ Env.to_map e' = file_map w base ∪ Env.to_map e) ∧
  (goes_on err1 = true → goes_on err2 = true → err = None).
Proof.
  intros Hwf (e1 & r1 & HL1 & Hrest). cbv zeta.
  destruct (Load_spec w _ _ _ _ Hwf HL1) as (Hwf1 & -> & Hm1 & Hsame1).
  destruct (goes_on (godotenv_Read w _).2) eqn:Hgo1.
  - destruct Hrest as (r2 & HL2 & ->).
    destruct (Load_spec w _ _ _ _ Hwf1 HL2) as (Hwf2 & -> & Hm2 & Hsame2).
    split_and!; [done| |].
    + intros _ Hgo2. rewrite Hgo2. split; [done|].
      rewrite Hsame2; [done|]. intros Hnil. by rewrite Hnil in Hgo2.
    + intros _ Hgo2. by rewrite Hgo2.
  - destruct Hrest as [-> ->]. split_and!; [|done|done].
    intros _. split; [done|]. apply Hsame1.
    intros Hnil. by rewrite Hnil in Hgo1.
Qed.

Lemma cut_eq_Some (s a b : string) :
  cut_eq s = Some (a, b) → s = a +:+ ("=" +:+ b).
Proof.
  revert a. induction s as [|c s IH]; intros a H; [done|]. cbn [cut_eq] in H.
  destruct (Ascii.eqb_spec c "="%char) as [->|Hne].
  - by simplify_eq.
  - destruct (cut_eq s) as [[a' b']|]; [|done]. simplify_eq.
    change (String c s = String c (a' +:+ ("=" +:+ b))). f_equal. by apply IH.
Qed.

Lemma cut_eq_app (a b : string) : cut_eq (a +:+ ("=" +:+ b)) ≠ None.
Proof.
  induction a as [|c a IH]; [done|].
  change (cut_eq (String c (a +:+ ("=" +:+ b))) ≠ None). cbn [cut_eq].
  destruct (Ascii.eqb c "="%char); [done|].
  by destruct (cut_eq (a +:+ ("=" +:+ b))) as [[? ?]|].
Qed.

Lemma environ_map_None (l : list string) :
  ∀ result, environ_map w l result = None ↔ ∃ entry, entry ∈ l ∧ cut_eq entry = None.
Proof.
  induction l as [|entry l IH]; intros result; cbn [environ_map].
  - split; [done|]. by intros (? & ?%elem_of_nil & _).
  - unfold strings_SplitN_eq_2.
    destruct (cut_eq entry) as [[a b]|] eqn:Hcut; cbn [lookup list_lookup].
    + rewrite IH. split.
      * intros (x & Hin & Hx). exists x. split; [by right|done].
      * intros (x & [->|Hin]%elem_of_cons & Hx); [congruence|]. by exists x.
    + split; [|done]. intros _. exists entry. split; [by left|done].
Qed.

(** X9.  [InitWithDir] panics exactly when some string of [os.Environ()]
    holds no ["="] (given that the directory resolves).  The panic leaves
    through the deferred function with a nil [err]: the store is empty, and
    the root is nevertheless set to the resolved directory. *)
Theorem InitWithDir_panics_on_entry_without_eq
    (dir d : string) (g g' : globals) (r : run (option error)) :
  filepath_Abs w dir = (d, None) → InitWithDir w dir g g' r →
  (r = Panics ↔
     ∃ entry, entry ∈ os_Environ w ∧ ∀ a b, entry ≠ a +:+ ("=" +:+ b)) ∧
  (r = Panics → root g' = d ∧ env g' = Env.New).
Proof.
  unfold InitWithDir. intros -> Hinit.
  destruct (environ_map w (os_Environ w) ∅) as [result|] eqn:Hmap.
  - assert (r ≠ Panics) as Hr.
    { destruct Hinit as (e1 & _ & e2 & err & _ & Hrest).
      destruct err as [er|]; [by destruct Hrest as [_ ->]|].
      cbv zeta in Hrest. rewrite appEnv_nonempty in Hrest.
      by destruct Hrest as (e3 & err' & _ & _ & ->). }
    split; [|done]. split; [done|].
    intros (entry & Hin & Hno). exfalso.
    assert (environ_map w (os_Environ w) ∅ = None) as Hnone; [|congruence].
    apply environ_map_None. exists entry. split; [done|].
    destruct (cut_eq entry) as [[a b]|] eqn:Hcut; [|done].
    apply cut_eq_Some in Hcut. by destruct (Hno a b).
  - destruct Hinit as [-> ->]. split; [|done]. split; [|done]. intros _.
    apply environ_map_None in Hmap as (entry & Hin & Hcut).
    exists entry. split; [done|]. intros a b ->. by apply (cut_eq_app a b).
Qed.

Lemma Load_missing (filenames : list string) (e e' : Env.environ)
    (err : option error) :
  (∃ path, (godotenv_Read w filenames).2 = Some (NotExist path)) →
  Load w filenames e e' err → e' = e ∧ goes_on err = true.
Proof.
  unfold Load. intros [path Hread].
  destruct (godotenv_Read w filenames) as [data [er|]]; simplify_eq/=.
  by intros [-> ->].
Qed.

Lemma cut_eq_first (a b : string) :
  (∀ a' b', a ≠ a' +:+ ("=" +:+ b')) → cut_eq (a +:+ ("=" +:+ b)) = Some (a, b).
Proof.
  induction a as [|c a IH]; intros Hno; [done|].
  change (cut_eq (String c (a +:+ ("=" +:+ b))) = Some (String c a, b)).
  cbn [cut_eq]. destruct (Ascii.eqb_spec c "="%char) as [->|_].
  { by destruct (Hno EmptyString a). }
  rewrite IH; [done|]. intros a' b' ->. by destruct (Hno (String c a') b').
Qed.

(** The loop over [os.Environ()] on entries [name=value] whose names hold
    no ["="]: one assignment per entry, in order. *)
Lemma environ_map_pairs (pairs : list (string * string)) :
  Forall (λ p, ∀ a b, p.1 ≠ a +:+ ("=" +:+ b)) pairs →
  ∀ result,
    environ_map w ((λ p, p.1 +:+ ("=" +:+ p.2)) <$> pairs) result =
    Some (foldl (λ acc p, <[strings_TrimSpace w p.1 := strings_TrimSpace w p.2]> acc)
                result pairs).
Proof.
  induction 1 as [|[a b] pairs Hno _ IH]; intros result; [done|].
  cbn [fmap list_fmap environ_map fst snd foldl]. unfold strings_SplitN_eq_2.
  rewrite (cut_eq_first a b Hno). cbn [lookup list_lookup]. apply IH.
Qed.

Lemma assignments_other (key : string) (after : list (string * string)) :
  Forall (λ q, strings_TrimSpace w q.1 ≠ key) after →
  ∀ result : gmap string string,
    foldl (λ acc p, <[strings_TrimSpace w p.1 := strings_TrimSpace w p.2]> acc)
          result after !! key = result !! key.
Proof.
  induction 1 as [|q after Hq _ IH]; intros result; [done|].
  cbn [foldl]. rewrite IH. by apply lookup_insert_ne.
Qed.

Lemma assignments_is_Some (key : string) (pairs : list (string * string)) :
  ∀ result : gmap string string,
    is_Some (foldl (λ acc p, <[strings_TrimSpace w p.1 := strings_TrimSpace w p.2]> acc)
                   result pairs !! key) ↔
    is_Some (result !! key) ∨ ∃ p, p ∈ pairs ∧ strings_TrimSpace w p.1 = key.
Proof.
  induction pairs as [|q pairs IH]; intros result; cbn [foldl].
  - split; [by left|]. intros [?|(p & Hp%elem_of_nil & _)]; done.
  - rewrite IH. destruct (decide (strings_TrimSpace w q.1 = key)) as [Hq|Hq].
    + split; [|intros _; left; rewrite <- Hq, lookup_insert_eq; by eexists].
      intros _. right. exists q. split; [by left|done].
    + rewrite lookup_insert_ne by done. split.
      * intros [?|(p & Hp & Hk)]; [by left|]. right. exists p.
        split; [by right|done].
      * intros [?|(p & [->|Hp]%elem_of_cons & Hk)]; [by left|done|].
        right. by exists p.
Qed.

(** X10.  In a directory without any dotenv file (every read answers "does
    not exist"), [InitWithDir] succeeds when every string of
    [os.Environ()] is [name=value] with no ["="] in the name: the root is
    the resolved directory and the store holds exactly the process
    environment.  A key exists exactly when it is the trimmed name of some
    entry; it is then looked up with the trimmed value of the last entry
    of that trimmed name (not found when that value is empty); any other
    key is not found. *)
Theorem InitWithDir_without_files
    (dir d : string) (pairs : list (string * string))
    (g g' : globals) (r : run (option error)) :
  (∀ filenames, ∃ path, (godotenv_Read w filenames).2 = Some (NotExist path)) →
  filepath_Abs w dir = (d, None) →
  os_Environ w = (λ p, p.1 +:+ ("=" +:+ p.2)) <$> pairs →
  Forall (λ p, ∀ a b, p.1 ≠ a +:+ ("=" +:+ b)) pairs →
  InitWithDir w dir g g' r →
  r = Returns None ∧ root g' = d ∧
  ∀ key,
    (Exists g' key = true ↔
       ∃ p, p ∈ pairs ∧ strings_TrimSpace w p.1 = key) ∧
    (Exists g' key = false → Lookup g' key = (EmptyString, false)) ∧
    (∀ before p after,
       pairs = before ++ p :: after →
       strings_TrimSpace w p.1 = key →
       Forall (λ q, strings_TrimSpace w q.1 ≠ key) after →
       Lookup g' key =
         (strings_TrimSpace w p.2,
          0 <? Z.of_nat (String.length (strings_TrimSpace w p.2)))).
Proof.
  intros Hmissing Habs Henv Hnames. unfold InitWithDir.
  rewrite Habs, Henv, (environ_map_pairs pairs Hnames ∅).
  set (result := foldl _ ∅ pairs).
  intros (e1 & HS & e2 & err & HL & Hrest).
  assert (Hwf0 : Env.wf (Env.Clean (env g))) by done.
  pose proof (Save_wf _ _ _ Hwf0 HS) as Hwf1.
  pose proof (Save_to_map _ _ _ Hwf0 HS) as Hm1.
  change (Env.to_map (Env.Clean (env g))) with (∅ : gmap string string) in Hm1.
  rewrite (right_id_L ∅ (∪)) in Hm1.
  assert (Hskip : ∀ sfx ea eb er, loadEnv w d sfx ea eb er → eb = ea ∧ er = None).
  { intros sfx ea eb er (ex & r1 & HL1 & Hx).
    destruct (Load_missing _ _ _ _ (Hmissing _) HL1) as [-> Hgo1].
    rewrite Hgo1 in Hx. destruct Hx as (r2 & HL2 & ->).
    destruct (Load_missing _ _ _ _ (Hmissing _) HL2) as [-> Hgo2].
    by rewrite Hgo2. }
  destruct (Hskip _ _ _ _ HL) as [-> ->].
  cbv zeta in Hrest. rewrite appEnv_nonempty in Hrest.
  destruct Hrest as (e3 & err' & HL' & -> & ->).
  destruct (Hskip _ _ _ _ HL') as [-> ->].
  split_and!; [done|done|]. intros key.
  unfold Lookup, Exists, Inner.Lookup, Inner.Exists.
  cbn [deferred env Inner.lookup Inner.exists_ Env.inner_of].
  rewrite lookup_to_map, exists_to_map, Hm1 by done.
  pose proof (assignments_is_Some key pairs ∅) as Hsome. fold result in Hsome.
  split_and!.
  - rewrite bool_decide_eq_true, Hsome. split; [|by right].
    intros [[v Hv]|?]; [|done]. by rewrite lookup_empty in Hv.
  - intros Hno%bool_decide_eq_false.
    destruct (result !! key) as [v|] eqn:Hv; [|done].
    destruct Hno. by eexists.
  - intros before p after -> Hp Hafter. unfold result.
    rewrite foldl_app. cbn [foldl]. rewrite (assignments_other key after Hafter).
    by rewrite <- Hp, lookup_insert_eq.
Qed.

Lemma InitWithDir_result (dir d : string) (result : gmap string string)
    (g g' : globals) :
  filepath_Abs w dir = (d, None) →
  environ_map w (os_Environ w) ∅ = Some result →
  InitWithDir w dir g g' (Returns None) →
  ∃ e2, Env.wf e2 ∧
    Env.to_map e2 =
      file_map w (filepath_Join w [d; ".env"] +:+ ".local") ∪
      (file_map w (filepath_Join w [d; ".env"]) ∪ result) ∧
    Env.wf (env g') ∧ root g' = d ∧
    let dotenv_app :=
      filepath_Join w
        [d; ".env" +:+ ("." +:+ strings_ToLower w
                          (Inner.String (Env.inner_of e2) "APP_ENV" ["prod"]))] in
    Env.to_map (env g') =
      file_map w (dotenv_app +:+ ".local") ∪
      (file_map w dotenv_app ∪ Env.to_map e2).
Proof.
  intros Habs Hmap. unfold InitWithDir. rewrite Habs, Hmap.
  intros (e1 & HS & e2 & err & HL & Hrest).
  assert (Hwf0 : Env.wf (Env.Clean (env g))) by done.
  pose proof (Save_wf _ _ _ Hwf0 HS) as Hwf1.
  pose proof (Save_to_map _ _ _ Hwf0 HS) as Hm1.
  change (Env.to_map (Env.Clean (env g))) with (∅ : gmap string string) in Hm1.
  rewrite (right_id_L ∅ (∪)) in Hm1.
  destruct (loadEnv_spec w _ _ _ _ _ Hwf1 HL) as [Hwf2 Hm2].
  destruct err as [er|]; [by destruct Hrest as [_ ?]|].
  specialize (Hm2 eq_refl). rewrite Hm1 in Hm2.
  change (".env" +:+ EmptyString) with ".env" in Hm2.
  cbv zeta in Hrest. rewrite appEnv_nonempty in Hrest.
  destruct Hrest as (e3 & err' & HL' & -> & Herr). injection Herr as <-.
  destruct (loadEnv_spec w _ _ _ _ _ Hwf2 HL') as [Hwf3 Hm3].
  exists e2. split_and!; [done|done|done|done|]. by apply Hm3.
Qed.

(** X11.  [IsEnv] compares with the stored [APP_ENV] only.  When no source
    defines [APP_ENV], a successful [InitWithDir] has loaded the layers
    [.env.prod] and [.env.prod.local] by default, yet [IsEnv("prod")] is
    false and [IsEnv] of the empty string is true: the default is used for
    choosing the files and is not stored. *)
Theorem IsEnv_ignores_the_default
    (dir d : string) (result : gmap string string) (g g' : globals) :
  filepath_Abs w dir = (d, None) →
  environ_map w (os_Environ w) ∅ = Some result →
  InitWithDir w dir g g' (Returns None) →
  let dotenv := filepath_Join w [d; ".env"] in
  let dotenv_prod :=
    filepath_Join w [d; ".env" +:+ ("." +:+ strings_ToLower w "prod")] in
  let sources :=
    [result; file_map w dotenv; file_map w (dotenv +:+ ".local");
     file_map w dotenv_prod; file_map w (dotenv_prod +:+ ".local")] in
  later_wins sources "APP_ENV" = None →
  IsEnv g' "prod" = false ∧ IsEnv g' EmptyString = true ∧
  ∀ key, Env.to_map (env g') !! key = later_wins sources key.
Proof.
  intros Habs Hmap Hinit. cbv zeta. intros Hnone.
  destruct (InitWithDir_result dir d result g g' Habs Hmap Hinit)
    as (e2 & Hwf2 & Hm2 & Hwf' & _ & Hm'). cbv zeta in Hm'.
  rewrite later_wins_union in Hnone. cbn [foldl] in Hnone.
  rewrite (right_id_L ∅ (∪)) in Hnone.
  apply lookup_union_None in Hnone as [Hn5 Hnone].
  apply lookup_union_None in Hnone as [Hn4 Hbase].
  assert (Happ : Inner.String (Env.inner_of e2) "APP_ENV" ["prod"] = "prod").
  { unfold Inner.String, Inner.Lookup. cbn [Inner.lookup Env.inner_of].
    by rewrite lookup_to_map, Hm2, Hbase by done. }
  rewrite Happ in Hm'.
  assert (Hfinal : Env.to_map (env g') !! "APP_ENV" = None).
  { rewrite Hm', Hm2. apply lookup_union_None. split; [done|].
    apply lookup_union_None. by split. }
  assert (Hstr : Inner.String (Env.inner_of (env g')) "APP_ENV" [] = EmptyString).
  { unfold Inner.String, Inner.Lookup. cbn [Inner.lookup Env.inner_of].
    by rewrite lookup_to_map, Hfinal by done. }
  unfold IsEnv. rewrite Hstr. split_and!; [done|done|].
  intros key. rewrite later_wins_union. cbn [foldl].
  by rewrite (right_id_L ∅ (∪)), Hm', Hm2.
Qed.

End loading.

(** ** [Fill] twice *)

Section fill_again.
Import Inner.
Context {rtype scalar cast_error : Type}.
Variable cast_FromType :
  string → rtype → @value rtype scalar + cast_error.
Variable i : inner.

Local Abbreviation fill_field := (fill_field cast_FromType i).
Local Abbreviation fillStruct := (fillStruct cast_FromType i).
Local Abbreviation Fill := (Fill cast_FromType i).

Lemma fillStruct_again (s : list field) :
  (∀ g, g ∈ s → fill_field (fill_field g).1 = fill_field g) →
  fillStruct (fillStruct s).1 = fillStruct s.
Proof.
  induction s as [|g s IH]; intros Hs; [done|].
  cbn [Inner.fillStruct].
  pose proof (Hs g ltac:(left)) as Hg.
  destruct (fill_field g) as [g' [err|]] eqn:Hfg; cbn [fst] in *.
  - cbn [Inner.fillStruct]. by rewrite Hg.
  - assert (fillStruct (fillStruct s).1 = fillStruct s) as Hrest.
    { apply IH. intros g0 Hin. apply Hs. by right. }
    destruct (fillStruct s) as [s' err'] eqn:Hfs; cbn [fst] in *.
    cbn [Inner.fillStruct]. by rewrite Hg, Hrest.
Qed.

Lemma fill_field_again (f : field) : fill_field (fill_field f).1 = fill_field f.
Proof.
  induction f as [name t ty val|name ty fields IH|name ty fields IH
                 |name ty val Hns Hnp] using field_nested_ind.
  - cbn [Inner.fill_field].
    destruct (negb (String.eqb (String i t []) EmptyString)) eqn:Hosv.
    + destruct (cast_FromType (String i t []) ty) as [v|err] eqn:Hcast;
        cbn [fst Inner.fill_field]; by rewrite Hosv, Hcast.
    + cbn [fst Inner.fill_field]. by rewrite Hosv.
  - rewrite !(proj1 (fillStruct_nested cast_FromType i name ty _)).
    cbn [fst]. rewrite !(proj1 (fillStruct_nested cast_FromType i name ty _)).
    rewrite fillStruct_again; [done|]. by apply Forall_forall.
  - rewrite !(proj2 (fillStruct_nested cast_FromType i name ty _)).
    cbn [fst]. rewrite !(proj2 (fillStruct_nested cast_FromType i name ty _)).
    rewrite fillStruct_again; [done|]. by apply Forall_forall.
  - destruct val as [fields|[[fields|elem|x]|]|x]; try done.
    + by destruct (Hns fields).
    + by destruct (Hnp fields).
Qed.

(** X12.  [Fill] is idempotent, also when it fails: filling what a first
    [Fill] left gives the same struct and the same error (or success)
    again, provided the store is unchanged in between. *)
Theorem Fill_idempotent (structure structure' : any)
    (err : option fill_error) :
  Fill structure = Returns (structure', err) →
  Fill structure' = Returns (structure', err).
Proof.
  destruct structure as [[s|]|]; cbn [Inner.Fill]; [|done|].
  - destruct (fillStruct s) as [s' err'] eqn:Hs. intros [= <- <-].
    cbn [Inner.Fill].
    pose proof (fillStruct_again s (λ g _, fill_field_again g)) as Hagain.
    rewrite Hs in Hagain. cbn [fst] in Hagain. by rewrite Hagain.
  - by intros [= <- <-].
Qed.

End fill_again.

(** ** The typed accessors *)

Section accessors.
Import Inner.

(** X13.  A present-but-empty value counts as absent for every typed
    accessor: on a store built by [New], [Save] and [Clean], a key stored
    with the empty value, like a key that is not stored, makes [String],
    [Int], [Bool], [Duration] and [List] return the first fallback, else the
    zero value; [List] does not return a list holding one empty string. *)
Theorem empty_value_gives_fallback (trim : string → string)
    (e : Env.environ) (key : string) :
  Env.reachable e →
  (key, EmptyString) ∈ zip (Env.keys e) (Env.values e) ∨ key ∉ Env.keys e →
  (∀ fallback, String (Env.inner_of e) key fallback = first_or EmptyString fallback) ∧
  (∀ fallback, Int (Env.inner_of e) key fallback = first_or 0 fallback) ∧
  (∀ fallback, Bool (Env.inner_of e) key fallback = first_or false fallback) ∧
  (∀ fallback, Duration (Env.inner_of e) key fallback = first_or 0 fallback) ∧
  (∀ fallback, List trim (Env.inner_of e) key fallback = first_or [] fallback).
Proof.
  intros Hr Hkey. pose proof (reachable_wf e Hr) as Hwf.
  pose proof (reachable_NoDup e Hr) as Hnd.
  assert (Hlook : ∃ v, Env.lookup e key = (v, false)).
  { rewrite lookup_to_map by done. destruct Hkey as [Hin|Hnin].
    - apply (elem_of_list_to_map (M := gmap string)) in Hin.
      + unfold Env.to_map. rewrite Hin. by eexists.
      + rewrite fst_zip; [done|]. unfold Env.wf in Hwf. lia.
    - rewrite elem_of_keys_to_map in Hnin by done.
      apply eq_None_not_Some in Hnin. rewrite Hnin. by eexists. }
  destruct Hlook as [v Hv].
  unfold String, Int, Bool, Duration, List, Lookup.
  cbn [lookup Env.inner_of]. rewrite Hv. done.
Qed.

Lemma Split_comma_nonempty (s : string) : strings_Split_comma s ≠ [].
Proof.
  induction s as [|c s IH]; [done|]. cbn [strings_Split_comma].
  destruct (Ascii.eqb c ","%char); [done|].
  by destruct (strings_Split_comma s).
Qed.

Lemma Split_comma_length (s : string) :
  length (strings_Split_comma s) =
    S (length (filter (λ c, c = ","%char) (String.list_ascii_of_string s))).
Proof.
  induction s as [|c s IH]; [done|]. cbn [strings_Split_comma String.list_ascii_of_string].
  destruct (Ascii.eqb_spec c ","%char) as [->|Hne].
  - rewrite filter_cons_True by done. simpl. by rewrite IH.
  - rewrite filter_cons_False by done. rewrite <- IH.
    pose proof (Split_comma_nonempty s).
    by destruct (strings_Split_comma s).
Qed.

Lemma Split_comma_concat (s : string) :
  String.concat "," (strings_Split_comma s) = s.
Proof.
  induction s as [|c s IH]; [done|]. cbn [strings_Split_comma].
  pose proof (Split_comma_nonempty s) as Hne.
  destruct (Ascii.eqb_spec c ","%char) as [->|Hc].
  - destruct (strings_Split_comma s) as [|piece pieces]; [done|].
    change (String.concat "," (EmptyString :: piece :: pieces))
      with ("," +:+ String.concat "," (piece :: pieces)).
    by rewrite IH.
  - destruct (strings_Split_comma s) as [|piece pieces]; [done|].
    destruct pieces as [|piece' pieces].
    + simpl in *. by rewrite IH.
    + change (String.concat "," (String.String c piece :: piece' :: pieces))
        with (String.String c (piece +:+ ("," +:+ String.concat "," (piece' :: pieces)))).
      f_equal. exact IH.
Qed.

(** X14.  When the key is found, [List] ignores the fallback and returns
    one element per comma-separated part of the value, each trimmed, none
    dropped: one more element than the value has commas (so a trailing comma
    gives a last, empty element), and the untrimmed parts joined by commas
    are the value again. *)
Theorem List_keeps_every_part (trim : string → string) (i : inner)
    (key value : string) (fallback : list (list string)) :
  Lookup i key = (value, true) →
  ∃ parts,
    List trim i key fallback = trim <$> parts ∧
    length (List trim i key fallback) =
      S (length (filter (λ c, c = ","%char) (String.list_ascii_of_string value))) ∧
    String.concat "," parts = value ∧
    Forall (λ part, ","%char ∉ String.list_ascii_of_string part) parts.
Proof.
  intros Hl. exists (strings_Split_comma value). unfold List. rewrite Hl.
  split_and!.
  - done.
  - by rewrite length_fmap, Split_comma_length.
  - apply Split_comma_concat.
  - clear Hl. induction value as [|c s IH]; cbn [strings_Split_comma].
    + constructor; [apply not_elem_of_nil|constructor].
    + pose proof (Split_comma_nonempty s) as Hne.
      destruct (Ascii.eqb_spec c ","%char) as [->|Hc].
      * constructor; [apply not_elem_of_nil|done].
      * destruct (strings_Split_comma s) as [|piece pieces]; [done|].
        apply Forall_cons in IH as [Hp Hps]. constructor; [|done].
        cbn [String.list_ascii_of_string]. rewrite not_elem_of_cons. by split.
Qed.

(** X15.  [Bool] is overridden by the stored value only through the twelve
    spellings of [strconv.ParseBool]: with the fallback [true] it returns
    [false] exactly when the key is found with one of ["0"], ["f"], ["F"],
    ["FALSE"], ["false"], ["False"]; without fallback it returns [true]
    exactly when the key is found with one of ["1"], ["t"], ["T"], ["TRUE"],
    ["true"], ["True"].  Any other value, like ["yes"] or ["on"], leaves the
    fallback. *)
Theorem Bool_spellings (i : inner) (key : string) :
  (Bool i key [true] = false ↔
     ∃ val, Lookup i key = (val, true) ∧
            val ∈ ["0"; "f"; "F"; "FALSE"; "false"; "False"]) ∧
  (Bool i key [] = true ↔
     ∃ val, Lookup i key = (val, true) ∧
            val ∈ ["1"; "t"; "T"; "TRUE"; "true"; "True"]).
Proof.
  assert (Hparse : ∀ val b, strconv_ParseBool val = Some b ↔
            val ∈ (if b then ["1"; "t"; "T"; "TRUE"; "true"; "True"]
                   else ["0"; "f"; "F"; "FALSE"; "false"; "False"])).
  { intros val b. split.
    - unfold strconv_ParseBool.
      repeat match goal with
             | |- context [String.eqb val ?x] =>
                 destruct (String.eqb_spec val x) as [->|_];
                 [cbn; intros [= <-]; cbn;
                  solve [repeat first [apply list_elem_of_here
                                      |apply list_elem_of_further]]|]
             end.
      by cbn.
    - destruct b; intros Hin;
        repeat (apply elem_of_cons in Hin as [->|Hin]; [done|]);
        by apply elem_of_nil in Hin. }
  unfold Bool. destruct (Lookup i key) as [val ok]. split.
  - split.
    + destruct ok; [|done].
      destruct (strconv_ParseBool val) as [[]|] eqn:Hp; [done| |done].
      intros _. exists val. split; [done|]. by apply (Hparse val false).
    + intros (val' & [= -> ->] & Hin%(Hparse _ false)). by rewrite Hin.
  - split.
    + destruct ok; [|done].
      destruct (strconv_ParseBool val) as [[]|] eqn:Hp; [|done|done].
      intros _. exists val. split; [done|]. by apply (Hparse val true).
    + intros (val' & [= -> ->] & Hin%(Hparse _ true)). by rewrite Hin.
Qed.

Lemma parse_digits_leadingInt (s : string) :
  ∀ acc x n, parse_digits s acc = Some n →
    leadingInt s x = None ∨ ∃ v, leadingInt s x = Some (v, EmptyString).
Proof.
  induction s as [|c s IH]; intros acc x n Hn; cbn [parse_digits leadingInt] in *.
  - right. by eexists.
  - destruct (digit_of c) as [d|]; [|done].
    destruct (x >? 2 ^ 63 / 10); [by left|].
    destruct (wrap_uint64 (x * 10 + d) >? 2 ^ 63); [by left|].
    by eapply IH.
Qed.

Lemma parse_term_digits_only (s : string) (d n : Z) :
  s ≠ EmptyString → parse_digits s 0 = Some n → parse_term s d = None.
Proof.
  intros Hne Hn. unfold parse_term. destruct s as [|c s0]; [done|].
  assert (is_digit_or_dot c = true) as ->.
  { unfold is_digit_or_dot. cbn [parse_digits] in Hn.
    destruct (digit_of c); [|done]. by rewrite orb_true_r. }
  cbn [negb].
  destruct (parse_digits_leadingInt _ 0 0 n Hn) as [->|[v ->]]; [done|].
  done.
Qed.

Lemma Atoi_and_ParseDuration (val : string) (n d : Z) :
  strconv_Atoi val = Some n → time_ParseDuration val = Some d → n = 0 ∧ d = 0.
Proof.
  unfold strconv_Atoi, time_ParseDuration. destruct val as [|c rest]; [done|].
  set (body := if is_minus c || is_plus c then rest else String.String c rest).
  intros Hn Hd.
  destruct (String.eqb_spec body "0") as [Hzero|Hnz].
  - rewrite Hzero in Hn. cbn [parse_digits] in Hn. injection Hd as <-.
    change (digit_of "0"%char) with (Some 0) in Hn.
    destruct (is_minus c); vm_compute in Hn; by simplify_eq.
  - destruct body as [|b body'] eqn:Hbody; [done|].
    destruct (parse_digits (String.String b body') 0) as [m|] eqn:Hm; [|done].
    cbn [String.eqb] in Hd.
    assert (parse_terms (String.length (String.String b body'))
              (String.String b body') 0 = Returns None) as Hrun.
    { cbn [String.length parse_terms].
      by rewrite (parse_term_digits_only (String.String b body') 0 m). }
    by rewrite Hrun in Hd.
Qed.

(** X16.  The order of the two parse paths of [Duration] never decides the
    result: a value that both [strconv.Atoi] and [time.ParseDuration] accept
    is zero for both (a bare number other than zero has no unit and is not
    a duration string), so trying the duration string first would return
    the same duration for every stored value. *)
Theorem Duration_parse_paths_agree (i : inner) (key : string) (fallback : list Z) :
  (∀ val n d, strconv_Atoi val = Some n → time_ParseDuration val = Some d →
     n = 0 ∧ d = 0) ∧
  Duration i key fallback =
    (let '(val, ok) := Lookup i key in
     let parsed :=
       if ok then
         match time_ParseDuration val with
         | Some d => Some d
         | None => strconv_Atoi val
         end
       else None in
     match parsed with
     | Some d => d
     | None => first_or 0 fallback
     end).
Proof.
  split; [apply Atoi_and_ParseDuration|].
  unfold Duration. destruct (Lookup i key) as [val [|]]; [|done].
  destruct (strconv_Atoi val) as [n|] eqn:Hn,
           (time_ParseDuration val) as [d|] eqn:Hd; try done.
  destruct (Atoi_and_ParseDuration val n d Hn Hd) as [-> ->]. done.
Qed.

End accessors.

(** ** The further properties at concrete inputs *)

Section more_witnesses.
Import Examples.

(** Saving the pairs of a list without repeated keys into a new store. *)
Lemma reachable_Save_range (l : list (string * string)) :
  NoDup l.*1 → Env.reachable (Env.Save_range Env.New l).
Proof.
  intros Hnd. apply (Env.reachable_Save Env.New (list_to_map l)); [constructor|].
  exists l. split; [|done]. symmetry. by apply map_to_list_to_map.
Defined.

Local Ltac distinct_keys := refine (bool_decide_unpack _ _); vm_compute; exact I.

Lemma store_cache_reachable : Env.reachable store_cache.
Proof.
  apply (reachable_Save_range
           (zip (Env.keys store_cache) (Env.values store_cache))).
  distinct_keys.
Defined.

Lemma store_list_reachable : Env.reachable store_list.
Proof.
  apply (reachable_Save_range
           (zip (Env.keys store_list) (Env.values store_list))).
  distinct_keys.
Defined.

Lemma Save_idempotent_witness :
  Env.Save_range (Env.Save_range Env.New [("A", "1")]) [("A", "1")] =
  Env.Save_range Env.New [("A", "1")].
Proof.
  apply (Save_idempotent Env.New _ _ {[ "A" := "1" ]}).
  - done.
  - exists [("A", "1")]. split; [by rewrite map_to_list_singleton|done].
  - exists [("A", "1")]. split; [by rewrite map_to_list_singleton|done].
Defined.

Lemma Save_leaves_other_keys_witness :
  Env.lookup (Env.Save_range store_cache [("A", "1")]) "PATH" =
    Env.lookup store_cache "PATH" ∧
  Env.exists_ (Env.Save_range store_cache [("A", "1")]) "PATH" =
    Env.exists_ store_cache "PATH".
Proof.
  apply (Save_leaves_other_keys store_cache _ {[ "A" := "1" ]}).
  - done.
  - exists [("A", "1")]. split; [by rewrite map_to_list_singleton|done].
  - done.
Defined.

Lemma Where_selects_stored_pairs_witness :
  (∃ m, Env.Where store_cache (λ k v, String.prefix "app" v) = Returns m ∧
     ∀ k v, m !! k = Some v ↔
       (k, v) ∈ zip (Env.keys store_cache) (Env.values store_cache) ∧
       String.prefix "app" v = true) ∧
  (∃ m, Env.All store_cache = Returns m ∧
     ∀ k v, m !! k = Some v ↔
       (k, v) ∈ zip (Env.keys store_cache) (Env.values store_cache)).
Proof.
  apply (Where_selects_stored_pairs store_cache (λ k v, String.prefix "app" v)).
  - exact store_cache_reachable.
  - done.
Defined.

Lemma All_after_Save_witness :
  ∃ m, Env.All Env.New = Returns m ∧
       Env.All (Env.Save_range Env.New [("A", "1")]) =
         Returns ({[ "A" := "1" ]} ∪ m) ∧
       (Env.keys Env.New = [] →
        Env.All (Env.Save_range Env.New [("A", "1")]) = Returns {[ "A" := "1" ]}).
Proof.
  apply (All_after_Save Env.New _ {[ "A" := "1" ]}).
  - constructor.
  - exists [("A", "1")]. split; [by rewrite map_to_list_singleton|done].
  - done.
Defined.

Lemma Map_strips_prefix_witness :
  ∃ m, Env.Map trim_blanks store_list "CACHE_" = Returns m ∧
       ∀ name, m !! name =
               trim_blanks <$> Env.to_map store_list !! ("CACHE_" +:+ name).
Proof.
  apply (Map_strips_prefix trim_blanks store_list "CACHE_").
  - exact store_list_reachable.
  - done.
Defined.

Lemma view_Where_selects_scoped_pairs_witness :
  ∃ m, Signer.Where cache_book store_cache (λ _ _, true) = Returns m ∧
       ∀ name v, m !! name = Some v ↔
         (Signer.full_prefix (Signer.iter cache_book) +:+ name, v)
           ∈ zip (Env.keys store_cache) (Env.values store_cache) ∧
         true = true.
Proof.
  apply (view_Where_selects_scoped_pairs cache_book store_cache (λ _ _, true)).
  - exact store_cache_reachable.
  - done.
Defined.

(** The view lists [DATABASE] and [SCOPE] and finds them; it also finds
    [DRIVER], through the fallback, without listing it. *)
Lemma view_listing_agrees_with_lookup_witness :
  Signer.Where cache_book store_cache (λ _ _, true) =
    Returns {[ "DATABASE" := "10"; "SCOPE" := "app:books:" ]} ∧
  Signer.lookup cache_book store_cache "DATABASE" = ("10", true) ∧
  ({[ "DATABASE" := "10"; "SCOPE" := "app:books:" ]} : gmap string string)
    !! "DRIVER" = None ∧
  Signer.lookup cache_book store_cache "DRIVER" = ("redis", true).
Proof.
  assert (Hrun : Signer.Where cache_book store_cache (λ _ _, true) =
            Returns {[ "DATABASE" := "10"; "SCOPE" := "app:books:" ]}).
  { by vm_compute. }
  destruct (view_listing_agrees_with_lookup cache_book store_cache _ "DATABASE"
              store_cache_reachable ltac:(done) Hrun) as [Hlisted _].
  destruct (view_listing_agrees_with_lookup cache_book store_cache _ "DRIVER"
              store_cache_reachable ltac:(done) Hrun) as [_ Hnot].
  destruct (Hlisted "10" ltac:(done)) as [_ Hfound].
  destruct (Hnot ltac:(done)) as [Hnone Hfallback].
  split_and!; [exact Hrun|by apply Hfound|exact Hnone|].
  rewrite Hfallback. by vm_compute.
Defined.

Lemma empty_view_is_the_store_witness :
  (∀ key, Signer.lookup plain_view store_cache key = Env.lookup store_cache key ∧
          Signer.exists_ plain_view store_cache key = Env.exists_ store_cache key) ∧
  (Env.wf store_cache → Z.of_nat (length (Env.keys store_cache)) < 2 ^ 31 →
   ∀ filter, Signer.Where plain_view store_cache filter =
             Env.Where store_cache filter).
Proof. by apply (empty_view_is_the_store plain_view store_cache). Defined.

Lemma view_found_implies_exists_witness :
  Signer.exists_ cache_book store_cache "DRIVER" = true ∧
  "redis" ≠ EmptyString ∧
  (Env.lookup store_cache
     (Signer.scoped_key cache_book (Signer.category cache_book) "DRIVER") =
     ("redis", true) ∨
   (Signer.category cache_book ≠ EmptyString ∧
    (Env.lookup store_cache
       (Signer.scoped_key cache_book (Signer.category cache_book) "DRIVER")).2 =
      false ∧
    Env.lookup store_cache (Signer.scoped_key cache_book EmptyString "DRIVER") =
      ("redis", true))).
Proof.
  apply (view_found_implies_exists cache_book store_cache "DRIVER" "redis").
  by vm_compute.
Defined.

Lemma view_Map_strips_both_prefixes_witness :
  ∃ m, Signer.Map trim_blanks cache_book store_cache "S" = Returns m ∧
       ∀ name, m !! name =
               trim_blanks <$>
                 Env.to_map store_cache
                   !! (Signer.full_prefix (Signer.iter cache_book) +:+ ("S" +:+ name)).
Proof.
  apply (view_Map_strips_both_prefixes trim_blanks cache_book store_cache "S").
  - exact store_cache_reachable.
  - done.
Defined.

(** The base file cannot be parsed: the error comes back, the store is as
    before. *)
Lemma loadEnv_first_real_error_witness :
  Global.loadEnv world_malformed "/app" EmptyString store_cache store_cache
    (Some (Global.OtherError "unexpected character in variable name")) ∧
  (Global.goes_on
     (Global.godotenv_Read world_malformed
        [Global.filepath_Join world_malformed ["/app"; ".env"]]).2 = false →
   Some (Global.OtherError "unexpected character in variable name") =
     (Global.godotenv_Read world_malformed
        [Global.filepath_Join world_malformed ["/app"; ".env"]]).2 ∧
   store_cache = store_cache).
Proof.
  assert (Hrun : Global.loadEnv world_malformed "/app" EmptyString store_cache
            store_cache
            (Some (Global.OtherError "unexpected character in variable name"))).
  { exists store_cache, (Some (Global.OtherError "unexpected character in variable name")).
    split; [by split|done]. }
  split; [exact Hrun|].
  destruct (loadEnv_first_real_error world_malformed "/app" EmptyString
              store_cache store_cache _ ltac:(done) Hrun) as (Hbase & _ & _).
  exact Hbase.
Defined.

Lemma InitWithDir_broken_environ :
  Global.InitWithDir world_broken_environ "/app" globals_layered
    {| Global.env := Env.New; Global.root := "/app" |} Panics.
Proof. by vm_compute. Defined.

(** A string without ["="] in the environment: the call panics, the store
    is empty and the root is set. *)
Lemma InitWithDir_panics_on_entry_without_eq_witness :
  (∃ entry, entry ∈ Global.os_Environ world_broken_environ ∧
            ∀ a b, entry ≠ a +:+ ("=" +:+ b)) ∧
  Global.root {| Global.env := Env.New; Global.root := "/app" |} = "/app".
Proof.
  destruct (InitWithDir_panics_on_entry_without_eq world_broken_environ
              "/app" "/app" globals_layered _ Panics eq_refl
              InitWithDir_broken_environ) as [Hiff Hstate].
  split; [by apply Hiff|]. by apply Hstate.
Defined.

Lemma InitWithDir_world_without_cwd :
  Global.InitWithDir world_without_cwd "/app" fresh_globals globals_A
    (Returns None).
Proof.
  unfold Global.InitWithDir. cbn [world_without_cwd Global.filepath_Abs].
  change (String.prefix "/" "/app") with true. cbv iota.
  change (Global.environ_map _ _ ∅)
    with (Some ({[ "A" := "1" ]} : gmap string string)).
  cbv iota zeta.
  exists {| Env.keys := ["A"]; Env.values := ["1"] |}. split.
  { exists [("A", "1")]. split; [by rewrite map_to_list_singleton|done]. }
  exists {| Env.keys := ["A"]; Env.values := ["1"] |}, None. split.
  { eexists _, _. split; [by split|]. cbn [Global.goes_on Global.is_not_exist].
    eexists. split; [by split|done]. }
  cbv iota. rewrite appEnv_nonempty.
  exists {| Env.keys := ["A"]; Env.values := ["1"] |}, None. split; [|done].
  eexists _, _. split; [by split|]. cbn [Global.goes_on Global.is_not_exist].
  eexists. split; [by split|done].
Defined.

Lemma InitWithDir_world_blanks :
  Global.InitWithDir world_blanks "/app" fresh_globals globals_blanks
    (Returns None).
Proof.
  unfold Global.InitWithDir.
  cbn [world_blanks Global.filepath_Abs Global.os_Environ].
  change (Global.environ_map _ _ ∅)
    with (Some (<["EMPTY" := EmptyString]>
                  (<["FOO" := "b"]> (<["BAR" := "x=y"]> (<["FOO" := "a"]> ∅)))
                : gmap string string)).
  cbv iota zeta.
  exists (Global.env globals_blanks). split.
  { exists [("FOO", "b"); ("BAR", "x=y"); ("EMPTY", EmptyString)].
    split; [|done]. vm_compute. symmetry.
    exact (Permutation_cons_append [("FOO", "b"); ("BAR", "x=y")]
             ("EMPTY", EmptyString)). }
  exists (Global.env globals_blanks), None. split.
  { eexists _, _. split; [by split|]. cbn [Global.goes_on Global.is_not_exist].
    eexists. split; [by split|done]. }
  cbv iota. rewrite appEnv_nonempty.
  exists (Global.env globals_blanks), None. split; [|done].
  eexists _, _. split; [by split|]. cbn [Global.goes_on Global.is_not_exist].
  eexists. split; [by split|done].
Defined.

(** No dotenv file at all: the variables of the process are visible under
    their trimmed names, [FOO] with the trimmed value of its last entry,
    [BAR] with all that follows its first ["="]; [EMPTY] exists and is not
    found. *)
Lemma InitWithDir_without_files_witness :
  Global.root globals_blanks = "/app" ∧
  Global.Lookup globals_blanks "FOO" = ("b", true) ∧
  Global.Lookup globals_blanks "BAR" = ("x=y", true) ∧
  Global.Exists globals_blanks "EMPTY" = true ∧
  Global.Lookup globals_blanks "EMPTY" = (EmptyString, false).
Proof.
  destruct (InitWithDir_without_files world_blanks "/app" "/app"
              [(" FOO ", " a "); ("BAR", "x=y"); ("FOO", "b "); ("EMPTY", " ")]
              fresh_globals globals_blanks (Returns None))
    as (_ & Hroot & Hkeys).
  - intros filenames. by eexists.
  - reflexivity.
  - reflexivity.
  - repeat constructor; intros a b H;
      apply (cut_eq_app a b); cbn [fst] in H; by rewrite <- H.
  - exact InitWithDir_world_blanks.
  - split_and!; [exact Hroot| | | |].
    + apply (proj2 (proj2 (Hkeys "FOO")) [(" FOO ", " a "); ("BAR", "x=y")]
               ("FOO", "b ") [("EMPTY", " ")]); [done|done|].
      by repeat constructor.
    + apply (proj2 (proj2 (Hkeys "BAR")) [(" FOO ", " a ")]
               ("BAR", "x=y") [("FOO", "b "); ("EMPTY", " ")]); [done|done|].
      by repeat constructor.
    + apply (proj1 (Hkeys "EMPTY")). exists ("EMPTY", " ").
      split; [|done]. by repeat constructor.
    + apply (proj2 (proj2 (Hkeys "EMPTY"))
               [(" FOO ", " a "); ("BAR", "x=y"); ("FOO", "b ")]
               ("EMPTY", " ") []); [done|done|constructor].
Defined.

(** [APP_ENV] is defined nowhere: the [prod] layer is the one chosen, and
    [IsEnv("prod")] is false. *)
Lemma IsEnv_ignores_the_default_witness :
  Global.IsEnv globals_A "prod" = false ∧
  Global.IsEnv globals_A EmptyString = true.
Proof.
  destruct (IsEnv_ignores_the_default world_without_cwd "/app" "/app"
              {[ "A" := "1" ]} fresh_globals globals_A eq_refl eq_refl
              InitWithDir_world_without_cwd ltac:(by vm_compute))
    as (Hprod & Hempty & _).
  split; [exact Hprod|exact Hempty].
Defined.

Lemma Fill_idempotent_witness :
  Inner.Fill cast_FromType (Env.inner_of store_timeouts)
    (Inner.PtrToStruct
       (Some [Inner.Field "Host" (Some "HOST") TString
                (Inner.VOther (SString "localhost"));
              Port; Name])) =
  Returns
    (Inner.PtrToStruct
       (Some [Inner.Field "Host" (Some "HOST") TString
                (Inner.VOther (SString "localhost"));
              Port; Name]),
     Some (Inner.CannotSet "Port" "invalid syntax")).
Proof.
  apply (Fill_idempotent cast_FromType (Env.inner_of store_timeouts)
           (Inner.PtrToStruct (Some [Host; Port; Name]))).
  by vm_compute.
Defined.

Lemma empty_value_gives_fallback_witness :
  Inner.String (Env.inner_of store_A_empty) "A" ["dflt"] = "dflt" ∧
  Inner.List trim_blanks (Env.inner_of store_A_empty) "A" [] = [].
Proof.
  destruct (empty_value_gives_fallback trim_blanks store_A_empty "A"
              store_A_empty_reachable) as (Hs & _ & _ & _ & Hl).
  - left. vm_compute. apply list_elem_of_here.
  - split; [by rewrite Hs|by rewrite Hl].
Defined.

Lemma List_keeps_every_part_witness :
  ∃ parts,
    Inner.List trim_blanks (Env.inner_of store_list) "X" [] = trim_blanks <$> parts ∧
    length (Inner.List trim_blanks (Env.inner_of store_list) "X" []) =
      S (length (filter (λ c, c = ","%char)
                   (String.list_ascii_of_string "a, b ,c,"))) ∧
    String.concat "," parts = "a, b ,c," ∧
    Forall (λ part, ","%char ∉ String.list_ascii_of_string part) parts.
Proof.
  apply (List_keeps_every_part trim_blanks (Env.inner_of store_list) "X").
  by vm_compute.
Defined.

End more_witnesses.
